(** * Ornament: a shallow embedding of [ornament.c]

    The program is a single C11 file.  Its [float] is IEEE 754 binary32 and
    its [double] binary64; both are modelled with the Standard Library's
    executable specification of IEEE arithmetic ([SpecFloat]), instantiated
    at precision 24 / 53.  Every C expression is translated operator by
    operator, in C's evaluation order, with round-to-nearest-even after each
    operation (no fused multiply-add, no excess precision).

    [int] and [unsigned] values are [Z]; an [unsigned] expression is reduced
    modulo 2^32 where the source computes one.  C strings are [string]s.

    What the C library provides and the repository does not define
    ([sinf], [cosf], [acosf], [RAND_MAX], the stream of [rand()] results)
    is a parameter of the model. *)

From Stdlib Require Import ZArith List Bool Lia String Ascii.
From Stdlib Require Import Floats.SpecFloat.
From Stdlib Require DecimalString DecimalZ DecimalPos QArith.
Import ListNotations.

Open Scope Z_scope.

(* ================================================================== *)
(** ** Binary32 and binary64 arithmetic *)

Definition f32 := spec_float.
Definition f64 := spec_float.

Definition prec32 : Z := 24.
Definition emax32 : Z := 128.
Definition prec64 : Z := 53.
Definition emax64 : Z := 1024.

Definition fadd : f32 -> f32 -> f32 := SFadd prec32 emax32.
Definition fsub : f32 -> f32 -> f32 := SFsub prec32 emax32.
Definition fmul : f32 -> f32 -> f32 := SFmul prec32 emax32.
Definition fdiv : f32 -> f32 -> f32 := SFdiv prec32 emax32.
Definition fneg : f32 -> f32 := SFopp.
Definition sqrtf : f32 -> f32 := SFsqrt prec32 emax32.

(** C's comparison operators on floats; every comparison with a NaN is
    false. *)
Definition flt : f32 -> f32 -> bool := SFltb.
Definition fle : f32 -> f32 -> bool := SFleb.
Definition fgt (x y : f32) : bool := SFltb y x.
Definition fge (x y : f32) : bool := SFleb y x.
Definition feq : f32 -> f32 -> bool := SFeqb.

(** [(float)n] for an integer [n]. *)
Definition of_int (n : Z) : f32 := binary_normalize prec32 emax32 n 0 false.

(** A decimal literal [n/d] with suffix [f] is the binary32 value nearest to
    the written number; for [n] and [d] exactly representable that is the
    correctly rounded quotient. *)
Definition lit (n d : Z) : f32 := fdiv (of_int n) (of_int d).

(** [(float)t] for a [double] [t]. *)
Definition f32_of_f64 (t : f64) : f32 :=
  match t with
  | S754_finite s m e => binary_round prec32 emax32 s m e
  | _ => t
  end.

Definition dsub : f64 -> f64 -> f64 := SFsub prec64 emax64.

(** [(float)M_PI]: the binary32 value nearest to the [double] constant
    3.14159265358979323846, that is 0x40490FDB. *)
Definition M_PI_f : f32 := S754_finite false 13176795 (-22).

(** [floorf]: exact, the largest integral value not above the argument. *)
Definition floorf (x : f32) : f32 :=
  match x with
  | S754_finite s m e =>
      if 0 <=? e then x
      else binary_normalize prec32 emax32
             (Z.shiftr (cond_Zopp s (Zpos m)) (- e)) 0 s
  | _ => x
  end.

(** [fmodf]: exact, [x - n*y] for the integer [n = trunc (x/y)]; the result
    has the sign of [x]. *)
Definition fmodf (x y : f32) : f32 :=
  match x, y with
  | S754_nan, _ | _, S754_nan => S754_nan
  | S754_infinity _, _ => S754_nan
  | _, S754_zero _ => S754_nan
  | S754_zero _, _ => x
  | S754_finite _ _ _, S754_infinity _ => x
  | S754_finite sx mx ex, S754_finite _ my ey =>
      let ez := Z.min ex ey in
      let nx := Zpos (fst (shl_align mx ex ez)) in
      let ny := Zpos (fst (shl_align my ey ez)) in
      binary_normalize prec32 emax32 (cond_Zopp sx (Z.rem nx ny)) ez sx
  end.

Definition INT_MIN : Z := - 2 ^ 31.
Definition INT_MAX : Z := 2 ^ 31 - 1.

(** [(int)x]: truncation toward zero.  Outside the range of [int] (and for
    a NaN) C leaves the conversion undefined; the model returns [INT_MIN],
    the "integer indefinite" value of the x86 conversion instructions. *)
Definition to_int (x : f32) : Z :=
  match x with
  | S754_zero _ => 0
  | S754_finite s m e =>
      let n := cond_Zopp s (if 0 <=? e then Z.shiftl (Zpos m) e
                            else Z.shiftr (Zpos m) (- e)) in
      if (INT_MIN <=? n) && (n <=? INT_MAX) then n else INT_MIN
  | _ => INT_MIN
  end.

Declare Scope f32_scope.
Delimit Scope f32_scope with f32.
Bind Scope f32_scope with f32.
Infix "+" := fadd : f32_scope.
Infix "-" := fsub : f32_scope.
Infix "*" := fmul : f32_scope.
Infix "/" := fdiv : f32_scope.
Notation "- x" := (fneg x) : f32_scope.
Infix "<?" := flt : f32_scope.
Infix "<=?" := fle : f32_scope.
Infix ">?" := fgt : f32_scope.
Infix ">=?" := fge : f32_scope.
Infix "==?" := feq (at level 70) : f32_scope.

(** The float literals of the source. *)
Definition f0 : f32 := of_int 0.
Definition f1 : f32 := of_int 1.
Definition f2 : f32 := of_int 2.
Definition f6 : f32 := of_int 6.
Definition f180 : f32 := of_int 180.
Definition f0_5 : f32 := lit 1 2.
Definition f1eM8 : f32 := lit 1 100000000.
Definition f0_9995 : f32 := lit 9995 10000.

(** A finite float (zero included). *)
Definition is_finite (x : f32) : bool :=
  match x with
  | S754_zero _ | S754_finite _ _ _ => true
  | _ => false
  end.

(** A binary32 value: the mantissa is canonical and the exponent in range. *)
Definition valid32 (x : f32) : bool := valid_binary prec32 emax32 x.

(* ================================================================== *)
(** ** The C library *)

(** What the program takes from libc/libm without the repository defining it.
    [rand()] is a stream of integers in [0, RAND_MAX]; the generator state is
    a cursor into it. *)
Record Libc := {
  sinf : f32 -> f32;
  cosf : f32 -> f32;
  acosf : f32 -> f32;
  RAND_MAX : Z;
  rand_stream : nat -> Z
}.

Definition rng := nat.

Definition rand (lc : Libc) (g : rng) : Z * rng := (rand_stream lc g, S g).

(** A sample C library for evaluating the model on concrete inputs: glibc's
    [RAND_MAX], a linear congruential stream, and short Taylor polynomials in
    place of the trigonometric functions. *)
Definition sample_sinf (x : f32) : f32 :=
  (x - (x * x * x) / of_int 6 + (x * x * x * x * x) / of_int 120)%f32.
Definition sample_cosf (x : f32) : f32 :=
  (f1 - (x * x) / f2 + (x * x * x * x) / of_int 24)%f32.
Definition sample_acosf (x : f32) : f32 :=
  (M_PI_f / f2 - x - (x * x * x) / of_int 6)%f32.
Definition sample_stream (k : nat) : Z :=
  (1103515245 * (Z.of_nat k + 1) + 12345) mod 2147483648.
Definition sample_libc : Libc := {|
  sinf := sample_sinf;
  cosf := sample_cosf;
  acosf := sample_acosf;
  RAND_MAX := 2147483647;
  rand_stream := sample_stream
|}.

(* ================================================================== *)
(** ** Random *)

Section Random.
Variable lc : Libc.

(** [static float frand01(void){ return (float)rand()/(float)RAND_MAX; }] *)
Definition frand01 (g : rng) : f32 * rng :=
  let '(r, g) := rand lc g in
  ((of_int r / of_int (RAND_MAX lc))%f32, g).

(** [static float frand_range(float a,float b){ return a + (b-a)*frand01(); }] *)
Definition frand_range (a b : f32) (g : rng) : f32 * rng :=
  let '(u, g) := frand01 g in
  ((a + (b - a) * u)%f32, g).

End Random.

(* ================================================================== *)
(** ** Vec / Quat *)

(** [typedef struct { float x,y,z; } vec3;] *)
Record vec3 := v3 { vx : f32; vy : f32; vz : f32 }.

(** [typedef struct { float x,y,z,w; } quat;] *)
Record quat := mkquat { qx : f32; qy : f32; qz : f32; qw : f32 }.

Definition v3_scale (a : vec3) (s : f32) : vec3 :=
  v3 (vx a * s) (vy a * s) (vz a * s).

Definition v3_dot (a b : vec3) : f32 :=
  (vx a * vx b + vy a * vy b + vz a * vz b)%f32.

Definition v3_len (a : vec3) : f32 := sqrtf (v3_dot a a).

Definition v3_norm (a : vec3) : vec3 :=
  let l := v3_len a in
  if (l >? f1eM8)%f32 then v3_scale a (f1 / l) else v3 f0 f0 f0.

Definition q_ident : quat := mkquat f0 f0 f0 f1.

Definition q_mul (a b : quat) : quat :=
  let rw := (qw a * qw b - qx a * qx b - qy a * qy b - qz a * qz b)%f32 in
  let rx := (qw a * qx b + qx a * qw b + qy a * qz b - qz a * qy b)%f32 in
  let ry := (qw a * qy b - qx a * qz b + qy a * qw b + qz a * qx b)%f32 in
  let rz := (qw a * qz b + qx a * qy b - qy a * qx b + qz a * qw b)%f32 in
  mkquat rx ry rz rw.

(** The sum [a.x*b.x + a.y*b.y + a.z*b.z + a.w*b.w], written out in
    [q_norm] (with [b = a]) and in [q_slerp]. *)
Definition q_dot (a b : quat) : f32 :=
  (qx a * qx b + qy a * qy b + qz a * qz b + qw a * qw b)%f32.

Definition q_norm (q : quat) : quat :=
  let l := sqrtf (q_dot q q) in
  if (l <? f1eM8)%f32 then q_ident
  else
    let il := (f1 / l)%f32 in
    mkquat (qx q * il) (qy q * il) (qz q * il) (qw q * il).

Section QuatLibm.
Variable lc : Libc.

Definition q_from_axis_angle (axis : vec3) (rad : f32) : quat :=
  let axis := v3_norm axis in
  let s := sinf lc (rad * f0_5) in
  mkquat (vx axis * s) (vy axis * s) (vz axis * s) (cosf lc (rad * f0_5)).

(** XYZ (pitch=X, yaw=Y, roll=Z). *)
Definition q_from_euler (pitch yaw roll : f32) : quat :=
  let cx := cosf lc (pitch * f0_5) in let sx := sinf lc (pitch * f0_5) in
  let cy := cosf lc (yaw * f0_5) in let sy := sinf lc (yaw * f0_5) in
  let cz := cosf lc (roll * f0_5) in let sz := sinf lc (roll * f0_5) in
  mkquat (sx * cy * cz - cx * sy * sz)
         (cx * sy * cz + sx * cy * sz)
         (cx * cy * sz - sx * sy * cz)
         (cx * cy * cz + sx * sy * sz).

Definition q_slerp (a b : quat) (t : f32) : quat :=
  let a := q_norm a in
  let b := q_norm b in
  let dot := q_dot a b in
  let neg := (dot <? f0)%f32 in
  let b := if neg then mkquat (- qx b) (- qy b) (- qz b) (- qw b) else b in
  let dot := if neg then (- dot)%f32 else dot in
  if (dot >? f0_9995)%f32 then
    q_norm (mkquat (qx a + t * (qx b - qx a)) (qy a + t * (qy b - qy a))
                   (qz a + t * (qz b - qz a)) (qw a + t * (qw b - qw a)))
  else
    let th := acosf lc dot in
    let s1 := (sinf lc ((f1 - t) * th) / sinf lc th)%f32 in
    let s2 := (sinf lc (t * th) / sinf lc th)%f32 in
    mkquat (qx a * s1 + qx b * s2) (qy a * s1 + qy b * s2)
           (qz a * s1 + qz b * s2) (qw a * s1 + qw b * s2).

End QuatLibm.

(** [mat4]: the 16 entries of [m]. *)
Definition mat4 := list f32.

Definition m4_ident : mat4 :=
  [f1; f0; f0; f0;  f0; f1; f0; f0;  f0; f0; f1; f0;  f0; f0; f0; f1].

(** The rotation matrix of a quaternion, which is normalised first. *)
Definition m4_from_quat (q : quat) : mat4 :=
  let q := q_norm q in
  let x := qx q in let y := qy q in let z := qz q in let w := qw q in
  [ f1 - f2 * y * y - f2 * z * z; f2 * x * y + f2 * w * z;
    f2 * x * z - f2 * w * y; f0;
    f2 * x * y - f2 * w * z; f1 - f2 * x * x - f2 * z * z;
    f2 * y * z + f2 * w * x; f0;
    f2 * x * z + f2 * w * y; f2 * y * z - f2 * w * x;
    f1 - f2 * x * x - f2 * y * y; f0;
    f0; f0; f0; f1 ]%f32.

(* ================================================================== *)
(** ** HSV -> RGB and the palette *)

(** [h] in [0,1). *)
Definition hsv2rgb (h s v : f32) : vec3 :=
  let i := floorf (h * f6) in
  let f := (h * f6 - i)%f32 in
  let p := (v * (f1 - s))%f32 in
  let q := (v * (f1 - f * s))%f32 in
  let t := (v * (f1 - (f1 - f) * s))%f32 in
  let ii := Z.rem (to_int i) 6 in
  match ii with
  | 0 => v3 v t p
  | 1 => v3 q v p
  | 2 => v3 p v t
  | 3 => v3 p q v
  | 4 => v3 t p v
  | _ => v3 v p q
  end.

Inductive ColorKind :=
| COL_GREEN | COL_YELLOW | COL_RED | COL_BLUE | COL_CYAN
| COL_PINK | COL_ORANGE | COL_PURPLE | COL_RANDOM.

Definition neon_palette (c : ColorKind) : vec3 :=
  match c with
  | COL_GREEN => v3 (lit 1 10) f1 (lit 4 10)
  | COL_YELLOW => v3 f1 (lit 95 100) (lit 2 10)
  | COL_RED => v3 f1 (lit 15 100) (lit 15 100)
  | COL_BLUE => v3 (lit 2 10) (lit 6 10) f1
  | COL_CYAN => v3 (lit 2 10) f1 f1
  | COL_PINK => v3 f1 (lit 3 10) (lit 8 10)
  | COL_ORANGE => v3 f1 (lit 55 100) (lit 15 100)
  | COL_PURPLE => v3 (lit 75 100) (lit 3 10) f1
  | COL_RANDOM => v3 f1 f1 f1
  end.

(* ================================================================== *)
(** ** Shapes and runtime records *)

Inductive ShapeKind := SH_CUBE | SH_SPHERE | SH_PYRAMID | SH_TORUS | SH_OCT.

(** [lines] holds pairs of indices into [verts]: edge [i] joins
    [lines[2i]] and [lines[2i+1]]. *)
Record WireGeom := {
  verts : list vec3;
  lines : list Z;
  vcount : Z;
  lcount : Z
}.

Record ShapeRuntime := {
  shape : ShapeKind;
  color : ColorKind;
  hue : f32;
  hueSpeed : f32;
  orient : quat;
  target : quat;
  spinY : f32;
  spinX : f32;
  reorientTimer : f32;
  reorientDur : f32;
  reorientT : f32;
  worldPos : vec3;
  geom : WireGeom
}.

(** The fields of [ShapeRuntime], to name the target of an assignment. *)
Inductive Field :=
| F_shape | F_color | F_hue | F_hueSpeed | F_orient | F_target
| F_spinY | F_spinX | F_reorientTimer | F_reorientDur | F_reorientT
| F_worldPos | F_geom.

Definition Field_eqb (a b : Field) : bool :=
  match a, b with
  | F_shape, F_shape | F_color, F_color | F_hue, F_hue
  | F_hueSpeed, F_hueSpeed | F_orient, F_orient | F_target, F_target
  | F_spinY, F_spinY | F_spinX, F_spinX
  | F_reorientTimer, F_reorientTimer | F_reorientDur, F_reorientDur
  | F_reorientT, F_reorientT | F_worldPos, F_worldPos | F_geom, F_geom => true
  | _, _ => false
  end.

Definition set_hue (v : f32) (s : ShapeRuntime) : ShapeRuntime :=
  {| shape := shape s; color := color s; hue := v; hueSpeed := hueSpeed s;
     orient := orient s; target := target s; spinY := spinY s;
     spinX := spinX s; reorientTimer := reorientTimer s;
     reorientDur := reorientDur s; reorientT := reorientT s;
     worldPos := worldPos s; geom := geom s |}.

Definition set_orient (v : quat) (s : ShapeRuntime) : ShapeRuntime :=
  {| shape := shape s; color := color s; hue := hue s; hueSpeed := hueSpeed s;
     orient := v; target := target s; spinY := spinY s;
     spinX := spinX s; reorientTimer := reorientTimer s;
     reorientDur := reorientDur s; reorientT := reorientT s;
     worldPos := worldPos s; geom := geom s |}.

Definition set_target (v : quat) (s : ShapeRuntime) : ShapeRuntime :=
  {| shape := shape s; color := color s; hue := hue s; hueSpeed := hueSpeed s;
     orient := orient s; target := v; spinY := spinY s;
     spinX := spinX s; reorientTimer := reorientTimer s;
     reorientDur := reorientDur s; reorientT := reorientT s;
     worldPos := worldPos s; geom := geom s |}.

Definition set_reorientTimer (v : f32) (s : ShapeRuntime) : ShapeRuntime :=
  {| shape := shape s; color := color s; hue := hue s; hueSpeed := hueSpeed s;
     orient := orient s; target := target s; spinY := spinY s;
     spinX := spinX s; reorientTimer := v;
     reorientDur := reorientDur s; reorientT := reorientT s;
     worldPos := worldPos s; geom := geom s |}.

Definition set_reorientT (v : f32) (s : ShapeRuntime) : ShapeRuntime :=
  {| shape := shape s; color := color s; hue := hue s; hueSpeed := hueSpeed s;
     orient := orient s; target := target s; spinY := spinY s;
     spinX := spinX s; reorientTimer := reorientTimer s;
     reorientDur := reorientDur s; reorientT := v;
     worldPos := worldPos s; geom := geom s |}.

(* ================================================================== *)
(** ** Animation: [color_for] and [update_shape] *)

Section Animation.
Variable lc : Libc.

(** [t] is the [double] wall-clock time handed down from [app_loop]. *)
Definition color_for (s : ShapeRuntime) (t : f64) : vec3 :=
  match color s with
  | COL_RANDOM =>
      let h := fmodf (hue s + f32_of_f64 t * hueSpeed s) f1 in
      hsv2rgb h f1 f1
  | c => neon_palette c
  end.

(** The machine state [update_shape] runs in: the record behind the pointer
    [s], the state of [rand()], and the trace of assignments to fields of
    [*s] in program order. *)
Record Mem := {
  obj : ShapeRuntime;
  gen : rng;
  writes : list Field
}.

(** One assignment [s->f = ...] (or [s->f op= ...]). *)
Definition store (f : Field) (upd : ShapeRuntime -> ShapeRuntime) (m : Mem) : Mem :=
  {| obj := upd (obj m); gen := gen m; writes := writes m ++ [f] |}.

Definition with_gen (g : rng) (m : Mem) : Mem :=
  {| obj := obj m; gen := g; writes := writes m |}.

(** [q_from_euler(frand_range(-1.5f,1.5f), frand_range(-1.5f,1.5f),
    frand_range(-1.5f,1.5f))]; C leaves the order of the three calls open,
    the model draws them left to right. *)
Definition random_euler (lo hi : f32) (g : rng) : quat * rng :=
  let '(p, g) := frand_range lc lo hi g in
  let '(y, g) := frand_range lc lo hi g in
  let '(r, g) := frand_range lc lo hi g in
  (q_from_euler lc p y r, g).

(** Lines 513-522: the reorientation block.  Returns the state and
    [spinScale]. *)
Definition reorient_step (dt : f32) (m : Mem) : Mem * f32 :=
  if ((reorientTimer (obj m) <=? f0) || (reorientT (obj m) >? f0))%f32 then
    let m :=
      if (reorientT (obj m) ==? f0)%f32 then
        let '(q, g) := random_euler (- lit 3 2) (lit 3 2) (gen m) in
        store F_target (set_target q) (with_gen g m)
      else m in
    let m := store F_reorientT
               (set_reorientT (reorientT (obj m) + dt / reorientDur (obj m))) m in
    if (reorientT (obj m) >=? f1)%f32 then
      let m := store F_orient (set_orient (target (obj m))) m in
      let m := store F_reorientT (set_reorientT f0) m in
      let '(v, g) := frand_range lc (of_int 4) (of_int 8) (gen m) in
      (store F_reorientTimer (set_reorientTimer v) (with_gen g m), f1)
    else
      (store F_orient
         (set_orient (q_slerp lc (orient (obj m)) (target (obj m))
                        (reorientT (obj m)))) m,
       f0_5)
  else (m, f1).

(** Lines 524-527: the continuous spin. *)
Definition spin_delta (s : ShapeRuntime) (spinScale dt : f32) : quat :=
  let dYaw := (spinY s * spinScale * dt * M_PI_f / f180)%f32 in
  let dPitch := (spinX s * spinScale * dt * M_PI_f / f180)%f32 in
  q_mul (q_from_axis_angle lc (v3 f0 f1 f0) dYaw)
        (q_from_axis_angle lc (v3 f1 f0 f0) dPitch).

Definition update_shape (dt : f32) (m : Mem) : Mem :=
  let m := store F_hue
             (set_hue (fmodf (hue (obj m) + hueSpeed (obj m) * dt) f1)) m in
  let m := store F_reorientTimer
             (set_reorientTimer (reorientTimer (obj m) - dt)) m in
  let '(m, spinScale) := reorient_step dt m in
  let dq := spin_delta (obj m) spinScale dt in
  store F_orient (set_orient (q_mul dq (orient (obj m)))) m.

End Animation.

(* ================================================================== *)
(** ** Geometry *)

(** Conversion to [unsigned]. *)
Definition u32 (n : Z) : Z := n mod 2 ^ 32.

(** [for(int i=lo; i<hi; i++) body], for a body that leaves [i] alone. *)
Fixpoint for_loop {S : Type} (i : Z) (n : nat) (body : Z -> S -> S) (s : S) : S :=
  match n with
  | O => s
  | Datatypes.S n' => for_loop (i + 1) n' body (body i s)
  end.

Definition for_range {S : Type} (lo hi : Z) (body : Z -> S -> S) (s : S) : S :=
  for_loop lo (Z.to_nat (hi - lo)) body s.

(** A heap block of [length] elements.  [poke i x] is the store
    [block[i] = x]; outside the block the store is undefined behaviour, which
    the callers record in a flag, and the block is left as it is. *)
Definition in_block {A : Type} (i : Z) (l : list A) : bool :=
  (0 <=? i) && (i <? Z.of_nat (List.length l)).

Fixpoint poke_nat {A : Type} (i : nat) (x : A) (l : list A) : list A :=
  match l, i with
  | [], _ => []
  | _ :: l', O => x :: l'
  | y :: l', Datatypes.S i' => y :: poke_nat i' x l'
  end.

Definition poke {A : Type} (i : Z) (x : A) (l : list A) : list A :=
  if in_block i l then poke_nat (Z.to_nat i) x l else l.

(** [malloc(n * sizeof(T))]: a block of [n] elements of indeterminate value,
    shown as [d]. *)
Definition malloc {A : Type} (n : Z) (d : A) : list A := repeat d (Z.to_nat n).

(** [realloc(p, n * sizeof(T))] to a smaller size keeps the first [n]
    elements. *)
Definition realloc {A : Type} (l : list A) (n : Z) : list A := firstn (Z.to_nat n) l.

Definition fm0_5 : f32 := (- f0_5)%f32.

Definition cube_v : list vec3 :=
  [ v3 fm0_5 fm0_5 fm0_5; v3 f0_5 fm0_5 fm0_5; v3 f0_5 f0_5 fm0_5; v3 fm0_5 f0_5 fm0_5;
    v3 fm0_5 fm0_5 f0_5; v3 f0_5 fm0_5 f0_5; v3 f0_5 f0_5 f0_5; v3 fm0_5 f0_5 f0_5 ].
Definition cube_e : list Z :=
  [0;1;1;2;2;3;3;0; 4;5;5;6;6;7;7;4; 0;4;1;5;2;6;3;7].

(** [ARRAY_LEN(a)] *)
Definition ARRAY_LEN {A : Type} (a : list A) : Z := Z.of_nat (List.length a).

Definition make_cube : WireGeom :=
  {| vcount := ARRAY_LEN cube_v; verts := cube_v;
     lcount := ARRAY_LEN cube_e / 2; lines := cube_e |}.

Definition pyramid_v : list vec3 :=
  [ v3 fm0_5 f0 fm0_5; v3 f0_5 f0 fm0_5; v3 f0_5 f0 f0_5; v3 fm0_5 f0 f0_5;
    v3 f0 (lit 8 10) f0 ].
Definition pyramid_e : list Z := [0;1;1;2;2;3;3;0; 0;4;1;4;2;4;3;4].

Definition make_pyramid : WireGeom :=
  {| vcount := ARRAY_LEN pyramid_v; verts := pyramid_v;
     lcount := ARRAY_LEN pyramid_e / 2; lines := pyramid_e |}.

Definition fm1 : f32 := (- f1)%f32.

Definition octahedron_v : list vec3 :=
  [ v3 f0 f1 f0; v3 f1 f0 f0; v3 f0 f0 f1; v3 fm1 f0 f0; v3 f0 f0 fm1; v3 f0 fm1 f0 ].
Definition octahedron_e : list Z :=
  [0;1;0;2;0;3;0;4; 1;2;2;3;3;4;4;1; 5;1;5;2;5;3;5;4].

Definition make_octahedron : WireGeom :=
  {| vcount := ARRAY_LEN octahedron_v; verts := octahedron_v;
     lcount := ARRAY_LEN octahedron_e / 2; lines := octahedron_e |}.

(** The locals of [make_sphere] and [make_torus]: the two blocks, the write
    cursors [vi] and [ei], and whether a store has left its block.  The
    cursors are [int] in the source and integers here: what is stated of
    them holds of the program as long as they stay within [INT_MAX]. *)
Record GenState := {
  gv : list vec3;
  ge : list Z;
  vi : Z;
  ei : Z;
  overrun : bool
}.

(** [v[vi++] = p] *)
Definition push_v (p : vec3) (st : GenState) : GenState :=
  {| gv := poke (vi st) p (gv st); ge := ge st; vi := vi st + 1; ei := ei st;
     overrun := overrun st || negb (in_block (vi st) (gv st)) |}.

(** [e[ei++] = a] *)
Definition push_e (a : Z) (st : GenState) : GenState :=
  {| gv := gv st; ge := poke (ei st) a (ge st); vi := vi st; ei := ei st + 1;
     overrun := overrun st || negb (in_block (ei st) (ge st)) |}.

(** [v[vi] = p] *)
Definition put_v (p : vec3) (st : GenState) : GenState :=
  {| gv := poke (vi st) p (gv st); ge := ge st; vi := vi st; ei := ei st;
     overrun := overrun st || negb (in_block (vi st) (gv st)) |}.

Definition incr_vi (st : GenState) : GenState :=
  {| gv := gv st; ge := ge st; vi := vi st + 1; ei := ei st;
     overrun := overrun st |}.

(** [WireGeom g={0}; g.vcount=vi; g.verts=realloc(v,sizeof(vec3)*vi);
    g.lcount=ei/2; g.lines=realloc(e,sizeof(unsigned)*ei);] *)
Definition finish (st : GenState) : WireGeom :=
  {| vcount := vi st; verts := realloc (gv st) (vi st);
     lcount := ei st / 2; lines := realloc (ge st) (ei st) |}.

Definition f2pi : f32 := (f2 * M_PI_f)%f32.

Section Geometry.
Variable lc : Libc.

(** Latitude rings (excluding poles). *)
Definition sphere_lat_ring (lat lon : Z) (i : Z) (st : GenState) : GenState :=
  let a := (M_PI_f * (of_int i / of_int lat))%f32 in
  let y := cosf lc a in
  let r := sinf lc a in
  let first_idx := u32 (vi st) in
  let seg := lon in
  let st :=
    for_range 0 seg (fun j st =>
      let t := (f2pi * (of_int j / of_int seg))%f32 in
      let st := push_v (v3 (r * cosf lc t) y (r * sinf lc t)) st in
      if 0 <? j then
        push_e (u32 (first_idx + j)) (push_e (u32 (first_idx + j - 1)) st)
      else st) st in
  push_e first_idx (push_e (u32 (first_idx + seg - 1)) st).

(** Longitude rings. *)
Definition sphere_lon_ring (lat lon : Z) (j : Z) (st : GenState) : GenState :=
  let t := (f2pi * (of_int j / of_int lon))%f32 in
  let segments := lat * 2 in
  for_range 0 segments (fun k st =>
    let u := (M_PI_f * (of_int k / of_int (segments - 1)))%f32 in
    let p := v3 (sinf lc u * cosf lc t) (cosf lc u) (sinf lc u * sinf lc t) in
    let st := push_v p st in
    if 0 <? k then push_e (u32 (vi st - 1)) (push_e (u32 (vi st - 2)) st)
    else st) st.

(** Extra equatorial + offset rings. *)
Definition sphere_extra_ring (seg : Z) (r : Z) (st : GenState) : GenState :=
  let tilt := if r =? 0 then f0 else if r =? 1 then lit 35 100 else (- f0_5)%f32 in
  let first := u32 (vi st) in
  let st :=
    for_range 0 seg (fun j st =>
      let t := (f2pi * (of_int j / of_int seg))%f32 in
      let x := cosf lc t in
      let z := sinf lc t in
      let y := f0 in
      let cy := cosf lc tilt in
      let sy := sinf lc tilt in
      let p := v3 x (y * cy - z * sy) (y * sy + z * cy) in
      let st := push_v p st in
      if 0 <? j then push_e (u32 (vi st - 1)) (push_e (u32 (vi st - 2)) st)
      else st) st in
  push_e first (push_e (u32 (vi st - 1)) st).

(** The state of [make_sphere] when the three families of rings are written. *)
Definition sphere_fill (lat lon : Z) : GenState :=
  let maxv := (lat + 1) * (lon + 1) + (lat + lon) * 64 in
  let st := {| gv := malloc maxv (v3 f0 f0 f0); ge := malloc (maxv * 4) 0;
               vi := 0; ei := 0; overrun := false |} in
  let st := for_range 1 lat (sphere_lat_ring lat lon) st in
  let st := for_range 0 lon (sphere_lon_ring lat lon) st in
  let extra := 3 in
  let seg := lon * 2 in
  for_range 0 extra (sphere_extra_ring seg) st.

Definition make_sphere (lat lon : Z) : WireGeom := finish (sphere_fill lat lon).

(** [int idx[128][128]], as the function from the two indices to the entry;
    only entries written before are read. *)
Definition IdxTable := Z -> Z -> Z.

Definition idx_store (i j v : Z) (t : IdxTable) : IdxTable :=
  fun i' j' => if (i' =? i) && (j' =? j) then v else t i' j'.

(** The first double loop of [make_torus]: the grid of vertices. *)
Definition torus_grid (majorSeg minorSeg : Z) (R r : f32)
    (sti : GenState * IdxTable) : GenState * IdxTable :=
  for_range 0 majorSeg (fun i sti =>
    let a := (f2pi * of_int i / of_int majorSeg)%f32 in
    let ca := cosf lc a in
    let sa := sinf lc a in
    for_range 0 minorSeg (fun j '(st, idx) =>
      let b := (f2pi * of_int j / of_int minorSeg)%f32 in
      let cb := cosf lc b in
      let sb := sinf lc b in
      let x := ((R + r * cb) * ca)%f32 in
      let y := ((R + r * cb) * sa)%f32 in
      let z := (r * sb)%f32 in
      let st := put_v (v3 x z y) st in
      let idx := idx_store i j (vi st) idx in
      (incr_vi st, idx)) sti) sti.

(** The second double loop: the edges along both directions. *)
Definition torus_edges (majorSeg minorSeg : Z) (idx : IdxTable)
    (st : GenState) : GenState :=
  for_range 0 majorSeg (fun i st =>
    for_range 0 minorSeg (fun j st =>
      let i2 := Z.rem (i + 1) majorSeg in
      let j2 := Z.rem (j + 1) minorSeg in
      let a := u32 (idx i j) in
      let b := u32 (idx i2 j) in
      let c := u32 (idx i j2) in
      let st := push_e b (push_e a st) in
      push_e c (push_e a st)) st) st.

Definition torus_fill (majorSeg minorSeg : Z) (R r : f32) : GenState :=
  let vcap := majorSeg * minorSeg in
  let st := {| gv := malloc vcap (v3 f0 f0 f0); ge := malloc (vcap * 4) 0;
               vi := 0; ei := 0; overrun := false |} in
  let majorSeg := if 128 <? majorSeg then 128 else majorSeg in
  let minorSeg := if 128 <? minorSeg then 128 else minorSeg in
  let '(st, idx) := torus_grid majorSeg minorSeg R r (st, fun _ _ => 0) in
  torus_edges majorSeg minorSeg idx st.

(** Normalize size. *)
Definition torus_maxr (vs : list vec3) : f32 :=
  fold_left (fun maxr p =>
               let rlen := v3_len p in
               if (rlen >? maxr)%f32 then rlen else maxr) vs f0.

Definition make_torus (majorSeg minorSeg : Z) (R r : f32) : WireGeom :=
  let g := finish (torus_fill majorSeg minorSeg R r) in
  let s := (f0_5 / torus_maxr (verts g))%f32 in
  {| vcount := vcount g; verts := map (fun p => v3_scale p s) (verts g);
     lcount := lcount g; lines := lines g |}.

(** The [switch] of [main] that picks the geometry of a shape. *)
Definition geom_of (k : ShapeKind) : WireGeom :=
  match k with
  | SH_CUBE => make_cube
  | SH_PYRAMID => make_pyramid
  | SH_OCT => make_octahedron
  | SH_SPHERE => make_sphere 10 16
  | SH_TORUS => make_torus 32 12 f1 (lit 35 100)
  end.

End Geometry.

(* ================================================================== *)
(** ** INI & Config *)

Inductive Anchor :=
| POS_TL | POS_TC | POS_TR | POS_CL | POS_C | POS_CR | POS_BL | POS_BC | POS_BR.

Record ShapeConfig := {
  cfg_shape : ShapeKind;
  cfg_color : ColorKind;
  cfg_pos : Anchor;
  cfg_screen : Z
}.

Definition COLOR_NAMES : list string :=
  ["GREEN"; "YELLOW"; "RED"; "BLUE"; "CYAN"; "PINK"; "ORANGE"; "PURPLE"; "RANDOM"]%string.
Definition SHAPE_NAMES : list string :=
  ["CUBE"; "SPHERE"; "PYRAMID"; "TORUS"; "OCTAHEDRON"]%string.
Definition POS_NAMES : list string :=
  ["TOP-LEFT"; "TOP-CENTER"; "TOP-RIGHT"; "CENTER-LEFT"; "CENTER"; "CENTER-RIGHT";
   "BOTTOM-LEFT"; "BOTTOM-CENTER"; "BOTTOM-RIGHT"]%string.

(** The enumerators by their integer value; the casts [(ShapeKind)sh] etc.
    are only applied to indices the parsers returned. *)
Definition ShapeKind_of_int (n : Z) : ShapeKind :=
  match n with
  | 0 => SH_CUBE | 1 => SH_SPHERE | 2 => SH_PYRAMID | 3 => SH_TORUS | _ => SH_OCT
  end.
Definition ColorKind_of_int (n : Z) : ColorKind :=
  match n with
  | 0 => COL_GREEN | 1 => COL_YELLOW | 2 => COL_RED | 3 => COL_BLUE
  | 4 => COL_CYAN | 5 => COL_PINK | 6 => COL_ORANGE | 7 => COL_PURPLE
  | _ => COL_RANDOM
  end.
Definition Anchor_of_int (n : Z) : Anchor :=
  match n with
  | 0 => POS_TL | 1 => POS_TC | 2 => POS_TR | 3 => POS_CL | 4 => POS_C
  | 5 => POS_CR | 6 => POS_BL | 7 => POS_BC | _ => POS_BR
  end.
Definition int_of_Anchor (a : Anchor) : Z :=
  match a with
  | POS_TL => 0 | POS_TC => 1 | POS_TR => 2 | POS_CL => 3 | POS_C => 4
  | POS_CR => 5 | POS_BL => 6 | POS_BC => 7 | POS_BR => 8
  end.

Definition chr (n : nat) : ascii := ascii_of_nat n.
Definition NUL : ascii := chr 0.
Definition TAB : ascii := chr 9.
Definition LF : ascii := chr 10.
Definition VT : ascii := chr 11.
Definition FF : ascii := chr 12.
Definition CR : ascii := chr 13.
Definition SPACE : ascii := chr 32.
Definition DQUOTE : ascii := chr 34.

(** The contents of a [char] buffer read as a C string: up to the first NUL. *)
Fixpoint c_str (s : string) : string :=
  match s with
  | EmptyString => EmptyString
  | String c s' => if Ascii.eqb c NUL then EmptyString else String c (c_str s')
  end.

Definition is_lead_ws (c : ascii) : bool :=
  Ascii.eqb c SPACE || Ascii.eqb c TAB || Ascii.eqb c CR.
Definition is_trail_ws (c : ascii) : bool :=
  Ascii.eqb c SPACE || Ascii.eqb c TAB || Ascii.eqb c CR || Ascii.eqb c LF.

Fixpoint skip_lead (s : string) : string :=
  match s with
  | String c s' => if is_lead_ws c then skip_lead s' else s
  | EmptyString => s
  end.

Fixpoint strip_trail (s : string) : string :=
  match s with
  | EmptyString => EmptyString
  | String c s' =>
      match strip_trail s' with
      | EmptyString => if is_trail_ws c then EmptyString else String c EmptyString
      | r => String c r
      end
  end.

(** trim helper *)
Definition trim (s : string) : string := strip_trail (skip_lead s).

Definition upper (c : ascii) : ascii :=
  let n := nat_of_ascii c in
  if (97 <=? n)%nat && (n <=? 122)%nat then ascii_of_nat (n - 32) else c.

Fixpoint ieq (a b : string) : bool :=
  match a, b with
  | EmptyString, EmptyString => true
  | String ca a', String cb b' =>
      if Ascii.eqb (upper ca) (upper cb) then ieq a' b' else false
  | _, _ => false
  end.

(** [for(int i=0;i<COUNT;i++) if(ieq(s,NAMES[i])) return i; return -1;] *)
Fixpoint find_name (names : list string) (i : Z) (s : string) : Z :=
  match names with
  | [] => -1
  | n :: rest => if ieq s n then i else find_name rest (i + 1) s
  end.

Definition parse_color (s : string) : Z := find_name COLOR_NAMES 0 s.
Definition parse_shape (s : string) : Z := find_name SHAPE_NAMES 0 s.
Definition parse_pos (s : string) : Z := find_name POS_NAMES 0 s.

(** [strchr(s, c)], as the offset of the first [c] in [s]. *)
Fixpoint strchr (s : string) (c : ascii) : option nat :=
  match s with
  | EmptyString => None
  | String d s' =>
      if Ascii.eqb d c then Some O
      else match strchr s' c with Some k => Some (S k) | None => None end
  end.

Fixpoint take (n : nat) (s : string) : string :=
  match n, s with
  | S n', String c s' => String c (take n' s')
  | _, _ => EmptyString
  end.

Fixpoint drop (n : nat) (s : string) : string :=
  match n, s with
  | S n', String _ s' => drop n' s'
  | _, _ => s
  end.

Fixpoint skip_delim (d : ascii) (s : string) : string :=
  match s with
  | String c s' => if Ascii.eqb c d then skip_delim d s' else s
  | EmptyString => s
  end.

(** The token at the head of [s] and what follows its delimiter. *)
Fixpoint split_token (d : ascii) (s : string) : string * string :=
  match s with
  | EmptyString => (EmptyString, EmptyString)
  | String c s' =>
      if Ascii.eqb c d then (EmptyString, s')
      else let '(t, r) := split_token d s' in (String c t, r)
  end.

(** One call of [strtok] with the single delimiter [d] on the rest [s] of
    the buffer: the next non-empty token and the new rest, or [NULL]. *)
Definition strtok (d : ascii) (s : string) : option (string * string) :=
  match skip_delim d s with
  | EmptyString => None
  | s' => Some (split_token d s')
  end.

Fixpoint last_char (s : string) : option ascii :=
  match s with
  | EmptyString => None
  | String c EmptyString => Some c
  | String _ s' => last_char s'
  end.

Fixpoint drop_last (s : string) : string :=
  match s with
  | EmptyString => EmptyString
  | String _ EmptyString => EmptyString
  | String c s' => String c (drop_last s')
  end.

(** Remove optional quotes: when the first and the last character of [a]
    are both the double quote, the last one is overwritten with the
    terminator and [a] is advanced by one.  For the one-character token that
    is a quote, the store clears the quote and the increment steps onto the
    token's terminator: the result is empty. *)
Definition unquote (a : string) : string :=
  match a with
  | String c r =>
      if Ascii.eqb c DQUOTE then
        match last_char a with
        | Some l => if Ascii.eqb l DQUOTE then drop_last r else a
        | None => a
        end
      else a
  | EmptyString => a
  end.

Definition isspace (c : ascii) : bool :=
  Ascii.eqb c SPACE || Ascii.eqb c TAB || Ascii.eqb c LF || Ascii.eqb c VT
  || Ascii.eqb c FF || Ascii.eqb c CR.

Definition is_digit (c : ascii) : bool :=
  let n := nat_of_ascii c in (48 <=? n)%nat && (n <=? 57)%nat.

Fixpoint skip_space (s : string) : string :=
  match s with
  | String c s' => if isspace c then skip_space s' else s
  | EmptyString => s
  end.

Fixpoint digits_val (s : string) (acc : Z) : Z :=
  match s with
  | String c s' =>
      if is_digit c then digits_val s' (acc * 10 + (Z.of_nat (nat_of_ascii c) - 48))
      else acc
  | EmptyString => acc
  end.

(** The number [strtol(s, NULL, 10)] reads: white space, an optional sign,
    then the decimal digits; 0 when there is none. *)
Definition decimal_value (s : string) : Z :=
  match skip_space s with
  | String c s' =>
      if Ascii.eqb c (chr 45) then - digits_val s' 0
      else if Ascii.eqb c (chr 43) then digits_val s' 0
      else digits_val (String c s') 0
  | EmptyString => 0
  end.

Definition LONG_MIN : Z := - 2 ^ 63.
Definition LONG_MAX : Z := 2 ^ 63 - 1.

(** [strtol(s, NULL, 10)] with a 64-bit [long]: a number outside [long] is
    replaced by the nearest of [LONG_MIN] and [LONG_MAX]. *)
Definition strtol (s : string) : Z :=
  Z.max LONG_MIN (Z.min LONG_MAX (decimal_value s)).

(** The conversion of a [long] to [int] keeps the low 32 bits. *)
Definition int_of_long (v : Z) : Z := (v + 2 ^ 31) mod 2 ^ 32 - 2 ^ 31.

(** [atoi]: an [int].  For a number outside [int] C leaves the result
    undefined; the model follows the GNU C library, where [atoi(s)] is
    [(int)strtol(s, NULL, 10)]: 2147483648 gives [INT_MIN], and a number
    above [LONG_MAX] gives -1. *)
Definition atoi (s : string) : Z := int_of_long (strtol s).

Definition EQUALS : ascii := chr 61.
Definition LBRACKET : ascii := chr 91.
Definition RBRACKET : ascii := chr 93.
Definition COMMA : ascii := chr 44.
Definition HASH : ascii := chr 35.

(** Lines 336-350 of the loop body: the line is either left out, or refused
    with one of three warnings, or cut into the left-hand side and the three
    fields (trimmed, quotes removed). *)
Inductive SplitOutcome :=
| S_ignored
| S_bad_line
| S_missing_brackets
| S_need_3_fields
| S_fields (lhs a b c : string).

(** Expect: SHAPE=[COLOR, POSITION, SCREEN] *)
Definition split_line (line : string) : SplitOutcome :=
  let p := trim (c_str line) in
  match p with
  | EmptyString => S_ignored
  | String c0 _ =>
    if Ascii.eqb c0 HASH then S_ignored else
    match strchr p EQUALS with
    | None => S_bad_line
    | Some ln =>
      let lhs := take (Nat.min ln 63) p in
      let eq := drop ln p in
      match strchr eq LBRACKET, strchr eq RBRACKET with
      | Some lb, Some rb =>
        if (rb <? lb)%nat then S_missing_brackets else
        let inl := Nat.min (rb - lb - 1) 255 in
        let inside := take inl (drop (lb + 1) eq) in
        (* split by commas *)
        match strtok COMMA inside with
        | None => S_need_3_fields
        | Some (a, rest) =>
          match strtok COMMA rest with
          | None => S_need_3_fields
          | Some (b, rest) =>
            match strtok COMMA rest with
            | None => S_need_3_fields
            | Some (c, _) =>
              S_fields lhs (unquote (trim a)) (unquote (trim b)) (unquote (trim c))
            end
          end
        end
      | _, _ => S_missing_brackets
      end
    end
  end.

(** What the body of the [while(fgets(...))] loop does with one line. *)
Inductive LineOutcome :=
| L_ignored
| L_bad_line
| L_missing_brackets
| L_need_3_fields
| L_invalid_tokens
| L_record (c : ShapeConfig).

(** Lines 351-354: the tokens are looked up, the screen is converted with
    [atoi], and the record is appended unless a lookup failed. *)
Definition parse_line (line : string) : LineOutcome :=
  match split_line line with
  | S_ignored => L_ignored
  | S_bad_line => L_bad_line
  | S_missing_brackets => L_missing_brackets
  | S_need_3_fields => L_need_3_fields
  | S_fields lhs a b c =>
      let sh := parse_shape lhs in
      let co := parse_color a in
      let po := parse_pos b in
      let sc := atoi c in
      if (sh <? 0) || (co <? 0) || (po <? 0) then L_invalid_tokens
      else L_record {| cfg_shape := ShapeKind_of_int sh;
                       cfg_color := ColorKind_of_int co;
                       cfg_pos := Anchor_of_int po;
                       cfg_screen := sc |}
  end.

(** The successive results of [fgets(line, 512, f)] on a file: each holds at
    most 511 characters and ends after the first line feed, if one comes
    before. *)
Fixpoint fgets_from (room : nat) (cur : string) (f : string) : list string :=
  match f with
  | EmptyString =>
      match cur with EmptyString => [] | _ => [cur] end
  | String c f' =>
      let cur' := (cur ++ String c EmptyString)%string in
      if Ascii.eqb c LF then cur' :: fgets_from 511 EmptyString f'
      else match room with
           | S O | O => cur' :: fgets_from 511 EmptyString f'
           | S room' => fgets_from room' cur' f'
           end
  end.

Definition fgets_lines (f : string) : list string := fgets_from 511 EmptyString f.

Definition default_config : ShapeConfig :=
  {| cfg_shape := SH_CUBE; cfg_color := COL_GREEN; cfg_pos := POS_C; cfg_screen := 0 |}.

(** The records the loop appends to [L.items], in order. *)
Fixpoint collect (ls : list string) : list ShapeConfig :=
  match ls with
  | [] => []
  | l :: rest =>
      match parse_line l with
      | L_record c => c :: collect rest
      | _ => collect rest
      end
  end.

(** [file] is the content of the file at [path], or [None] when [fopen]
    fails. *)
Definition load_ini (file : option string) : list ShapeConfig :=
  match file with
  | None => [default_config]
  | Some f =>
      match collect (fgets_lines f) with
      | [] => [default_config]
      | items => items
      end
  end.

(* ================================================================== *)
(** ** Placement helpers *)

(** Returns x,y in [-1,1] approximate anchor. *)
Definition anchor_to_ndc (a : Anchor) : vec3 :=
  match a with
  | POS_TL => v3 fm1 f1 f0 | POS_TC => v3 f0 f1 f0 | POS_TR => v3 f1 f1 f0
  | POS_CL => v3 fm1 f0 f0 | POS_C => v3 f0 f0 f0 | POS_CR => v3 f1 f0 f0
  | POS_BL => v3 fm1 fm1 f0 | POS_BC => v3 f0 fm1 f0 | POS_BR => v3 f1 fm1 f0
  end.

(** Move inward from edges by margin [m]. *)
Definition anchor_margin (a : vec3) (m : f32) : vec3 :=
  let x := vx a in
  let x := if (x <? f0)%f32 then (x + m)%f32 else x in
  let x := if (x >? f0)%f32 then (x - m)%f32 else x in
  let y := vy a in
  let y := if (y >? f0)%f32 then (y - m)%f32 else y in
  let y := if (y <? f0)%f32 then (y + m)%f32 else y in
  v3 x y (vz a).

(* ================================================================== *)
(** ** Main: building the runtime records *)

(** [int quadrantCount[16][POS_COUNT]], read and written at
    [[mon][pos]]. *)
Definition QuadTable := Z -> Z -> Z.

Definition quad_incr (mon pos : Z) (t : QuadTable) : QuadTable :=
  fun m p => if (m =? mon) && (p =? pos) then t m p + 1 else t m p.

(** [int mon = sc.screen; if(mon<0) mon=0; if(mon>=monCount) mon=monCount-1;] *)
Definition clamp_monitor (monCount screen : Z) : Z :=
  let mon := screen in
  let mon := if mon <? 0 then 0 else mon in
  if monCount <=? mon then monCount - 1 else mon.

(** Lines 456-459: the position of a shape at anchor [a] that found the
    counter of its (monitor, anchor) cell at [qn]. *)
Definition place (a : Anchor) (qn : Z) : vec3 :=
  let anc := anchor_to_ndc a in
  let pos := anchor_margin anc (lit 12 100) in
  let off := (lit 5 100 * of_int qn)%f32 in
  let x := (vx pos + (if (vx anc >=? f0)%f32 then - off else off))%f32 in
  let y := (vy pos + (if (vy anc >=? f0)%f32 then - off else off))%f32 in
  v3 x y (vz pos).

Section Main.
Variable lc : Libc.

(** Lines 472-477: a fresh record; the calls of [rand()] in the order of the
    statements (and left to right inside [q_from_euler(...)]). *)
Definition new_runtime (sc : ShapeConfig) (pos : vec3) (g : rng) : ShapeRuntime * rng :=
  let '(h, g) := frand01 lc g in
  let '(hs, g) := frand_range lc (lit 25 100) f0_5 g in
  let '(tg, g) := random_euler lc fm1 f1 g in
  let '(sy, g) := frand_range lc f180 (of_int 360) g in
  let '(sx, g) := frand_range lc (of_int 15) (of_int 45) g in
  let '(tm, g) := frand_range lc (of_int 4) (of_int 8) g in
  let '(du, g) := frand_range lc (lit 3 2) (lit 5 2) g in
  ({| shape := cfg_shape sc; color := cfg_color sc; hue := h; hueSpeed := hs;
      orient := q_ident; target := tg; spinY := sy; spinX := sx;
      reorientTimer := tm; reorientDur := du; reorientT := f0;
      worldPos := pos; geom := geom_of lc (cfg_shape sc) |}, g).

(** The loop of lines 452-479 over [list.items].  The table has 16 rows: a
    monitor index of 16 or more is an access outside it (undefined
    behaviour), for which the model gives no result. *)
Fixpoint build_runtime (monCount : Z) (items : list ShapeConfig)
    (quadrantCount : QuadTable) (g : rng) : option (list ShapeRuntime * rng) :=
  match items with
  | [] => Some ([], g)
  | sc :: rest =>
      let mon := clamp_monitor monCount (cfg_screen sc) in
      if (mon <? 0) || (16 <=? mon) then None else
      let p := int_of_Anchor (cfg_pos sc) in
      let qn := quadrantCount mon p in
      let quadrantCount := quad_incr mon p quadrantCount in
      let pos := place (cfg_pos sc) qn in
      let '(R, g) := new_runtime sc pos g in
      match build_runtime monCount rest quadrantCount g with
      | Some (rs, g) => Some (R :: rs, g)
      | None => None
      end
  end.

Definition main_runtime (monCount : Z) (items : list ShapeConfig) (g : rng) :=
  build_runtime monCount items (fun _ _ => 0) g.

End Main.

(* ================================================================== *)
(** ** Rendering & Loop *)

(** What the window system and the clock answer, frame by frame: whether
    [glfwWindowShouldClose] holds for window [w] at the top of frame [k], and
    the value of [glfwGetTime()] read in frame [k].  (Drawing, buffer swaps
    and the polling of events only act on this environment; the wait of the
    frame-rate cap ends because the clock advances.) *)
Record World := {
  should_close : nat -> nat -> bool;
  time_at : nat -> f64;
  start_time : f64
}.

Section Loop.
Variable lc : Libc.

(** [for(int i=0;i<runtimeCount;i++) update_shape(&runtime[i], dt);] *)
Fixpoint update_all (dt : f32) (rts : list ShapeRuntime) (g : rng)
  : list ShapeRuntime * rng :=
  match rts with
  | [] => ([], g)
  | s :: rest =>
      let m := update_shape lc dt {| obj := s; gen := g; writes := [] |} in
      let '(rest', g') := update_all dt rest (gen m) in
      (obj m :: rest', g')
  end.

(** [anyOpen] after the scan of the windows at the top of frame [k]. *)
Definition any_open (w : World) (count : nat) (k : nat) : bool :=
  existsb (fun i => negb (should_close w k i)) (seq 0 count).

(** [float dt = (float)(now - last); if(dt>0.1f) dt=0.1f;] *)
Definition frame_dt (now last : f64) : f32 :=
  let dt := f32_of_f64 (dsub now last) in
  if (dt >? lit 1 10)%f32 then lit 1 10 else dt.

Record LoopState := {
  frame : nat;
  last : f64;
  runtime : list ShapeRuntime;
  rgen : rng
}.

(** One pass through the body of [while(1)]: [None] is the [break]. *)
Definition loop_body (w : World) (count : nat) (st : LoopState) : option LoopState :=
  if negb (any_open w count (frame st)) then None
  else
    let now := time_at w (frame st) in
    let dt := frame_dt now (last st) in
    let '(rts, g) := update_all dt (runtime st) (rgen st) in
    Some {| frame := S (frame st); last := now; runtime := rts; rgen := g |}.

(** [while(1)] run for at most [fuel] passes: the state at the [break], or
    [None] when the passes ran out first. *)
Fixpoint run_loop (fuel : nat) (w : World) (count : nat) (st : LoopState)
  : option LoopState :=
  match fuel with
  | O => None
  | S fuel' =>
      match loop_body w count st with
      | None => Some st
      | Some st' => run_loop fuel' w count st'
      end
  end.

Definition app_loop (fuel : nat) (w : World) (count : nat)
    (rts : list ShapeRuntime) (g : rng) : option LoopState :=
  run_loop fuel w count
    {| frame := O; last := start_time w; runtime := rts; rgen := g |}.

End Loop.

(* ================================================================== *)
(** ** Blocks of [int] *)

(** [calloc(n, sizeof(int))] and the read [block[i]]. *)
Definition calloc (n : Z) : list Z := malloc n 0.
Definition peek (i : Z) (l : list Z) : Z := nth (Z.to_nat i) l 0.

(* ================================================================== *)
(** ** GL helpers *)

(** [draw_wire]: the vertices handed to [glVertex3f] between [glBegin] and
    [glEnd], in order, and whether a read has left [lines] or [verts]. *)
Definition draw_wire (g : WireGeom) : list vec3 * bool :=
  for_range 0 (lcount g)
    (fun i '(out, bad) =>
       let a := peek (i * 2 + 0) (lines g) in
       let b := peek (i * 2 + 1) (lines g) in
       let va := nth (Z.to_nat a) (verts g) (v3 f0 f0 f0) in
       let vb := nth (Z.to_nat b) (verts g) (v3 f0 f0 f0) in
       (out ++ [va; vb],
        bad || negb (in_block (i * 2 + 0) (lines g))
        || negb (in_block (i * 2 + 1) (lines g))
        || negb (in_block a (verts g)) || negb (in_block b (verts g))))
    ([], false).

(* ================================================================== *)
(** ** Main: the monitors in use and their windows *)

Module Windows.

(** Lines 420-424: the block [need] of [monCount] flags and the counter
    [unique]. *)
Record Needed := {
  need : list Z;
  unique : Z;
  need_fault : bool
}.

(** [int idx = list.items[i].screen; if(idx<0) idx=0;
    if(idx>=monCount) idx=monCount-1; if(!need[idx]){ need[idx]=1; unique++; }] *)
Definition need_step (monCount : Z) (s : Needed) (sc : ShapeConfig) : Needed :=
  let idx := clamp_monitor monCount (cfg_screen sc) in
  if peek idx (need s) =? 0 then
    {| need := poke idx 1 (need s); unique := unique s + 1;
       need_fault := need_fault s || negb (in_block idx (need s)) |}
  else
    {| need := need s; unique := unique s;
       need_fault := need_fault s || negb (in_block idx (need s)) |}.

Definition need_loop (monCount : Z) (items : list ShapeConfig) : Needed :=
  fold_left (need_step monCount) items
    {| need := calloc monCount; unique := 0; need_fault := false |}.

(** [if(unique==0){ need[0]=1; unique=1; }] *)
Definition needed (monCount : Z) (items : list ShapeConfig) : Needed :=
  let s := need_loop monCount items in
  if unique s =? 0 then
    {| need := poke 0 1 (need s); unique := 1;
       need_fault := need_fault s || negb (in_block 0 (need s)) |}
  else s.

(** Lines 426-444: [scr.arr], a block of [unique] windows, each shown by its
    [monIndex], and the cursor [wi]. *)
Record Created := {
  arr : list Z;
  wi : Z;
  arr_fault : bool
}.

(** The body of the loop over the monitors; [creates m] tells whether
    [glfwCreateWindow] gives a window for monitor [m]. *)
Definition window_step (creates : Z -> bool) (need : list Z) (m : Z)
    (s : Created) : Created :=
  if peek m need =? 0 then
    {| arr := arr s; wi := wi s;
       arr_fault := arr_fault s || negb (in_block m need) |}
  else if creates m then
    {| arr := poke (wi s) m (arr s); wi := wi s + 1;
       arr_fault := arr_fault s || negb (in_block m need)
                    || negb (in_block (wi s) (arr s)) |}
  else
    {| arr := arr s; wi := wi s;
       arr_fault := arr_fault s || negb (in_block m need) |}.

Definition create_windows (creates : Z -> bool) (monCount : Z) (s : Needed)
    : Created :=
  for_range 0 monCount (window_step creates (need s))
    {| arr := calloc (unique s); wi := 0; arr_fault := false |}.

(** The windows [main] hands to [app_loop], by monitor index; [None] where
    [main] returns 1 instead (no monitor, or no window). *)
Definition main_windows (creates : Z -> bool) (monCount : Z)
    (items : list ShapeConfig) : option (list Z) :=
  if monCount <=? 0 then None
  else
    let s := create_windows creates monCount (needed monCount items) in
    let scr_count := wi s in
    if scr_count =? 0 then None
    else Some (firstn (Z.to_nat scr_count) (arr s)).

End Windows.

(* ================================================================== *)
(** ** Main, up to the render loop *)

(** How [main] gets to line 484 (with [glfwInit] succeeding): it returns 1
    before, or indexes [quadrantCount] beyond its 16 rows (undefined), or
    calls [app_loop] with these windows, shown by their monitor index, and
    these records. *)
Inductive Startup :=
| Return1
| OutOfTable
| EnterLoop (windows : list Z) (rts : list ShapeRuntime) (g : rng).

Definition main_start (lc : Libc) (creates : Z -> bool) (monCount : Z)
    (file : option string) (g : rng) : Startup :=
  let list := load_ini file in
  match Windows.main_windows creates monCount list with
  | None => Return1
  | Some ws =>
      match main_runtime lc monCount list g with
      | Some (rts, g') => EnterLoop ws rts g'
      | None => OutOfTable
      end
  end.

(* ================================================================== *)
(** ** The shapes of each window *)

(** Lines 577-584 of [app_loop]: the four blocks, and whether an access has
    left its block or a remainder was taken by zero. *)
Module Mapping.

Record Arrays := {
  start : list Z;
  count : list Z;
  placed : list Z;
  mapIdx : list Z;
  fault : bool
}.

(** [count[i%totalWindows]++] *)
Definition count_step (totalWindows i : Z) (a : Arrays) : Arrays :=
  let w := Z.rem i totalWindows in
  {| start := start a;
     count := poke w (peek w (count a) + 1) (count a);
     placed := placed a;
     mapIdx := mapIdx a;
     fault := fault a || (totalWindows =? 0) || negb (in_block w (count a)) |}.

(** [start[i]=start[i-1]+count[i-1]] *)
Definition start_step (i : Z) (a : Arrays) : Arrays :=
  {| start := poke i (peek (i - 1) (start a) + peek (i - 1) (count a)) (start a);
     count := count a;
     placed := placed a;
     mapIdx := mapIdx a;
     fault := fault a || negb (in_block i (start a))
              || negb (in_block (i - 1) (start a))
              || negb (in_block (i - 1) (count a)) |}.

(** [int w=i%totalWindows; mapIdx[start[w]+placed[w]++]=i;] *)
Definition place_step (totalWindows i : Z) (a : Arrays) : Arrays :=
  let w := Z.rem i totalWindows in
  let slot := peek w (start a) + peek w (placed a) in
  {| start := start a;
     count := count a;
     placed := poke w (peek w (placed a) + 1) (placed a);
     mapIdx := poke slot i (mapIdx a);
     fault := fault a || (totalWindows =? 0) || negb (in_block w (start a))
              || negb (in_block w (placed a))
              || negb (in_block slot (mapIdx a)) |}.

(** The blocks when the render loop starts; [junk] is what [malloc] left in
    [mapIdx]. *)
Definition assign (scr_count runtimeCount junk : Z) : Arrays :=
  let monCount := scr_count in
  let totalWindows := scr_count in
  let a := {| start := calloc monCount; count := calloc monCount;
              placed := []; mapIdx := []; fault := false |} in
  let a := for_range 0 runtimeCount (count_step totalWindows) a in
  let a := for_range 1 monCount start_step a in
  let a := {| start := start a; count := count a;
              placed := calloc monCount; mapIdx := malloc runtimeCount junk;
              fault := fault a |} in
  for_range 0 runtimeCount (place_step totalWindows) a.

(** Lines 606-609: the indices window [w] hands to [draw_shape], in order,
    and whether a read left its block or an index left [runtime]. *)
Definition draw_window (runtimeCount : Z) (a : Arrays) (w : Z) : list Z * bool :=
  for_range 0 (peek w (count a))
    (fun i '(out, bad) =>
       let slot := peek w (start a) + i in
       let idx := peek slot (mapIdx a) in
       (out ++ [idx],
        bad || negb (in_block slot (mapIdx a))
        || negb ((0 <=? idx) && (idx <? runtimeCount))))
    ([], negb (in_block w (count a)) || negb (in_block w (start a))).

End Mapping.

(* ================================================================== *)
(** ** Concrete inputs *)

Definition no_geom : WireGeom := {| verts := []; lines := []; vcount := 0; lcount := 0 |}.

(** A RANDOM-coloured cube in the middle of a reorientation: progress 0.9 of
    a 2 s transition, hue 0, hue speed 0.25 Hz. *)
Definition sample_shape : ShapeRuntime := {|
  shape := SH_CUBE; color := COL_RANDOM; hue := f0; hueSpeed := lit 25 100;
  orient := q_ident; target := q_ident;
  spinY := f180; spinX := of_int 15;
  reorientTimer := of_int 4; reorientDur := f2; reorientT := lit 9 10;
  worldPos := v3 f0 f0 f0; geom := no_geom |}.

Definition sample_mem : Mem := {| obj := sample_shape; gen := O; writes := [] |}.

(** A green cube at rest between two reorientations: orientation and target
    the identity, progress 0, 8 s on the timer, the spin rates at the upper
    end of their ranges. *)
Definition rested_shape : ShapeRuntime := {|
  shape := SH_CUBE; color := COL_GREEN; hue := f0; hueSpeed := lit 25 100;
  orient := q_ident; target := q_ident;
  spinY := of_int 360; spinX := of_int 45;
  reorientTimer := of_int 8; reorientDur := f2; reorientT := f0;
  worldPos := v3 f0 f0 f0; geom := no_geom |}.

(** The same cube when its timer has run out: a reorientation is due. *)
Definition due_shape : ShapeRuntime := {|
  shape := SH_CUBE; color := COL_GREEN; hue := f0; hueSpeed := lit 25 100;
  orient := q_ident; target := q_ident;
  spinY := of_int 360; spinX := of_int 45;
  reorientTimer := f0; reorientDur := f2; reorientT := f0;
  worldPos := v3 f0 f0 f0; geom := no_geom |}.

(** A tick of 77 microseconds, and 34000 of them: 2.6 s. *)
Definition dt_77us : f32 := lit 77 1000000.
Definition ticks_34000 : nat := Z.to_nat 34000.

(** Half the yaw and half the pitch of the rested cube in such a tick,
    and its orientation after the 34000 ticks. *)
Definition half_yaw : f32 := S754_finite false 16623423 (-36).
Definition half_pitch : f32 := S754_finite false 16623423 (-39).
Definition rested_dq : quat :=
  mkquat (S754_finite false 16623423 (-39)) (S754_finite false 16623423 (-36))
         (S754_finite true 16471040 (-51)) (S754_finite false 8388608 (-23)).
Definition drifted : quat :=
  mkquat (S754_finite false 15114566 (-27)) (S754_finite false 15114566 (-24))
         (S754_finite true 14976027 (-39)) (S754_finite true 14145713 (-25)).

(** The [double] 1.0. *)
Definition d1 : f64 := S754_finite false 4503599627370496 (-52).

(* ================================================================== *)
(** ** Statements *)

(** *** Draw colour *)

(** The colour of a RANDOM shape as a function of the stored hue alone. *)
Definition color_from_hue_alone : Prop :=
  forall (s : ShapeRuntime) (t : f64),
    color s = COL_RANDOM -> color_for s t = hsv2rgb (hue s) f1 f1.

(** *** Assignments of one update *)

Definition write_count (f : Field) (m : Mem) : nat :=
  List.length (filter (Field_eqb f) (writes m)).

(** The fields other than [geom], [shape] and [color]. *)
Definition animated (f : Field) : bool :=
  match f with
  | F_geom | F_shape | F_color => false
  | _ => true
  end.

Definition each_written_once (m : Mem) : Prop :=
  forall f, animated f = true -> write_count f m = 1%nat.

(** The fields [update_shape] has no assignment to. *)
Definition untouched (f : Field) : bool :=
  match f with
  | F_hueSpeed | F_spinY | F_spinX | F_reorientDur | F_worldPos
  | F_shape | F_color | F_geom => true
  | _ => false
  end.

(** [update_shape] called on the record [s] with the generator at [g]. *)
Definition call (s : ShapeRuntime) (g : rng) : Mem :=
  {| obj := s; gen := g; writes := [] |}.

(** *** The tick that completes a reorientation *)

(** The reorientation block is entered and the advanced progress reaches 1. *)
Definition completes (dt : f32) (s : ShapeRuntime) : bool :=
  (((reorientTimer s - dt <=? f0) || (reorientT s >? f0))
   && (reorientT s + dt / reorientDur s >=? f1))%f32.

(** The reorientation block is entered: the timer, decreased by [dt], has
    run out, or a reorientation is in progress. *)
Definition reorienting (dt : f32) (s : ShapeRuntime) : bool :=
  ((reorientTimer s - dt <=? f0) || (reorientT s >? f0))%f32.

(** The block is entered with the progress at 0: a reorientation starts. *)
Definition starts (dt : f32) (s : ShapeRuntime) : bool :=
  (reorienting dt s && (reorientT s ==? f0))%f32.

(** [v] is [frand_range(lo, hi)] for one of the calls of [rand()] made while
    the generator went from [g] to [g']. *)
Definition redrawn (lc : Libc) (lo hi : f32) (g g' : rng) (v : f32) : Prop :=
  exists k, (g <= k < g')%nat /\ v = fst (frand_range lc lo hi k).

(** The target of the tick: sampled anew when the reorientation starts in
    this tick, the stored one otherwise; with the generator after it. *)
Definition tick_target (lc : Libc) (m : Mem) : quat * rng :=
  if (reorientT (obj m) ==? f0)%f32
  then random_euler lc (- lit 3 2)%f32 (lit 3 2) (gen m)
  else (target (obj m), gen m).

(** The completing tick as the specification words it: timer and duration
    are both drawn anew. *)
Definition completion_redraws_timer_and_duration (lc : Libc) (dt : f32) (m : Mem) : Prop :=
  completes dt (obj m) = true ->
  let m' := update_shape lc dt m in
  orient (obj m') = q_mul (spin_delta lc (obj m) f1 dt) (target (obj m'))
  /\ reorientT (obj m') = f0
  /\ redrawn lc (of_int 4) (of_int 8) (gen m) (gen m') (reorientTimer (obj m'))
  /\ redrawn lc (lit 3 2) (lit 5 2) (gen m) (gen m') (reorientDur (obj m')).

(** 1/60 s and 0.5 s. *)
Definition dt_60 : f32 := lit 1 60.
Definition dt_half : f32 := lit 1 2.

(** *** Slerp of a quaternion with itself *)

Definition quat_finite (q : quat) : bool :=
  is_finite (qx q) && is_finite (qy q) && is_finite (qz q) && is_finite (qw q).

Definition quat_valid (q : quat) : bool :=
  valid32 (qx q) && valid32 (qy q) && valid32 (qz q) && valid32 (qw q).

(** A unit quaternion of binary32: finite, left as it is by the program's
    own normalisation, with a computed squared norm above the threshold
    0.9995 of [q_slerp]. *)
Definition unit_quat (q : quat) : Prop :=
  quat_finite q = true /\ q_norm q = q /\ (q_dot q q >? f0_9995)%f32 = true.

(** [0 <= t && t <= 1] *)
Definition in_unit_interval (t : f32) : bool := ((f0 <=? t) && (t <=? f1))%f32.

(** Equal floats, or two zeros (whose signs may differ): what [==] of C
    cannot tell apart among finite values. *)
Definition same_float (x y : f32) : Prop :=
  x = y \/ exists s s', x = S754_zero s /\ y = S754_zero s'.

Definition same_quat (r q : quat) : Prop :=
  same_float (qx r) (qx q) /\ same_float (qy r) (qy q)
  /\ same_float (qz r) (qz q) /\ same_float (qw r) (qw q).

(** The quaternion (0.6, 0, 0.8, 0) and the interpolation factor 0.3. *)
Definition q_345 : quat := mkquat (lit 6 10) f0 (lit 8 10) f0.
Definition t_03 : f32 := lit 3 10.

(** *** The norm over the ticks *)

(** The number a finite float stands for. *)
Definition exact (x : f32) : QArith_base.Q :=
  match x with
  | S754_finite s m e =>
      QArith_base.Qmult (QArith_base.inject_Z (cond_Zopp s (Zpos m)))
                        (QArith_base.Qpower (QArith_base.Qmake 2 1) e)
  | _ => QArith_base.Qmake 0 1
  end.

Definition Qsq (x : QArith_base.Q) : QArith_base.Q := QArith_base.Qmult x x.

(** The square of the Euclidean norm, in exact arithmetic. *)
Definition norm_sq (q : quat) : QArith_base.Q :=
  QArith_base.Qplus
    (QArith_base.Qplus
       (QArith_base.Qplus (Qsq (exact (qx q))) (Qsq (exact (qy q))))
       (Qsq (exact (qz q))))
    (Qsq (exact (qw q))).

(** The norm is within 1e-3 of 1: its square lies between 0.999^2 and
    1.001^2. *)
Definition norm_within (q : quat) : bool :=
  quat_finite q
  && QArith_base.Qle_bool (QArith_base.Qmake 998001 1000000) (norm_sq q)
  && QArith_base.Qle_bool (norm_sq q) (QArith_base.Qmake 1002001 1000000).

Definition exactly_unit (q : quat) : Prop :=
  quat_finite q = true
  /\ QArith_base.Qeq (norm_sq q) (QArith_base.Qmake 1 1).

Definition nonneg_dt (dt : f32) : Prop :=
  is_finite dt = true /\ (f0 <=? dt)%f32 = true.

(** One tick of [update_shape] on the record, with the generator. *)
Definition tick (lc : Libc) (dt : f32) (sg : ShapeRuntime * rng)
  : ShapeRuntime * rng :=
  let m := update_shape lc dt (call (fst sg) (snd sg)) in (obj m, gen m).

(** The ticks of a sequence of frames. *)
Fixpoint run (lc : Libc) (dts : list f32) (sg : ShapeRuntime * rng)
  : ShapeRuntime * rng :=
  match dts with
  | [] => sg
  | dt :: rest => run lc rest (tick lc dt sg)
  end.

(** From unit quaternions, the norms of orientation and target stay within
    1e-3 of 1 over any sequence of ticks. *)
Definition norms_stay_unit (lc : Libc) : Prop :=
  forall (s : ShapeRuntime) (g : rng) (dts : list f32),
    exactly_unit (orient s) -> exactly_unit (target s) ->
    Forall nonneg_dt dts ->
    norm_within (orient (fst (run lc dts (s, g)))) = true
    /\ norm_within (target (fst (run lc dts (s, g)))) = true.

(** [n] ticks of [dt] outside a reorientation: the timer runs down and the
    orientation is multiplied by the spin [dq] of the tick; [None] when the
    timer runs out or a component overflows. *)
Fixpoint idle (n : nat) (dt : f32) (dq : quat) (t : f32) (q : quat)
  : option (f32 * quat) :=
  match n with
  | O => Some (t, q)
  | S n' =>
      let t' := (t - dt)%f32 in
      let q' := q_mul dq q in
      if (t' <=? f0)%f32 || negb (quat_finite q') then None
      else idle n' dt dq t' q'
  end.

(** A library that is exact on the two half angles: the sine of so small
    an angle is the angle and its cosine is 1, to the last bit. *)
Definition small_angles (lc : Libc) : Prop :=
  sinf lc half_yaw = half_yaw /\ cosf lc half_yaw = f1
  /\ sinf lc half_pitch = half_pitch /\ cosf lc half_pitch = f1.

(** *** Geometry *)

(** The checks on a generated mesh: at least one edge, [lines] holds
    [2 * lcount] indices, each of them below [vcount], and [verts] holds
    [vcount] vertices. *)
Definition edges_ok (g : WireGeom) : bool :=
  (0 <? lcount g)
  && (Z.of_nat (List.length (lines g)) =? 2 * lcount g)
  && (Z.of_nat (List.length (verts g)) =? vcount g)
  && forallb (fun a => (0 <=? a) && (a <? vcount g)) (lines g).

(** A generator state whose stores all stayed inside their blocks and whose
    mesh passes the checks. *)
Definition fill_ok (st : GenState) : bool :=
  negb (overrun st) && edges_ok (finish st).

(** *** Configuration lines *)

(** The first character of [s] after white space and an optional sign is not
    a decimal digit (or there is none): [s] is no number for [atoi]. *)
Definition not_numeric (s : string) : bool :=
  match skip_space s with
  | String c s' =>
      if Ascii.eqb c (chr 45) || Ascii.eqb c (chr 43) then
        match s' with
        | String d _ => negb (is_digit d)
        | EmptyString => true
        end
      else negb (is_digit c)
  | EmptyString => true
  end.

Definition nl : string := String LF EmptyString.

(** Text that is empty or ends in a line feed. *)
Definition complete_lines (s : string) : Prop :=
  s = EmptyString \/ exists s0, s = (s0 ++ nl)%string.

(** The lines of a text: cut after each line feed, whatever their length. *)
Fixpoint lines_from (cur : string) (f : string) : list string :=
  match f with
  | EmptyString =>
      match cur with EmptyString => [] | _ => [cur] end
  | String c f' =>
      let cur' := (cur ++ String c EmptyString)%string in
      if Ascii.eqb c LF then cur' :: lines_from EmptyString f'
      else lines_from cur' f'
  end.

Definition text_lines (f : string) : list string := lines_from EmptyString f.

(** Every line of [f] fits the buffer of [fgets]: with [room] characters
    left for the line in progress, no line takes more than 510 characters
    before its line feed. *)
Fixpoint fits (room : nat) (f : string) : bool :=
  match f with
  | EmptyString => true
  | String c f' =>
      if Ascii.eqb c LF then fits 511 f'
      else match room with
           | S (S r) => fits (S r) f'
           | _ => false
           end
  end.

Fixpoint repeat_char (n : nat) (c : ascii) : string :=
  match n with
  | O => EmptyString
  | S n' => String c (repeat_char n' c)
  end.

(** A file of a comment, a blank line and five malformed lines, and one
    with a good line after a malformed one. *)
Definition ini_all_skipped : string :=
  ("# ornaments" ++ nl ++ nl ++ "BAD=[RED]" ++ nl ++ "CUBE RED" ++ nl
   ++ "CUBE=RED, CENTER, 0" ++ nl ++ "BALL=[RED, CENTER, 0]" ++ nl
   ++ "CUBE=[RED,,0]" ++ nl)%string.
Definition ini_bad_then_good : string :=
  ("BAD=[RED]" ++ nl ++ "CUBE=[RED, CENTER, 0]" ++ nl)%string.

(** A file of one line, with four fields between the brackets. *)
Definition ini_four_fields : string :=
  ("SPHERE=[BLUE, TOP-LEFT, 1, 9]" ++ nl)%string.

(** A file of one line, a comment: [#], 510 times [x], and then the text of
    a record. *)
Definition ini_long_comment : string :=
  ("#" ++ repeat_char 510 (chr 120) ++ "CUBE=[RED, CENTER, 0]" ++ nl)%string.
Definition line_abc : string := "CUBE=[RED, CENTER, abc]"%string.

(** *** Placement *)

Inductive Column := Left | Middle | Right.
Inductive Row := Top | Centre | Bottom.

Definition column (a : Anchor) : Column :=
  match a with
  | POS_TL | POS_CL | POS_BL => Left
  | POS_TC | POS_C | POS_BC => Middle
  | POS_TR | POS_CR | POS_BR => Right
  end.

Definition row (a : Anchor) : Row :=
  match a with
  | POS_TL | POS_TC | POS_TR => Top
  | POS_CL | POS_C | POS_CR => Centre
  | POS_BL | POS_BC | POS_BR => Bottom
  end.

(** Two records land in the same cell of [quadrantCount]: same monitor after
    clamping, same anchor. *)
Definition same_cell (monCount : Z) (a b : ShapeConfig) : bool :=
  (clamp_monitor monCount (cfg_screen a) =? clamp_monitor monCount (cfg_screen b))
  && (int_of_Anchor (cfg_pos a) =? int_of_Anchor (cfg_pos b)).

(** How many of the first [i] records share the cell of [sc]: the N of the
    Nth shape on an anchor of a monitor. *)
Definition rank (monCount : Z) (items : list ShapeConfig) (i : nat)
    (sc : ShapeConfig) : Z :=
  Z.of_nat (List.length (filter (same_cell monCount sc) (firstn i items))).

(** The anchor position after the margin pull, and the overlap offset
    [0.05f * N]. *)
Definition margin_pos (a : Anchor) : vec3 :=
  anchor_margin (anchor_to_ndc a) (lit 12 100).
Definition overlap_off (n : Z) : f32 := (lit 5 100 * of_int n)%f32.

(** The direction in which the margin pull moved a coordinate from [c] to
    [b]: 1 up, -1 down, 0 not at all. *)
Definition pull_dir (c b : f32) : Z :=
  if (c <? b)%f32 then 1 else if (b <? c)%f32 then -1 else 0.

(** The direction of an offset [d]. *)
Definition offset_dir (d : f32) : Z :=
  if (f0 <? d)%f32 then 1 else if (d <? f0)%f32 then -1 else 0.

(** [d] is an offset of magnitude [off] that, when it is not zero, points
    the way [dir]. *)
Definition offset_toward (off d : f32) (dir : Z) : Prop :=
  (d = off \/ d = (- off)%f32) /\ ((f0 <? off)%f32 = true -> offset_dir d = dir).

(** The placement as the specification words it: on each axis the margin
    position plus an offset of magnitude [0.05 * N] directed as the margin
    pull on that axis. *)
Definition placed_as_margin_pull (a : Anchor) (n : Z) (p : vec3) : Prop :=
  let anc := anchor_to_ndc a in
  let base := margin_pos a in
  exists dx dy,
    p = v3 (vx base + dx) (vy base + dy) (vz base)
    /\ offset_toward (overlap_off n) dx (pull_dir (vx anc) (vx base))
    /\ offset_toward (overlap_off n) dy (pull_dir (vy anc) (vy base)).

Definition overlap_claim (lc : Libc) (monCount : Z) (items : list ShapeConfig)
    (g : rng) : Prop :=
  forall rts g' i sc R,
    main_runtime lc monCount items g = Some (rts, g') ->
    nth_error items i = Some sc -> nth_error rts i = Some R ->
    placed_as_margin_pull (cfg_pos sc) (rank monCount items i sc) (worldPos R).

(** What the code adds on each axis. *)
Definition x_offset (a : Anchor) (off : f32) : f32 :=
  match column a with Left => off | Middle | Right => (- off)%f32 end.
Definition y_offset (a : Anchor) (off : f32) : f32 :=
  match row a with Bottom => off | Centre | Top => (- off)%f32 end.

(** Two cubes on the centre anchor of the one monitor. *)
Definition centre_cube : ShapeConfig :=
  {| cfg_shape := SH_CUBE; cfg_color := COL_GREEN; cfg_pos := POS_C; cfg_screen := 0 |}.
Definition two_centre_cubes : list ShapeConfig := [centre_cube; centre_cube].

(** Two cubes on the bottom-right anchor. *)
Definition br_cube : ShapeConfig :=
  {| cfg_shape := SH_CUBE; cfg_color := COL_RED; cfg_pos := POS_BR; cfg_screen := 0 |}.
Definition two_br_cubes : list ShapeConfig := [br_cube; br_cube].

(** Record [i] of [rts] stands at the margin position of its anchor plus the
    offsets of the code for its rank. *)
Definition placed (monCount : Z) (items : list ShapeConfig)
    (rts : list ShapeRuntime) : Prop :=
  forall i sc, nth_error items i = Some sc ->
    exists R, nth_error rts i = Some R
      /\ worldPos R =
           let a := cfg_pos sc in
           let off := overlap_off (rank monCount items i sc) in
           v3 (vx (margin_pos a) + x_offset a off)
              (vy (margin_pos a) + y_offset a off)
              (vz (margin_pos a)).

(** *** The render loop *)

(** A world of two windows: the first is asked to close during frame 0, the
    second during frame 2; the clock advances by 1/64 s per frame. *)
Definition two_windows : World := {|
  should_close := fun k i =>
    match i with
    | O => (1 <=? k)%nat
    | _ => (3 <=? k)%nat
    end;
  time_at := fun k => binary_normalize prec64 emax64 (Z.of_nat k + 1) (-6) false;
  start_time := S754_zero false
|}.


(* ================================================================== *)
(** ** Statements about the parser's helpers *)

(** A string with its letters in upper case. *)
Fixpoint upper_string (s : string) : string :=
  match s with
  | EmptyString => EmptyString
  | String c s' => String (upper c) (upper_string s')
  end.

(** No two names of a table match each other. *)
Fixpoint distinct_names (names : list string) : bool :=
  match names with
  | [] => true
  | n :: rest => forallb (fun n' => negb (ieq n n')) rest && distinct_names rest
  end.

Definition first_char (s : string) : option ascii :=
  match s with
  | EmptyString => None
  | String c _ => Some c
  end.

(** [s] is made of the delimiter only. *)
Fixpoint all_delim (d : ascii) (s : string) : bool :=
  match s with
  | EmptyString => true
  | String c s' => Ascii.eqb c d && all_delim d s'
  end.

(** [d] occurs in [s]. *)
Fixpoint has_char (d : ascii) (s : string) : bool :=
  match s with
  | EmptyString => false
  | String c s' => Ascii.eqb c d || has_char d s'
  end.

Fixpoint all_space (s : string) : bool :=
  match s with
  | EmptyString => true
  | String c s' => isspace c && all_space s'
  end.

(** [s] does not start with a decimal digit. *)
Definition no_digit_ahead (s : string) : bool :=
  match s with
  | EmptyString => true
  | String c _ => negb (is_digit c)
  end.

(** The decimal numeral of an integer, with a minus sign when negative. *)
Definition numeral (n : Z) : string :=
  DecimalString.NilEmpty.string_of_int (Z.to_int n).


(** ** Statements about colours, margins and the runtime records *)

(** One of the three channels of [c] is [x]. *)
Definition has_channel (c : vec3) (x : f32) : Prop :=
  vx c = x \/ vy c = x \/ vz c = x.

(** The x and y coordinates [anchor_margin] gives an anchor, by column and
    row. *)
Definition margin_x (a : Anchor) (m : f32) : f32 :=
  match column a with
  | Left => let x := (fm1 + m)%f32 in if (x >? f0)%f32 then (x - m)%f32 else x
  | Middle => f0
  | Right => (f1 - m)%f32
  end.
Definition margin_y (a : Anchor) (m : f32) : f32 :=
  match row a with
  | Top => let y := (f1 - m)%f32 in if (y <? f0)%f32 then (y + m)%f32 else y
  | Centre => f0
  | Bottom => (fm1 + m)%f32
  end.

(** What [update_shape] never assigns: two records agree on these fields. *)
Definition same_fixed_fields (a b : ShapeRuntime) : Prop :=
  shape a = shape b /\ color a = color b /\ geom a = geom b
  /\ worldPos a = worldPos b /\ hueSpeed a = hueSpeed b
  /\ spinY a = spinY b /\ spinX a = spinX b /\ reorientDur a = reorientDur b.

(** The records [main] starts from: those of [new_runtime]. *)
Definition fresh_record (lc : Libc) (sc : ShapeConfig) (R : ShapeRuntime) : Prop :=
  shape R = cfg_shape sc /\ color R = cfg_color sc
  /\ geom R = geom_of lc (cfg_shape sc)
  /\ orient R = q_ident /\ reorientT R = f0.

(** ** Statements about the windows *)

(** How many of the indices [0 .. k-1] satisfy [p]. *)
Definition how_many (p : Z -> bool) (k : nat) : Z :=
  Z.of_nat (List.length (filter p (map Z.of_nat (seq 0 k)))).

(** The indices below [k] that leave the remainder [w] on division by [T], in
    increasing order. *)
Definition residue_class (T : Z) (k : nat) (w : Z) : list Z :=
  filter (fun i => i mod T =? w) (map Z.of_nat (seq 0 k)).

(** Monitor [m] is the clamped screen of one of the records (of monitor 0
    when there is no record). *)
Definition wanted (monCount : Z) (items : list ShapeConfig) (m : Z) : bool :=
  match items with
  | [] => m =? 0
  | _ => existsb (fun sc => clamp_monitor monCount (cfg_screen sc) =? m) items
  end.

(** Records for the screens 7, -2 and 7 of the file, and a window system
    that fails to create the window of the first monitor. *)
Definition on_screen (n : Z) : ShapeConfig :=
  {| cfg_shape := SH_CUBE; cfg_color := COL_GREEN; cfg_pos := POS_C;
     cfg_screen := n |}.
Definition three_records : list ShapeConfig :=
  [on_screen 7; on_screen (-2); on_screen 7].
Definition all_but_first (m : Z) : bool := negb (m =? 0).
Definition all_created (m : Z) : bool := true.

(** ** Well-formed lines *)

(** A character that is no terminator, no white space and none of the marks
    of the line format. *)
Definition plain_char (c : ascii) : bool :=
  negb (Ascii.eqb c NUL || is_trail_ws c || Ascii.eqb c EQUALS
        || Ascii.eqb c LBRACKET || Ascii.eqb c RBRACKET || Ascii.eqb c COMMA
        || Ascii.eqb c DQUOTE || Ascii.eqb c HASH).

Fixpoint all_plain (s : string) : bool :=
  match s with
  | EmptyString => true
  | String c s' => plain_char c && all_plain s'
  end.

(** A non-empty word of such characters. *)
Definition plain (s : string) : bool :=
  match s with
  | EmptyString => false
  | _ => all_plain s
  end.

(** A line in the format the parser expects:
    [SHAPE=[COLOR, POSITION, SCREEN]]. *)
Definition field_list (a b c : string) : string :=
  (a ++ ", " ++ b ++ ", " ++ c)%string.
Definition format_line (lhs a b c : string) : string :=
  (lhs ++ "=[" ++ field_list a b c ++ "]")%string.

(** A field between the brackets that the parser can cut out: not empty,
    and without terminator, comma and closing bracket. *)
Definition raw_field (x : string) : bool :=
  match x with
  | EmptyString => false
  | _ => negb (has_char NUL x || has_char COMMA x || has_char RBRACKET x)
  end.

(** A field in double quotes, or as it is. *)
Definition quote (x : string) : string :=
  String DQUOTE (x ++ String DQUOTE EmptyString).
Definition maybe_quote (q : bool) (x : string) : string :=
  if q then quote x else x.

(** ** Malformed lines *)

(** [s] is made of spaces and tabs. *)
Fixpoint blanks (s : string) : bool :=
  match s with
  | EmptyString => true
  | String c s' => (Ascii.eqb c SPACE || Ascii.eqb c TAB) && blanks s'
  end.

(** A blank line: white space only. *)
Definition blank (l : string) : Prop := all_space l = true.

(** A comment: a line that starts with [#], after spaces and tabs if any. *)
Definition comment (l : string) : Prop :=
  exists ws r, l = (ws ++ String HASH r)%string /\ blanks ws = true.

(** The pieces of [s] between its commas: one more than it has commas. *)
Fixpoint comma_pieces (s : string) : list string :=
  match s with
  | EmptyString => [EmptyString]
  | String c s' =>
      if Ascii.eqb c COMMA then EmptyString :: comma_pieces s'
      else match comma_pieces s' with
           | p :: ps => String c p :: ps
           | [] => [String c EmptyString]
           end
  end.

Definition nonempty (s : string) : bool :=
  match s with EmptyString => false | _ => true end.

(** The fields: the pieces that are not empty. *)
Definition fields (s : string) : list string := filter nonempty (comma_pieces s).

(** A token as a field holds it: surrounding white space is trimmed, and
    the token may be wrapped in double quotes. *)
Definition token (x : string) : string := unquote (trim x).

(** [x] is one of the names, whatever the case of its letters. *)
Definition known (names : list string) (x : string) : bool :=
  existsb (ieq x) names.

(** A line with an equals sign and, after it, an opening bracket and a
    closing one: [lhs=mid[inside]tail], where [=] is the first of the line,
    [[] the first after it, and []] the first after that. *)
Definition record_line (lhs mid inside tail : string) : string :=
  (lhs ++ String EQUALS (mid ++ String LBRACKET
                                   (inside ++ String RBRACKET tail)))%string.

(** Exactly three comma-separated fields. *)
Definition exactly_three (inside : string) : bool :=
  (List.length (comma_pieces inside) =? 3)%nat.

(** At least three fields that are not empty. *)
Definition three_or_more (inside : string) : bool :=
  (3 <=? List.length (fields inside))%nat.

(** A malformed line: it misses the [=], or a bracket, or the number of
    fields between its brackets, as [enough] counts them, or one of its
    tokens is unrecognized: the shape before the [=], or the colour or the
    position, the first two fields. *)
Inductive malformed (enough : string -> bool) : string -> Prop :=
| no_equals : forall l, has_char EQUALS l = false -> malformed enough l
| no_brackets : forall l,
    has_char LBRACKET l = false \/ has_char RBRACKET l = false ->
    malformed enough l
| wrong_fields : forall lhs mid inside tail,
    has_char EQUALS lhs = false -> has_char LBRACKET mid = false ->
    has_char RBRACKET inside = false ->
    enough inside = false ->
    malformed enough (record_line lhs mid inside tail)
| unknown_token : forall lhs mid inside tail a b rest,
    has_char EQUALS lhs = false -> has_char LBRACKET mid = false ->
    has_char RBRACKET inside = false ->
    fields inside = a :: b :: rest ->
    known SHAPE_NAMES (token lhs) = false
    \/ known COLOR_NAMES (token a) = false
    \/ known POS_NAMES (token b) = false ->
    malformed enough (record_line lhs mid inside tail).

(** Blank, a comment, or malformed. *)
Definition skippable (enough : string -> bool) (l : string) : Prop :=
  blank l \/ comment l \/ malformed enough l.

(** The default configuration for every file whose lines are all blank, a
    comment, or malformed, with exactly three fields wanted. *)
Definition default_when_all_lines_malformed : Prop :=
  forall f, Forall (skippable exactly_three) (text_lines f) ->
            load_ini (Some f) = [default_config].

(** [s] is made of the white space [trim] skips in front. *)
Fixpoint all_lead (s : string) : bool :=
  match s with
  | EmptyString => true
  | String c s' => is_lead_ws c && all_lead s'
  end.

(** The three calls of [strtok]. *)
Definition first3 (s : string) : option (string * string * string) :=
  match strtok COMMA s with
  | None => None
  | Some (a, rest) =>
      match strtok COMMA rest with
      | None => None
      | Some (b, rest) =>
          match strtok COMMA rest with
          | None => None
          | Some (c, _) => Some (a, b, c)
          end
      end
  end.

(** A name of the tables: a plain word of less than 63 characters. *)
Definition short_plain (n : string) : bool :=
  plain n && (String.length n <? 63)%nat.

(** ** Reading back what was read *)

(** The pieces of a file put together again. *)
Definition joined (ls : list string) : string :=
  fold_right append EmptyString ls.

(** What [fgets] can deliver into the 512-byte buffer: a piece that is not
    empty, has at most 511 bytes, and holds a line feed at its end only. *)
Definition fgets_piece (l : string) : Prop :=
  l <> EmptyString /\ (String.length l <= 511)%nat
  /\ has_char LF (drop_last l) = false.

(** ** The generators of the sphere and the torus *)

(** The locals of a generator after [v] vertices and [e] edge indices went
    to blocks of [capV] vertices and [capE] indices: the cursors count them,
    a store has left its block exactly if one of the counts exceeds its
    block, and if none has, every index written is that of a vertex written
    before. *)
Definition gen_state (capV capE v e : Z) (st : GenState) : Prop :=
  Z.of_nat (List.length (gv st)) = capV
  /\ Z.of_nat (List.length (ge st)) = capE
  /\ vi st = v /\ ei st = e
  /\ overrun st = ((capV <? v) || (capE <? e))
  /\ (overrun st = false ->
      forall p, 0 <= p < e -> 0 <= peek p (ge st) < v).

(** [maxv] of [make_sphere]. *)
Definition sphere_maxv (lat lon : Z) : Z :=
  (lat + 1) * (lon + 1) + (lat + lon) * 64.

(** The grid of [make_torus] after [k] vertices, row by row, with rows of
    [m] vertices: the table holds the index of each of them. *)
Definition grid_state (capV capE m k : Z) (sti : GenState * IdxTable) : Prop :=
  gen_state capV capE k 0 (fst sti)
  /\ forall i j, 0 <= i -> 0 <= j < m -> i * m + j < k ->
       snd sti i j = i * m + j.

(* ================================================================== *)
(** * Properties *)

Arguments fadd : simpl never.
Arguments fsub : simpl never.
Arguments fmul : simpl never.
Arguments fdiv : simpl never.
Arguments fneg : simpl never.
Arguments fmodf : simpl never.
Arguments flt : simpl never.
Arguments fle : simpl never.
Arguments fgt : simpl never.
Arguments fge : simpl never.
Arguments feq : simpl never.
Arguments of_int : simpl never.
Arguments lit : simpl never.
Arguments q_dot : simpl never.
Arguments q_mul : simpl never.
Arguments q_slerp : simpl never.
Arguments q_from_euler : simpl never.
Arguments spin_delta : simpl never.
Arguments frand_range : simpl never.
Arguments random_euler : simpl never.

(** ** Draw colour (C3) *)

Lemma color_for_sample_at_1 :
  color_for sample_shape d1 = v3 f0_5 f1 f0.
Proof. vm_compute. reflexivity. Qed.

Lemma hsv_of_sample_hue :
  hsv2rgb (hue sample_shape) f1 f1 = v3 f1 f0 f0.
Proof. vm_compute. reflexivity. Qed.

(** C3, counterexample: one second after the clock's origin the sample shape
    (stored hue 0, hue speed 0.25) is drawn in (0.5, 1, 0), whereas the
    conversion of its stored hue is (1, 0, 0). *)
Lemma color_for_depends_on_time : ~ color_from_hue_alone.
Proof.
  intros H.
  specialize (H sample_shape d1 eq_refl).
  rewrite color_for_sample_at_1, hsv_of_sample_hue in H.
  discriminate H.
Qed.

(** C3, amended: the colour of a RANDOM shape is the HSV conversion, with
    saturation 1 and value 1, of [fmodf(hue + (float)t * hueSpeed, 1)] where
    [t] is the wall-clock time of the frame; every other colour kind is
    looked up in the palette. *)
Theorem color_for_random :
  forall (s : ShapeRuntime) (t : f64),
    (color s = COL_RANDOM ->
     color_for s t =
       hsv2rgb (fmodf (hue s + f32_of_f64 t * hueSpeed s)%f32 f1) f1 f1)
    /\ (color s <> COL_RANDOM -> color_for s t = neon_palette (color s)).
Proof.
  intros s t. unfold color_for. split.
  - intros ->. reflexivity.
  - intros Hc. destruct (color s); try reflexivity. contradiction.
Qed.

Lemma color_for_random_witness :
  color_for sample_shape d1 =
    hsv2rgb (fmodf (hue sample_shape + f32_of_f64 d1 * hueSpeed sample_shape)%f32 f1) f1 f1.
Proof. exact (proj1 (color_for_random sample_shape d1) eq_refl). Defined.

(** ** One update of a record (C1, C2) *)

Lemma frand_range_gen :
  forall lc a b g, snd (frand_range lc a b g) = S g.
Proof. intros. reflexivity. Qed.

Lemma random_euler_gen :
  forall lc a b g, snd (random_euler lc a b g) = S (S (S g)).
Proof. intros. reflexivity. Qed.

Lemma write_count_app :
  forall f m g ws ws',
    write_count f {| obj := m; gen := g; writes := ws ++ ws' |} =
    (write_count f {| obj := m; gen := g; writes := ws |}
     + List.length (filter (Field_eqb f) ws'))%nat.
Proof.
  intros. unfold write_count. simpl.
  rewrite filter_app, length_app. reflexivity.
Qed.

(** The trace of one call, by the path taken through the reorientation
    block. *)
Lemma update_shape_trace :
  forall lc dt s g,
    let ws := writes (update_shape lc dt (call s g)) in
    ws = [F_hue; F_reorientTimer; F_orient]
    \/ ws = [F_hue; F_reorientTimer; F_reorientT; F_orient; F_orient]
    \/ ws = [F_hue; F_reorientTimer; F_target; F_reorientT; F_orient; F_orient]
    \/ ws = [F_hue; F_reorientTimer; F_reorientT; F_orient; F_reorientT;
             F_reorientTimer; F_orient]
    \/ ws = [F_hue; F_reorientTimer; F_target; F_reorientT; F_orient;
             F_reorientT; F_reorientTimer; F_orient].
Proof.
  intros lc dt s g. unfold update_shape, reorient_step, call, store, with_gen.
  cbn [obj gen writes app].
  destruct (_ || _)%bool.
  - destruct (feq _ f0).
    + destruct (random_euler _ _ _ _) as [q g1]. cbn [obj gen writes app].
      destruct (fge _ f1).
      * destruct (frand_range _ _ _ _) as [v g2]. cbn. auto 10.
      * cbn. auto 10.
    + cbn [obj gen writes app]. destruct (fge _ f1).
      * destruct (frand_range _ _ _ _) as [v g2]. cbn. auto 10.
      * cbn. auto 10.
  - cbn. auto.
Qed.

(** The fields [update_shape] never assigns keep their value. *)
Lemma update_shape_frame :
  forall lc dt m,
    let s' := obj (update_shape lc dt m) in
    hueSpeed s' = hueSpeed (obj m) /\ spinY s' = spinY (obj m)
    /\ spinX s' = spinX (obj m) /\ reorientDur s' = reorientDur (obj m)
    /\ worldPos s' = worldPos (obj m) /\ geom s' = geom (obj m)
    /\ shape s' = shape (obj m) /\ color s' = color (obj m).
Proof.
  intros lc dt m. unfold update_shape, reorient_step, store, with_gen.
  cbn [obj gen writes].
  destruct (_ || _)%bool.
  - destruct (feq _ f0).
    + destruct (random_euler _ _ _ _) as [q g1]. cbn [obj gen writes].
      destruct (fge _ f1).
      * destruct (frand_range _ _ _ _) as [v g2]. cbn. tauto.
      * cbn. tauto.
    + cbn [obj gen writes]. destruct (fge _ f1).
      * destruct (frand_range _ _ _ _) as [v g2]. cbn. tauto.
      * cbn. tauto.
  - cbn. tauto.
Qed.

(** C2, counterexample: in a tick of 1/60 s on the sample shape (a
    reorientation in progress) [hueSpeed] is not assigned at all. *)
Lemma hueSpeed_not_written :
  ~ each_written_once (update_shape sample_libc dt_60 sample_mem).
Proof.
  intros H.
  specialize (H F_hueSpeed eq_refl).
  vm_compute in H.
  discriminate H.
Qed.

(** The assignments of one call, in program order. *)
Lemma update_shape_writes_in_order :
  forall lc dt s g,
    writes (update_shape lc dt (call s g)) =
    [F_hue; F_reorientTimer]
    ++ (if starts dt s then [F_target] else [])
    ++ (if reorienting dt s then
          F_reorientT :: F_orient
          :: (if completes dt s then [F_reorientT; F_reorientTimer] else [])
        else [])
    ++ [F_orient].
Proof.
  intros lc dt s g.
  unfold update_shape, reorient_step, call, store, with_gen.
  unfold starts, completes, reorienting.
  cbn [obj gen writes app reorientTimer reorientT reorientDur set_hue
       set_reorientTimer].
  destruct (_ || _)%bool; cbn [andb]; [| reflexivity].
  destruct (feq _ f0).
  - destruct (random_euler _ _ _ _) as [q g1].
    cbn [obj gen writes app reorientTimer reorientT reorientDur set_target].
    destruct (fge _ f1).
    + destruct (frand_range _ _ _ _) as [v g2]. reflexivity.
    + reflexivity.
  - cbn [obj gen writes app]. destruct (fge _ f1).
    + destruct (frand_range _ _ _ _) as [v g2]. reflexivity.
    + reflexivity.
Qed.

(** C2, amended: one call of [update_shape] assigns [hue] exactly once;
    [orient] twice in a tick inside a reorientation and once in any other;
    [reorientTimer] twice in the tick that completes a reorientation and
    once in any other; [target] once in the tick that starts a reorientation
    and in no other; [reorientT] twice in the completing tick, once in any
    other tick inside a reorientation and not at all outside; it never
    assigns [hueSpeed], [spinY], [spinX], [reorientDur], [worldPos],
    [shape], [color] or [geom], which keep their values. *)
Theorem update_shape_writes :
  forall (lc : Libc) (dt : f32) (s : ShapeRuntime) (g : rng),
    let m' := update_shape lc dt (call s g) in
    write_count F_hue m' = 1%nat
    /\ write_count F_orient m' = (if reorienting dt s then 2 else 1)%nat
    /\ write_count F_reorientTimer m' = (if completes dt s then 2 else 1)%nat
    /\ write_count F_target m' = (if starts dt s then 1 else 0)%nat
    /\ write_count F_reorientT m'
       = (if completes dt s then 2 else if reorienting dt s then 1 else 0)%nat
    /\ (forall f, untouched f = true -> write_count f m' = 0%nat)
    /\ hueSpeed (obj m') = hueSpeed s /\ spinY (obj m') = spinY s
    /\ spinX (obj m') = spinX s /\ reorientDur (obj m') = reorientDur s
    /\ worldPos (obj m') = worldPos s /\ geom (obj m') = geom s
    /\ shape (obj m') = shape s /\ color (obj m') = color s.
Proof.
  intros lc dt s g m'.
  pose proof (update_shape_frame lc dt (call s g)) as Hf.
  cbv zeta in Hf. fold m' in Hf. cbn [call obj] in Hf.
  pose proof (update_shape_writes_in_order lc dt s g) as Hw. fold m' in Hw.
  unfold write_count. rewrite Hw.
  assert (Hcr : completes dt s = true -> reorienting dt s = true).
  { unfold completes, reorienting. intros H. apply andb_true_iff in H. tauto. }
  assert (Hsr : starts dt s = true -> reorienting dt s = true).
  { unfold starts. intros H. apply andb_true_iff in H. tauto. }
  repeat apply conj; try tauto;
    try (intros f Hu);
    destruct (starts dt s); destruct (reorienting dt s);
    destruct (completes dt s);
    try (discriminate (Hcr eq_refl)); try (discriminate (Hsr eq_refl));
    try (destruct f; try discriminate Hu);
    reflexivity.
Qed.

(** The four kinds of tick on the sample shape and a rested one: outside a
    reorientation, starting one, inside one, and completing one. *)
Lemma update_shape_writes_by_tick :
  writes (update_shape sample_libc dt_60 (call rested_shape 0%nat))
  = [F_hue; F_reorientTimer; F_orient]
  /\ writes (update_shape sample_libc dt_60 (call due_shape 0%nat))
     = [F_hue; F_reorientTimer; F_target; F_reorientT; F_orient; F_orient]
  /\ writes (update_shape sample_libc dt_60 sample_mem)
     = [F_hue; F_reorientTimer; F_reorientT; F_orient; F_orient]
  /\ writes (update_shape sample_libc dt_half sample_mem)
     = [F_hue; F_reorientTimer; F_reorientT; F_orient; F_reorientT;
        F_reorientTimer; F_orient].
Proof. repeat apply conj; vm_compute; reflexivity. Qed.

(** The state after a tick that completes a reorientation. *)
Lemma update_shape_completes :
  forall lc dt m,
    completes dt (obj m) = true ->
    let m' := update_shape lc dt m in
    let tg := tick_target lc m in
    target (obj m') = fst tg
    /\ orient (obj m') = q_mul (spin_delta lc (obj m) f1 dt) (fst tg)
    /\ reorientT (obj m') = f0
    /\ reorientTimer (obj m') = fst (frand_range lc (of_int 4) (of_int 8) (snd tg))
    /\ gen m' = S (snd tg)
    /\ reorientDur (obj m') = reorientDur (obj m).
Proof.
  intros lc dt m Hc. unfold completes in Hc.
  apply andb_true_iff in Hc. destruct Hc as [Hin Hge].
  unfold update_shape, reorient_step, tick_target, store, with_gen.
  cbn. rewrite Hin.
  destruct (feq (reorientT (obj m)) f0).
  - destruct (random_euler lc _ _ (gen m)) as [q g1].
    cbn. rewrite Hge.
    pose proof (frand_range_gen lc (of_int 4) (of_int 8) g1) as Hg.
    destruct (frand_range lc (of_int 4) (of_int 8) g1) as [v g2].
    cbn in Hg |- *. subst g2. repeat split.
  - cbn. rewrite Hge.
    pose proof (frand_range_gen lc (of_int 4) (of_int 8) (gen m)) as Hg.
    destruct (frand_range lc (of_int 4) (of_int 8) (gen m)) as [v g2].
    cbn in Hg |- *. subst g2. repeat split.
Qed.

Lemma sample_completes : completes dt_half sample_shape = true.
Proof. vm_compute. reflexivity. Qed.

Lemma sample_duration_kept :
  reorientDur (obj (update_shape sample_libc dt_half sample_mem)) = f2
  /\ gen (update_shape sample_libc dt_half sample_mem) = 1%nat.
Proof. vm_compute. split; reflexivity. Qed.

Lemma sample_first_draw :
  fst (frand_range sample_libc (lit 3 2) (lit 5 2) 0%nat) <> f2.
Proof. vm_compute. discriminate. Qed.

(** C1, counterexample: a tick of 0.5 s completes the reorientation of the
    sample shape (progress 0.9, duration 2 s); [rand()] is called once, for
    the timer, and the duration is still 2 s, which is not what
    [frand_range(1.5f, 2.5f)] makes of that call. *)
Lemma duration_not_redrawn :
  ~ completion_redraws_timer_and_duration sample_libc dt_half sample_mem.
Proof.
  intros H. specialize (H sample_completes). cbv zeta in H.
  destruct H as (_ & _ & _ & k & Hk & Hv).
  destruct sample_duration_kept as [Hd Hg].
  rewrite Hd in Hv. rewrite Hg in Hk. cbn [gen sample_mem] in Hk.
  assert (k = 0%nat) by lia. subst k.
  exact (sample_first_draw (eq_sym Hv)).
Qed.

(** C1, amended: on the tick in which the advanced [reorientT] reaches 1,
    [update_shape] snaps [orient] to the target (and then applies the spin of
    the tick at full rate), resets [reorientT] to 0 and draws
    [reorientTimer] anew with [frand_range(4, 8)]; [reorientDur] keeps its
    value. *)
Theorem update_shape_completion :
  forall (lc : Libc) (dt : f32) (m : Mem),
    completes dt (obj m) = true ->
    let m' := update_shape lc dt m in
    orient (obj m') = q_mul (spin_delta lc (obj m) f1 dt) (target (obj m'))
    /\ reorientT (obj m') = f0
    /\ redrawn lc (of_int 4) (of_int 8) (gen m) (gen m') (reorientTimer (obj m'))
    /\ reorientDur (obj m') = reorientDur (obj m).
Proof.
  intros lc dt m Hc m'.
  destruct (update_shape_completes lc dt m Hc)
    as (Htg & Hor & Ht & Htimer & Hgen & Hdur).
  fold m' in Htg, Hor, Ht, Htimer, Hgen, Hdur.
  repeat split; auto.
  - rewrite Htg. exact Hor.
  - exists (snd (tick_target lc m)). split; [| exact Htimer].
    rewrite Hgen. split; [| lia].
    unfold tick_target. destruct (feq _ _).
    + rewrite random_euler_gen. lia.
    + cbn. lia.
Qed.

Lemma update_shape_completion_witness :
  let m' := update_shape sample_libc dt_half sample_mem in
  orient (obj m') = q_mul (spin_delta sample_libc sample_shape f1 dt_half) (target (obj m'))
  /\ reorientT (obj m') = f0
  /\ redrawn sample_libc (of_int 4) (of_int 8) 0%nat (gen m') (reorientTimer (obj m'))
  /\ reorientDur (obj m') = f2.
Proof. exact (update_shape_completion sample_libc dt_half sample_mem sample_completes). Defined.

(** ** The norm of the orientation (C5) *)

Lemma spin_delta_ext :
  forall lc s s' c dt,
    spinY s' = spinY s -> spinX s' = spinX s ->
    spin_delta lc s' c dt = spin_delta lc s c dt.
Proof.
  intros lc s s' c dt HY HX. unfold spin_delta. rewrite HY, HX. reflexivity.
Qed.

(** A tick outside a reorientation. *)
Lemma tick_idle :
  forall lc dt s g,
    reorientT s = f0 ->
    ((reorientTimer s - dt)%f32 <=? f0)%f32 = false ->
    exists s',
      tick lc dt (s, g) = (s', g)
      /\ orient s' = q_mul (spin_delta lc s f1 dt) (orient s)
      /\ reorientTimer s' = (reorientTimer s - dt)%f32
      /\ reorientT s' = f0 /\ target s' = target s
      /\ spinY s' = spinY s /\ spinX s' = spinX s.
Proof.
  intros lc dt s g HT Ht.
  unfold tick, update_shape, reorient_step, call, store.
  cbn [fst snd obj gen writes reorientTimer reorientT set_hue set_reorientTimer].
  rewrite Ht, HT. change (fgt f0 f0) with false. cbn [orb].
  eexists. split; [reflexivity |].
  cbn. rewrite HT. repeat split; reflexivity.
Qed.

(** As long as the timer has not run out, the ticks are those of [idle]. *)
Lemma run_idle :
  forall lc dt dq n s g t' q',
    reorientT s = f0 ->
    spin_delta lc s f1 dt = dq ->
    idle n dt dq (reorientTimer s) (orient s) = Some (t', q') ->
    exists s',
      run lc (repeat dt n) (s, g) = (s', g)
      /\ orient s' = q' /\ reorientTimer s' = t' /\ target s' = target s.
Proof.
  intros lc dt dq. induction n as [| n IH]; intros s g t' q' HT Hdq H.
  - cbn [idle] in H. injection H as <- <-. exists s. repeat split; reflexivity.
  - cbn [idle] in H. cbv zeta in H.
    destruct (fle (fsub (reorientTimer s) dt) f0) eqn:Ht; [discriminate H |].
    cbn [orb] in H.
    destruct (quat_finite (q_mul dq (orient s))); [| discriminate H].
    cbn [negb] in H.
    destruct (tick_idle lc dt s g HT Ht)
      as (s1 & E1 & Ho & Hti & HT1 & Htg & HY & HX).
    rewrite Hdq in Ho. rewrite <- Ho, <- Hti in H.
    destruct (IH s1 g t' q' HT1
                (eq_trans (spin_delta_ext lc s s1 f1 dt HY HX) Hdq) H)
      as (s' & Er & Ho' & Ht' & Htg').
    exists s'. cbn [repeat run]. rewrite E1. repeat split; try assumption.
    rewrite Htg'. exact Htg.
Qed.

Lemma rested_spin :
  forall lc, small_angles lc ->
    spin_delta lc rested_shape f1 dt_77us = rested_dq.
Proof.
  intros lc (Hsy & Hcy & Hsx & Hcx).
  unfold spin_delta, q_from_axis_angle. cbv zeta.
  change (fmul (fdiv (fmul (fmul (fmul (spinY rested_shape) f1) dt_77us)
                        M_PI_f) f180) f0_5)
    with half_yaw.
  change (fmul (fdiv (fmul (fmul (fmul (spinX rested_shape) f1) dt_77us)
                        M_PI_f) f180) f0_5)
    with half_pitch.
  rewrite Hsy, Hcy, Hsx, Hcx. vm_compute. reflexivity.
Qed.

Lemma sample_small_angles : small_angles sample_libc.
Proof. repeat apply conj; vm_compute; reflexivity. Qed.

(** The 34000 ticks, one by one: the timer is at 5.39 s, and the squared
    norm of the orientation at 1.00202. *)
Lemma idle_34000 :
  idle ticks_34000 dt_77us rested_dq
       (reorientTimer rested_shape) (orient rested_shape)
  = Some (S754_finite false 11303216 (-21), drifted).
Proof. vm_compute. reflexivity. Qed.

Lemma drifted_norm :
  q_dot drifted drifted = S754_finite false 8405594 (-23)
  /\ norm_within drifted = false.
Proof. split; vm_compute; reflexivity. Qed.

Lemma q_ident_unit : exactly_unit q_ident.
Proof. split; vm_compute; reflexivity. Qed.

Lemma dt_77us_nonneg :
  forall n, Forall nonneg_dt (repeat dt_77us n).
Proof.
  intros n. apply Forall_forall. intros x Hx.
  apply repeat_spec in Hx. subst x. split; vm_compute; reflexivity.
Qed.

(** With any library that is exact on the two half angles, the rested cube
    leaves the bound in 2.6 s of ticks of 77 microseconds. *)
Lemma norm_drifts_with :
  forall lc, small_angles lc -> ~ norms_stay_unit lc.
Proof.
  intros lc Hlc H.
  specialize (H rested_shape 0%nat (repeat dt_77us ticks_34000)
                q_ident_unit q_ident_unit (dt_77us_nonneg ticks_34000)).
  destruct (run_idle lc dt_77us rested_dq ticks_34000 rested_shape 0%nat _ _
              eq_refl (rested_spin lc Hlc) idle_34000)
    as (s' & Er & Ho & _).
  rewrite Er in H. cbn [fst] in H. rewrite Ho in H.
  destruct H as [H _]. rewrite (proj2 drifted_norm) in H. discriminate H.
Qed.



(** ** Slerp of a quaternion with itself (C7) *)

Lemma same_float_refl : forall x, same_float x x.
Proof. intros x. left. reflexivity. Qed.

Lemma same_quat_refl : forall q, same_quat q q.
Proof. intros q. repeat split; apply same_float_refl. Qed.

(** [x - x] is +0 for every finite [x]. *)
Lemma fsub_diag :
  forall x, is_finite x = true -> fsub x x = S754_zero false.
Proof.
  intros [s | s | | s m e] Hx; try discriminate Hx.
  - destruct s; reflexivity.
  - unfold fsub, SFsub. rewrite Z.min_id.
    rewrite Z.sub_diag. reflexivity.
Qed.

(** A [t] with [0 <= t && t <= 1] is a zero or a positive finite number. *)
Lemma in_unit_interval_cases :
  forall t, in_unit_interval t = true ->
    (exists s, t = S754_zero s) \/ (exists m e, t = S754_finite false m e).
Proof.
  intros [s | s | | s m e] Ht.
  - left. eexists. reflexivity.
  - destruct s; discriminate Ht.
  - discriminate Ht.
  - destruct s; [discriminate Ht |]. right. eauto.
Qed.

(** [t * (+0)] is a zero when [t] is in the unit interval. *)
Lemma fmul_unit_zero :
  forall t, in_unit_interval t = true ->
    exists s, fmul t (S754_zero false) = S754_zero s.
Proof.
  intros t Ht.
  destruct (in_unit_interval_cases t Ht) as [[s ->] | (m & e & ->)];
    eexists; reflexivity.
Qed.

(** Adding a zero to a finite [x] gives [x], up to the sign of a zero. *)
Lemma fadd_zero_same :
  forall x s, is_finite x = true -> same_float (fadd x (S754_zero s)) x.
Proof.
  intros [sx | sx | | sx m e] s Hx; try discriminate Hx.
  - right. destruct sx, s; eexists; eexists; split; reflexivity.
  - left. reflexivity.
Qed.

(** The linear blend [x + t*(x - x)] of line 95. *)
Lemma lerp_self :
  forall x t, is_finite x = true -> in_unit_interval t = true ->
    same_float (fadd x (fmul t (fsub x x))) x.
Proof.
  intros x t Hx Ht.
  rewrite (fsub_diag x Hx).
  destruct (fmul_unit_zero t Ht) as [s ->].
  apply fadd_zero_same. exact Hx.
Qed.

(** Squares and products by a common factor do not see the sign of a zero. *)
Lemma same_float_square :
  forall x y, same_float x y -> fmul x x = fmul y y.
Proof.
  intros x y [-> | (s & s' & -> & ->)]; [reflexivity |].
  destruct s, s'; reflexivity.
Qed.

Lemma same_float_scale :
  forall x y k, same_float x y -> same_float (fmul x k) (fmul y k).
Proof.
  intros x y k [-> | (s & s' & -> & ->)]; [apply same_float_refl |].
  destruct k as [sk | sk | | sk mk ek].
  - right. eexists; eexists; split; reflexivity.
  - left. reflexivity.
  - left. reflexivity.
  - right. eexists; eexists; split; reflexivity.
Qed.

Lemma same_quat_norm2 :
  forall r q, same_quat r q -> q_dot r r = q_dot q q.
Proof.
  intros r q (Hx & Hy & Hz & Hw). unfold q_dot.
  rewrite (same_float_square _ _ Hx), (same_float_square _ _ Hy),
    (same_float_square _ _ Hz), (same_float_square _ _ Hw).
  reflexivity.
Qed.

Lemma q_norm_same :
  forall r q, same_quat r q -> same_quat (q_norm r) (q_norm q).
Proof.
  intros r q H.
  pose proof (same_quat_norm2 r q H) as Hn.
  unfold q_norm. rewrite Hn.
  destruct (flt _ f1eM8).
  - apply same_quat_refl.
  - destruct H as (Hx & Hy & Hz & Hw).
    repeat split; cbn [qx qy qz qw]; apply same_float_scale; assumption.
Qed.

Lemma same_float_trans :
  forall x y z, same_float x y -> same_float y z -> same_float x z.
Proof.
  intros x y z [-> | (s & s' & -> & ->)] [<- | (u & u' & Hu & ->)].
  - apply same_float_refl.
  - right. eauto.
  - right. eauto.
  - right. eauto.
Qed.

(** A computed squared norm above 0.9995 is not negative. *)
Lemma above_threshold_not_negative :
  forall d, fgt d f0_9995 = true -> flt d f0 = false.
Proof.
  intros [s | s | | s m e] H; try discriminate H.
  - destruct s; [discriminate H | reflexivity].
  - destruct s; [discriminate H | reflexivity].
Qed.

(** With equal arguments [q_slerp] takes the linear branch as soon as the
    computed squared norm of [q_norm(q)] is above the threshold. *)
Lemma q_slerp_self_linear :
  forall lc q t a,
    a = q_norm q ->
    fgt (q_dot a a) f0_9995 = true ->
    q_slerp lc q q t =
    q_norm (mkquat (qx a + t * (qx a - qx a)) (qy a + t * (qy a - qy a))
                   (qz a + t * (qz a - qz a)) (qw a + t * (qw a - qw a)))%f32.
Proof.
  intros lc q t a -> Hgt.
  pose proof (above_threshold_not_negative _ Hgt) as Hneg.
  unfold q_slerp. cbv zeta.
  rewrite Hneg, Hgt. reflexivity.
Qed.

(** Whatever [t] in the unit interval, [q_slerp(q, q, t)] is the
    normalisation of [q_norm(q)]: the linear branch blends nothing. *)
Lemma q_slerp_self_renormalises :
  forall lc q t,
    quat_finite (q_norm q) = true ->
    fgt (q_dot (q_norm q) (q_norm q)) f0_9995 = true ->
    in_unit_interval t = true ->
    same_quat (q_slerp lc q q t) (q_norm (q_norm q)).
Proof.
  intros lc q t Hfin Hgt Ht.
  rewrite (q_slerp_self_linear lc q t (q_norm q) eq_refl Hgt).
  apply q_norm_same.
  unfold quat_finite in Hfin.
  repeat (apply andb_true_iff in Hfin; destruct Hfin as [Hfin ?]).
  repeat split; cbn [qx qy qz qw]; apply lerp_self; assumption.
Qed.


Lemma q_345_unit : unit_quat q_345.
Proof. repeat split; vm_compute; reflexivity. Qed.


(** *** Quaternions of computed squared norm 1 are unit quaternions *)

Lemma digits2_pos_shift23 :
  forall m, Zpos (digits2_pos (Pos.mul 8388608 m)) = Zpos (digits2_pos m) + 23.
Proof.
  intros m. cbn [Pos.mul digits2_pos].
  rewrite !Pos2Z.inj_succ. lia.
Qed.

(** [x * 1.0f] is [x] for every binary32 number [x]: the product of the
    mantissas is shifted back by the 23 bits the mantissa of 1 adds, and
    nothing is rounded off. *)
Lemma fmul_one_r :
  forall x, valid32 x = true -> is_finite x = true -> fmul x f1 = x.
Proof.
  intros [s | s | | s m e] Hv Hx; try discriminate Hx.
  - destruct s; reflexivity.
  - unfold valid32, valid_binary, bounded, canonical_mantissa in Hv.
    apply andb_true_iff in Hv. destruct Hv as [Hc He].
    apply Z.eqb_eq in Hc.
    change f1 with (S754_finite false 8388608 (-23)).
    unfold fmul, SFmul, binary_round_aux.
    rewrite Pos.mul_comm.
    assert (Hs : shr_fexp prec32 emax32 (Zpos (8388608 * m)) (e + -23) loc_Exact
                 = ({| shr_m := Zpos m; shr_r := false; shr_s := false |}, e)).
    { unfold shr_fexp. unfold Zdigits2. rewrite digits2_pos_shift23.
      replace (Zpos (digits2_pos m) + 23 + (e + -23))
        with (Zpos (digits2_pos m) + e) by lia.
      rewrite Hc. replace (e - (e + -23)) with 23 by lia.
      unfold shr. f_equal. lia. }
    rewrite Hs. cbn [shr_m loc_of_shr_record round_nearest_even].
    unfold shr_fexp, Zdigits2. rewrite Hc, Z.sub_diag.
    cbn [shr shr_record_of_loc shr_m].
    rewrite He. destruct s; reflexivity.
Qed.

Lemma fadd_finite :
  forall x y, is_finite (fadd x y) = true ->
    is_finite x = true /\ is_finite y = true.
Proof.
  intros [sx | sx | | sx mx ex] [sy | sy | | sy my ey] H; split;
    try reflexivity; try (destruct sx, sy; discriminate H);
    try discriminate H.
Qed.

Lemma fmul_square_finite :
  forall x, is_finite (fmul x x) = true -> is_finite x = true.
Proof.
  intros [s | s | | s m e] H; try reflexivity; discriminate H.
Qed.

Lemma q_dot_finite :
  forall q, is_finite (q_dot q q) = true -> quat_finite q = true.
Proof.
  intros q H. unfold q_dot in H.
  apply fadd_finite in H. destruct H as [H Hw].
  apply fadd_finite in H. destruct H as [H Hz].
  apply fadd_finite in H. destruct H as [Hx Hy].
  unfold quat_finite.
  rewrite (fmul_square_finite _ Hx), (fmul_square_finite _ Hy),
    (fmul_square_finite _ Hz), (fmul_square_finite _ Hw).
  reflexivity.
Qed.

Lemma q_norm_of_exact_norm :
  forall q, quat_valid q = true -> q_dot q q = f1 -> q_norm q = q.
Proof.
  intros q Hv Hd.
  assert (Hf : quat_finite q = true) by (apply q_dot_finite; rewrite Hd; reflexivity).
  unfold q_norm. rewrite Hd.
  change (sqrtf f1) with f1.
  change (flt f1 f1eM8) with false. cbv iota zeta.
  change (fdiv f1 f1) with f1.
  unfold quat_valid in Hv. unfold quat_finite in Hf.
  repeat (apply andb_true_iff in Hv; destruct Hv as [Hv ?]).
  repeat (apply andb_true_iff in Hf; destruct Hf as [Hf ?]).
  rewrite !fmul_one_r by assumption.
  destruct q; reflexivity.
Qed.

(** A quaternion of binary32 numbers whose squared norm, as the program
    computes it, is exactly 1 is a unit quaternion. *)
Lemma exact_norm_unit :
  forall q, quat_valid q = true -> q_dot q q = f1 -> unit_quat q.
Proof.
  intros q Hv Hd. repeat split.
  - apply q_dot_finite. rewrite Hd. reflexivity.
  - apply q_norm_of_exact_norm; assumption.
  - rewrite Hd. reflexivity.
Qed.

(** ** Generated geometry (C4) *)

Lemma edges_ok_spec :
  forall g, edges_ok g = true ->
    0 < lcount g
    /\ Z.of_nat (List.length (lines g)) = 2 * lcount g
    /\ Z.of_nat (List.length (verts g)) = vcount g
    /\ forall a, In a (lines g) -> 0 <= a < vcount g.
Proof.
  intros g H. unfold edges_ok in H.
  repeat (apply andb_true_iff in H; destruct H as [H ?]).
  repeat split; try lia.
  - rewrite forallb_forall in H0. specialize (H0 a H3). lia.
  - rewrite forallb_forall in H0. specialize (H0 a H3). lia.
Qed.

(** [make_sphere(10, 16)]: 560 vertices and 544 edges are written, all
    inside the blocks of 1851 vertices and 7404 indices. *)
Lemma sphere_fill_ok : forall lc, fill_ok (sphere_fill lc 10 16) = true.
Proof. intros lc. vm_compute. reflexivity. Qed.

(** [make_torus(32, 12, 1.0f, 0.35f)]: 384 vertices and 768 edges, which
    fill the two blocks exactly. *)
Lemma torus_fill_ok :
  forall lc, fill_ok (torus_fill lc 32 12 f1 (lit 35 100)) = true.
Proof. intros lc. vm_compute. reflexivity. Qed.

Lemma make_torus_edges_ok :
  forall lc M m R r,
    edges_ok (finish (torus_fill lc M m R r)) = true ->
    edges_ok (make_torus lc M m R r) = true.
Proof.
  intros lc M m R r H. unfold make_torus, edges_ok in *.
  cbn [lcount lines verts vcount] in *. rewrite length_map. exact H.
Qed.

Lemma fill_ok_spec :
  forall st, fill_ok st = true ->
    overrun st = false /\ edges_ok (finish st) = true.
Proof.
  intros st H. unfold fill_ok in H.
  apply andb_true_iff in H. destruct H as [Ho He].
  apply negb_true_iff in Ho. split; assumption.
Qed.

Lemma make_sphere_finish :
  forall lc lat lon, make_sphere lc lat lon = finish (sphere_fill lc lat lon).
Proof. intros. reflexivity. Qed.

Lemma geom_of_edges_ok : forall lc k, edges_ok (geom_of lc k) = true.
Proof.
  intros lc k. destruct k; cbn [geom_of].
  - reflexivity.
  - rewrite make_sphere_finish.
    exact (proj2 (fill_ok_spec _ (sphere_fill_ok lc))).
  - reflexivity.
  - apply make_torus_edges_ok.
    exact (proj2 (fill_ok_spec _ (torus_fill_ok lc))).
  - reflexivity.
Qed.

(** At the parameters of [main] no store of [make_sphere] or [make_torus]
    leaves its block. *)
Lemma startup_geometry_in_bounds :
  forall lc,
    overrun (sphere_fill lc 10 16) = false
    /\ overrun (torus_fill lc 32 12 f1 (lit 35 100)) = false.
Proof.
  intros lc. split.
  - exact (proj1 (fill_ok_spec _ (sphere_fill_ok lc))).
  - exact (proj1 (fill_ok_spec _ (torus_fill_ok lc))).
Qed.

(** C4: for each of the five shape kinds, with the parameters [main] passes
    for the sphere and the torus, the generated mesh has at least one edge,
    [lines] holds the two endpoints of each of its [lcount] edges, and every
    endpoint is an index below [vcount], the number of vertices in [verts]. *)
Theorem geom_of_edges_in_range :
  forall (lc : Libc) (k : ShapeKind),
    let g := geom_of lc k in
    0 < lcount g
    /\ Z.of_nat (List.length (lines g)) = 2 * lcount g
    /\ Z.of_nat (List.length (verts g)) = vcount g
    /\ forall a, In a (lines g) -> 0 <= a < vcount g.
Proof.
  intros lc k g. apply edges_ok_spec. apply geom_of_edges_ok.
Qed.

(** ** Loading the configuration (C10) *)

Lemma collect_app :
  forall ls1 ls2, collect (ls1 ++ ls2) = collect ls1 ++ collect ls2.
Proof.
  induction ls1 as [| l ls1 IH]; intros ls2; cbn [collect app].
  - reflexivity.
  - rewrite IH. destruct (parse_line l); reflexivity.
Qed.

Lemma append_assoc :
  forall a b c : string, ((a ++ b) ++ c = a ++ (b ++ c))%string.
Proof.
  induction a as [| x a IH]; intros b c; cbn [append].
  - reflexivity.
  - rewrite IH. reflexivity.
Qed.

(** After text that ends in a line feed, [fgets] starts afresh: the lines
    of what follows do not depend on what came before. *)
Lemma fgets_from_app :
  forall a b room cur,
    fgets_from room cur ((a ++ nl) ++ b)
    = fgets_from room cur (a ++ nl) ++ fgets_lines b.
Proof.
  induction a as [| c a IH]; intros b room cur.
  - cbn [append nl fgets_from]. rewrite Ascii.eqb_refl. reflexivity.
  - cbn [append fgets_from]. destruct (Ascii.eqb c LF).
    + rewrite IH. reflexivity.
    + destruct room as [| [| room']]; rewrite IH; reflexivity.
Qed.

Lemma fgets_lines_app :
  forall a b,
    fgets_lines ((a ++ nl) ++ b) = fgets_lines (a ++ nl) ++ fgets_lines b.
Proof. intros a b. apply fgets_from_app. Qed.

(** A file that is empty or ends in a line feed. *)
Lemma fgets_lines_complete_app :
  forall a b, complete_lines a ->
    fgets_lines (a ++ b) = fgets_lines a ++ fgets_lines b.
Proof.
  intros a b [-> | [a0 ->]].
  - reflexivity.
  - apply fgets_lines_app.
Qed.

(** For a text whose lines fit the buffer, [fgets] delivers the lines of the
    text. *)
Lemma fgets_from_fits :
  forall f room cur,
    fits room f = true -> fgets_from room cur f = lines_from cur f.
Proof.
  induction f as [| c f IH]; intros room cur H; cbn [fgets_from lines_from].
  - reflexivity.
  - cbn [fits] in H. destruct (Ascii.eqb c LF).
    + rewrite (IH _ _ H). reflexivity.
    + destruct room as [| [| r]]; try discriminate H.
      apply IH. exact H.
Qed.

Lemma long_comment_loads_a_record :
  load_ini (Some ini_long_comment)
  = [{| cfg_shape := SH_CUBE; cfg_color := COL_RED; cfg_pos := POS_C;
        cfg_screen := 0 |}].
Proof. vm_compute. reflexivity. Qed.

Lemma digits_val_not_digit :
  forall c s acc, is_digit c = false -> digits_val (String c s) acc = acc.
Proof. intros c s acc H. cbn [digits_val]. rewrite H. reflexivity. Qed.

(** [atoi] of a field that is no number is 0. *)
Lemma decimal_value_not_numeric :
  forall s, not_numeric s = true -> decimal_value s = 0.
Proof.
  intros s H. unfold not_numeric in H. unfold decimal_value.
  destruct (skip_space s) as [| c s']; [reflexivity |].
  destruct (Ascii.eqb c (chr 45)) eqn:Hm.
  - cbn [orb] in H. destruct s' as [| d s'']; [reflexivity |].
    apply negb_true_iff in H. rewrite digits_val_not_digit by exact H.
    reflexivity.
  - destruct (Ascii.eqb c (chr 43)) eqn:Hp.
    + cbn [orb] in H. destruct s' as [| d s'']; [reflexivity |].
      apply negb_true_iff in H. rewrite digits_val_not_digit by exact H.
      reflexivity.
    + cbn [orb] in H. apply negb_true_iff in H.
      rewrite digits_val_not_digit by exact H. reflexivity.
Qed.

Lemma atoi_not_numeric :
  forall s, not_numeric s = true -> atoi s = 0.
Proof.
  intros s H. unfold atoi, strtol.
  rewrite (decimal_value_not_numeric s H). reflexivity.
Qed.

(** C10: a line that [split_line] cuts into a left-hand side and three
    fields, with a known shape, colour and position, is turned into a record
    even when the screen field is no number; the screen index is then 0. *)
Theorem non_numeric_screen_is_zero :
  forall (l lhs a b c : string),
    split_line l = S_fields lhs a b c ->
    0 <= parse_shape lhs -> 0 <= parse_color a -> 0 <= parse_pos b ->
    not_numeric c = true ->
    parse_line l =
      L_record {| cfg_shape := ShapeKind_of_int (parse_shape lhs);
                  cfg_color := ColorKind_of_int (parse_color a);
                  cfg_pos := Anchor_of_int (parse_pos b);
                  cfg_screen := 0 |}.
Proof.
  intros l lhs a b c Hs Hsh Hco Hpo Hc.
  unfold parse_line. rewrite Hs. cbv zeta.
  apply Z.ltb_ge in Hsh, Hco, Hpo. rewrite Hsh, Hco, Hpo. cbn [orb].
  rewrite (atoi_not_numeric c Hc). reflexivity.
Qed.

Lemma split_line_abc :
  split_line line_abc = S_fields "CUBE" "RED" "CENTER" "abc".
Proof. vm_compute. reflexivity. Qed.

Lemma non_numeric_screen_witness :
  parse_line line_abc =
    L_record {| cfg_shape := SH_CUBE; cfg_color := COL_RED; cfg_pos := POS_C;
                cfg_screen := 0 |}.
Proof.
  exact (non_numeric_screen_is_zero line_abc "CUBE" "RED" "CENTER" "abc"
           split_line_abc
           ltac:(vm_compute; discriminate) ltac:(vm_compute; discriminate)
           ltac:(vm_compute; discriminate) eq_refl).
Defined.

(** ** Placement (C6) *)

Lemma new_runtime_worldPos :
  forall lc sc pos g, worldPos (fst (new_runtime lc sc pos g)) = pos.
Proof.
  intros lc sc pos g. unfold new_runtime.
  destruct (frand01 lc g) as [h g1].
  destruct (frand_range lc _ _ g1) as [hs g2].
  destruct (random_euler lc _ _ g2) as [tg g3].
  destruct (frand_range lc _ _ g3) as [sy g4].
  destruct (frand_range lc _ _ g4) as [sx g5].
  destruct (frand_range lc _ _ g5) as [tm g6].
  destruct (frand_range lc _ _ g6) as [du g7].
  reflexivity.
Qed.

Lemma clamp_monitor_range :
  forall monCount screen, 0 < monCount ->
    0 <= clamp_monitor monCount screen < monCount.
Proof.
  intros monCount screen H. unfold clamp_monitor.
  destruct (screen <? 0) eqn:H0.
  - destruct (monCount <=? 0) eqn:H1; lia.
  - destruct (monCount <=? screen) eqn:H1; lia.
Qed.

(** With at most 16 monitors the loop never leaves the table. *)
Lemma build_runtime_total :
  forall lc monCount items qc g,
    0 < monCount <= 16 ->
    exists rts g', build_runtime lc monCount items qc g = Some (rts, g').
Proof.
  intros lc monCount items. induction items as [| sc rest IH]; intros qc g H.
  - cbn. eauto.
  - cbn [build_runtime].
    pose proof (clamp_monitor_range monCount (cfg_screen sc) (proj1 H)) as Hm.
    destruct (_ || _)%bool eqn:Hb.
    + apply orb_true_iff in Hb. lia.
    + destruct (new_runtime lc sc _ g) as [R g1].
      destruct (IH (quad_incr (clamp_monitor monCount (cfg_screen sc))
                      (int_of_Anchor (cfg_pos sc)) qc) g1 H) as (rs & g' & ->).
      eauto.
Qed.

(** The loop places record [i] with the value its cell of the table had at
    the start plus the number of earlier records in the same cell. *)
Lemma build_runtime_place :
  forall lc monCount items qc g rts g',
    build_runtime lc monCount items qc g = Some (rts, g') ->
    forall i sc, nth_error items i = Some sc ->
      exists R, nth_error rts i = Some R
        /\ worldPos R =
             place (cfg_pos sc)
               (qc (clamp_monitor monCount (cfg_screen sc))
                   (int_of_Anchor (cfg_pos sc))
                + rank monCount items i sc).
Proof.
  intros lc monCount items.
  induction items as [| sc0 rest IH]; intros qc g rts g' Hb i sc Hi.
  - destruct i; discriminate Hi.
  - cbn [build_runtime] in Hb.
    destruct (_ || _)%bool; [discriminate Hb |].
    pose proof (new_runtime_worldPos lc sc0
                  (place (cfg_pos sc0)
                     (qc (clamp_monitor monCount (cfg_screen sc0))
                         (int_of_Anchor (cfg_pos sc0)))) g) as Hw.
    destruct (new_runtime lc sc0 _ g) as [R0 g1]. cbn [fst] in Hw.
    destruct (build_runtime lc monCount rest _ g1) as [[rs g2] |] eqn:Hr;
      [| discriminate Hb].
    injection Hb as <- <-.
    destruct i as [| i].
    + cbn in Hi. injection Hi as <-. exists R0. split; [reflexivity |].
      rewrite Hw. unfold rank. cbn. rewrite Z.add_0_r. reflexivity.
    + cbn [nth_error] in Hi |- *.
      destruct (IH _ _ _ _ Hr i sc Hi) as (R & HR & HwR).
      exists R. split; [exact HR |]. rewrite HwR. f_equal.
      unfold rank, quad_incr. cbn [firstn filter].
      unfold same_cell at 2.
      destruct (_ && _)%bool; cbn [List.length]; lia.
Qed.

(** The nine margin positions: the pull moves a left coordinate up, a right
    one down and leaves a middle one; likewise for the rows. *)
Lemma margin_pull_dir :
  forall a,
    pull_dir (vx (anchor_to_ndc a)) (vx (margin_pos a))
    = match column a with Left => 1 | Middle => 0 | Right => -1 end
    /\ pull_dir (vy (anchor_to_ndc a)) (vy (margin_pos a))
       = match row a with Bottom => 1 | Centre => 0 | Top => -1 end.
Proof. intros a. destruct a; split; vm_compute; reflexivity. Qed.

(** Lines 456-459 anchor by anchor. *)
Lemma place_offsets :
  forall a n,
    place a n =
    v3 (vx (margin_pos a) + x_offset a (overlap_off n))
       (vy (margin_pos a) + y_offset a (overlap_off n))
       (vz (margin_pos a)).
Proof. intros a n. destruct a; reflexivity. Qed.

Lemma centre_second_position :
  place POS_C 1 = v3 (- lit 5 100)%f32 (- lit 5 100)%f32 f0.
Proof. vm_compute. reflexivity. Qed.

Lemma centre_not_as_margin_pull :
  ~ placed_as_margin_pull POS_C 1 (place POS_C 1).
Proof.
  intros (dx & dy & Hp & (Hmag & Hdir) & _).
  rewrite centre_second_position in Hp.
  assert (Hoff : overlap_off 1 = lit 5 100) by (vm_compute; reflexivity).
  rewrite Hoff in Hmag, Hdir.
  destruct Hmag as [-> | ->].
  - vm_compute in Hp. discriminate Hp.
  - specialize (Hdir eq_refl). vm_compute in Hdir. discriminate Hdir.
Qed.

(** The direction of a positive offset and of its negation. *)
Lemma offset_dir_pos :
  forall off, flt f0 off = true ->
    offset_dir off = 1 /\ offset_dir (fneg off) = -1.
Proof.
  intros [s | s | | s m e] H; try discriminate H;
    destruct s; try discriminate H; split; reflexivity.
Qed.

(** At the four corner anchors the placement is as the specification words
    it: on both axes the offset points the way of the margin pull. *)
Lemma corner_as_margin_pull :
  forall a n,
    column a <> Middle -> row a <> Centre ->
    placed_as_margin_pull a n (place a n).
Proof.
  intros a n Hc Hr. unfold placed_as_margin_pull. cbv zeta.
  exists (x_offset a (overlap_off n)), (y_offset a (overlap_off n)).
  split; [apply place_offsets |].
  destruct (margin_pull_dir a) as [Hx Hy]. rewrite Hx, Hy.
  unfold offset_toward, x_offset, y_offset.
  destruct (column a); try contradiction; destruct (row a); try contradiction;
    repeat split; auto;
    intros Hpos; destruct (offset_dir_pos _ Hpos); assumption.
Qed.

(** C6, counterexample: the second of two cubes on the CENTER anchor of one
    monitor is placed at (-0.05, -0.05), although the margin pull leaves both
    coordinates of CENTER where they are. *)
Lemma centre_overlap_offset : ~ overlap_claim sample_libc 1 two_centre_cubes 0%nat.
Proof.
  intros H.
  destruct (build_runtime_total sample_libc 1 two_centre_cubes (fun _ _ => 0) 0%nat
              ltac:(lia)) as (rts & g' & Hb).
  destruct (build_runtime_place _ _ _ _ _ _ _ Hb 1%nat centre_cube eq_refl)
    as (R & HR & Hw).
  specialize (H rts g' 1%nat centre_cube R Hb eq_refl HR).
  rewrite Hw in H.
  change (0 + rank 1 two_centre_cubes 1 centre_cube) with 1 in H.
  change (rank 1 two_centre_cubes 1 centre_cube) with 1 in H.
  exact (centre_not_as_margin_pull H).
Qed.

(** C6, amended: with at most 16 monitors, the Nth shape (N from 0) on an
    anchor of a monitor (the screen index clamped to the monitors there are)
    stands at the margin position of the anchor plus an offset of
    [0.05f * N] on each axis: toward the interior, like the margin pull, on
    an axis where the anchor is at an edge (left: right, right: left, top:
    down, bottom: up), and in the negative direction (left, down) on an axis
    where the anchor is in the middle, which the margin pull leaves alone. *)
Theorem overlap_offsets :
  forall (lc : Libc) (monCount : Z) (items : list ShapeConfig) (g : rng),
    0 < monCount <= 16 ->
    (exists rts g', main_runtime lc monCount items g = Some (rts, g')
                    /\ placed monCount items rts)
    /\ (forall a,
          pull_dir (vx (anchor_to_ndc a)) (vx (margin_pos a))
          = match column a with Left => 1 | Middle => 0 | Right => -1 end
          /\ pull_dir (vy (anchor_to_ndc a)) (vy (margin_pos a))
             = match row a with Bottom => 1 | Centre => 0 | Top => -1 end).
Proof.
  intros lc monCount items g Hm. split; [| exact margin_pull_dir].
  destruct (build_runtime_total lc monCount items (fun _ _ => 0) g Hm)
    as (rts & g' & Hb).
  exists rts, g'. split; [exact Hb |].
  intros i sc Hi.
  destruct (build_runtime_place _ _ _ _ _ _ _ Hb i sc Hi) as (R & HR & Hw).
  exists R. split; [exact HR |].
  rewrite Hw, Z.add_0_l. apply place_offsets.
Qed.

Lemma one_monitor : 0 < 1 <= 16.
Proof. lia. Qed.

Lemma overlap_offsets_witness :
  exists rts g', main_runtime sample_libc 1 two_br_cubes 0%nat = Some (rts, g')
                 /\ placed 1 two_br_cubes rts.
Proof.
  exact (proj1 (overlap_offsets sample_libc 1 two_br_cubes 0%nat one_monitor)).
Defined.

(** The second shape on BOTTOM-RIGHT: 0.05 to the left and 0.05 up from the
    margin position (0.88, -0.88). *)
Lemma bottom_right_second_position :
  place POS_BR 1 =
    v3 (f1 - lit 12 100 + - lit 5 100)%f32
       (- f1 + lit 12 100 + lit 5 100)%f32 f0.
Proof. vm_compute. reflexivity. Qed.

(** ** The render loop (C9) *)

Lemma any_open_true :
  forall w count k,
    any_open w count k = true <->
    exists i, (i < count)%nat /\ should_close w k i = false.
Proof.
  intros w count k. unfold any_open. rewrite existsb_exists. split.
  - intros (i & Hin & Hi). apply in_seq in Hin.
    exists i. split; [lia | now apply negb_true_iff].
  - intros (i & Hlt & Hi). exists i. split.
    + apply in_seq. lia.
    + now apply negb_true_iff.
Qed.

Lemma any_open_false :
  forall w count k,
    any_open w count k = false <->
    forall i, (i < count)%nat -> should_close w k i = true.
Proof.
  intros w count k. split.
  - intros H i Hi. destruct (should_close w k i) eqn:Hc; [reflexivity |].
    assert (any_open w count k = true) by (apply any_open_true; eauto).
    congruence.
  - intros H. destruct (any_open w count k) eqn:Ho; [| reflexivity].
    apply any_open_true in Ho. destruct Ho as (i & Hi & Hc).
    rewrite (H i Hi) in Hc. discriminate Hc.
Qed.

(** The body either breaks, with every window closed, or moves on to the
    next frame, with some window open. *)
Lemma loop_body_cases :
  forall lc w count st,
    (loop_body lc w count st = None /\ any_open w count (frame st) = false)
    \/ (exists st', loop_body lc w count st = Some st'
                    /\ frame st' = S (frame st)
                    /\ any_open w count (frame st) = true).
Proof.
  intros lc w count st. unfold loop_body.
  destruct (any_open w count (frame st)); cbn [negb].
  - right. destruct (update_all lc _ _ _) as [rts g]. eauto.
  - left. split; reflexivity.
Qed.

(** Safety: the loop only ever leaves at a frame where every window is
    closed, having passed only frames where one was open. *)
Lemma run_loop_exit :
  forall lc w count fuel st st',
    run_loop lc fuel w count st = Some st' ->
    (frame st <= frame st')%nat
    /\ any_open w count (frame st') = false
    /\ forall k, (frame st <= k < frame st')%nat -> any_open w count k = true.
Proof.
  intros lc w count fuel.
  induction fuel as [| fuel IH]; intros st st' H; [discriminate H |].
  cbn [run_loop] in H.
  destruct (loop_body_cases lc w count st) as [[Hb Hc] | (st1 & Hb & Hf & Ho)];
    rewrite Hb in H.
  - injection H as <-. repeat split; [lia | exact Hc | intros k Hk; lia].
  - destruct (IH st1 st' H) as (Hle & Hc & Hprev).
    repeat split; [lia | exact Hc |].
    intros k Hk. destruct (Nat.eq_dec k (frame st)) as [-> | Hne].
    + exact Ho.
    + apply Hprev. lia.
Qed.

(** Termination: if every window is closed at frame [n], the loop has left
    by then. *)
Lemma run_loop_terminates :
  forall lc w count d st n,
    (n = frame st + d)%nat ->
    any_open w count n = false ->
    exists st', run_loop lc (S d) w count st = Some st'
                /\ (frame st' <= n)%nat.
Proof.
  intros lc w count d.
  induction d as [| d IH]; intros st n Hn Hc; cbn [run_loop].
  - destruct (loop_body_cases lc w count st) as [[Hb _] | (st1 & Hb & Hf & Ho)].
    + rewrite Hb. exists st. split; [reflexivity | lia].
    + replace n with (frame st) in Hc by lia. congruence.
  - destruct (loop_body_cases lc w count st) as [[Hb _] | (st1 & Hb & Hf & Ho)].
    + rewrite Hb. exists st. split; [reflexivity | lia].
    + rewrite Hb. apply (IH st1 n); [lia | exact Hc].
Qed.

(** C9: the render loop leaves only at the top of a frame at which every
    window's close flag is set, after frames at each of which some flag was
    clear; and once a frame comes at which every flag is set, the loop has
    left by that frame. *)
Theorem app_loop_exit :
  forall (lc : Libc) (w : World) (count : nat) (rts : list ShapeRuntime) (g : rng),
    (forall fuel st,
        app_loop lc fuel w count rts g = Some st ->
        (forall i, (i < count)%nat -> should_close w (frame st) i = true)
        /\ (forall k, (k < frame st)%nat ->
              exists i, (i < count)%nat /\ should_close w k i = false))
    /\ (forall n,
          (forall i, (i < count)%nat -> should_close w n i = true) ->
          exists st, app_loop lc (S n) w count rts g = Some st
                     /\ (frame st <= n)%nat).
Proof.
  intros lc w count rts g. unfold app_loop. split.
  - intros fuel st H.
    destruct (run_loop_exit _ _ _ _ _ _ H) as (_ & Hc & Hprev).
    cbn [frame] in Hprev. split.
    + apply any_open_false. exact Hc.
    + intros k Hk. apply any_open_true. apply Hprev. lia.
  - intros n Hn.
    apply (run_loop_terminates lc w count n _ n); [reflexivity |].
    apply any_open_false. exact Hn.
Qed.

Lemma two_windows_closed_at_3 :
  forall i, (i < 2)%nat -> should_close two_windows 3 i = true.
Proof. intros [| [| i]] Hi; [reflexivity | reflexivity | lia]. Qed.

Lemma app_loop_exit_witness :
  exists st, app_loop sample_libc 4 two_windows 2 [sample_shape] 0%nat = Some st
             /\ (frame st <= 3)%nat.
Proof.
  exact (proj2 (app_loop_exit sample_libc two_windows 2 [sample_shape] 0%nat)
           3%nat two_windows_closed_at_3).
Defined.

(** With two windows of which one is closed from frame 1 on, the loop keeps
    running; it leaves at frame 3, where the second is closed as well. *)
Lemma two_windows_run :
  option_map frame (app_loop sample_libc 10 two_windows 2 [sample_shape] 0%nat)
  = Some 3%nat.
Proof. vm_compute. reflexivity. Qed.

(* ================================================================== *)
(* ================================================================== *)
(** * Further properties of the code *)

(** ** Matching of names ([ieq], [parse_shape], [parse_color], [parse_pos]) *)

Lemma ieq_upper :
  forall a b, ieq a b = true <-> upper_string a = upper_string b.
Proof.
  induction a as [| ca a IH]; intros [| cb b]; cbn [ieq upper_string].
  - split; reflexivity.
  - split; discriminate.
  - split; discriminate.
  - destruct (Ascii.eqb (upper ca) (upper cb)) eqn:Hc.
    + apply Ascii.eqb_eq in Hc. rewrite Hc, IH. split.
      * intros ->. reflexivity.
      * intros H. injection H as H. exact H.
    + apply Ascii.eqb_neq in Hc. split; [discriminate |].
      intros H. injection H as H _. contradiction.
Qed.

Lemma ieq_refl : forall a, ieq a a = true.
Proof. intros a. apply ieq_upper. reflexivity. Qed.

Lemma ieq_sym : forall a b, ieq a b = ieq b a.
Proof.
  intros a b. destruct (ieq a b) eqn:Hab, (ieq b a) eqn:Hba; try reflexivity.
  - apply ieq_upper in Hab. symmetry in Hab. apply ieq_upper in Hab. congruence.
  - apply ieq_upper in Hba. symmetry in Hba. apply ieq_upper in Hba. congruence.
Qed.

Lemma ieq_trans :
  forall a b c, ieq a b = true -> ieq b c = true -> ieq a c = true.
Proof.
  intros a b c Hab Hbc. apply ieq_upper in Hab, Hbc. apply ieq_upper. congruence.
Qed.

(** X1: [ieq] holds exactly when the two strings are equal once their
    letters [a]..[z] are replaced by [A]..[Z]; it is reflexive, symmetric and
    transitive. *)
Theorem ieq_equivalence :
  (forall a b, ieq a b = true <-> upper_string a = upper_string b)
  /\ (forall a, ieq a a = true)
  /\ (forall a b, ieq a b = ieq b a)
  /\ (forall a b c, ieq a b = true -> ieq b c = true -> ieq a c = true).
Proof.
  split; [exact ieq_upper |]. split; [exact ieq_refl |].
  split; [exact ieq_sym | exact ieq_trans].
Qed.

(** The loop of the parsers returns the index of the first name that
    matches, counted from [i], or -1. *)
Lemma find_name_first :
  forall names i s,
    0 <= i ->
    (find_name names i s = -1
     /\ forall n, In n names -> ieq s n = false)
    \/ (exists k n,
          find_name names i s = i + Z.of_nat k
          /\ nth_error names k = Some n /\ ieq s n = true
          /\ forall j m, (j < k)%nat -> nth_error names j = Some m ->
                         ieq s m = false).
Proof.
  induction names as [| n0 rest IH]; intros i s Hi; cbn [find_name].
  - left. split; [reflexivity |]. intros n [].
  - destruct (ieq s n0) eqn:H0.
    + right. exists O, n0. repeat split; try assumption.
      * lia.
      * intros j m Hj. lia.
    + destruct (IH (i + 1) s ltac:(lia)) as [[Hr Hall] | (k & n & Hr & Hn & Hm & Hbefore)].
      * left. split; [exact Hr |]. intros n [<- | Hin]; auto.
      * right. exists (S k), n. repeat split; try assumption.
        -- rewrite Hr. lia.
        -- intros [| j] m Hj Hm'; cbn in Hm'.
           ++ injection Hm' as <-. exact H0.
           ++ apply (Hbefore j m); [lia | exact Hm'].
Qed.

(** In a table whose names do not match each other, a string that matches
    entry [k] is given index [k]. *)
Lemma find_name_distinct :
  forall names i s k n,
    distinct_names names = true ->
    nth_error names k = Some n -> ieq s n = true ->
    find_name names i s = i + Z.of_nat k.
Proof.
  induction names as [| n0 rest IH]; intros i s k n Hd Hk Hs.
  - destruct k; discriminate Hk.
  - cbn [distinct_names] in Hd. apply andb_true_iff in Hd. destruct Hd as [H0 Hd].
    cbn [find_name]. destruct k as [| k]; cbn [nth_error] in Hk.
    + injection Hk as ->. rewrite Hs. lia.
    + destruct (ieq s n0) eqn:Hs0.
      * exfalso. rewrite forallb_forall in H0.
        apply nth_error_In in Hk. specialize (H0 n Hk).
        apply negb_true_iff in H0.
        rewrite ieq_sym in Hs0.
        rewrite (ieq_trans n0 s n Hs0 Hs) in H0. discriminate H0.
      * rewrite (IH (i + 1) s k n Hd Hk Hs). lia.
Qed.

Lemma find_name_range :
  forall names i s,
    find_name names i s = -1
    \/ i <= find_name names i s < i + Z.of_nat (List.length names).
Proof.
  induction names as [| n0 rest IH]; intros i s; cbn [find_name List.length].
  - left. reflexivity.
  - destruct (ieq s n0).
    + right. lia.
    + destruct (IH (i + 1) s) as [H | H]; [left; exact H | right; lia].
Qed.

(** X2: each of the three parsers returns -1 or an index into its table,
    and a string that matches entry [k] of the table, in any letter case, is
    given exactly [k]. *)
Theorem parse_names :
  forall s,
    (parse_shape s = -1 \/ 0 <= parse_shape s < 5)
    /\ (parse_color s = -1 \/ 0 <= parse_color s < 9)
    /\ (parse_pos s = -1 \/ 0 <= parse_pos s < 9)
    /\ (forall k n, nth_error SHAPE_NAMES k = Some n -> ieq s n = true ->
                    parse_shape s = Z.of_nat k)
    /\ (forall k n, nth_error COLOR_NAMES k = Some n -> ieq s n = true ->
                    parse_color s = Z.of_nat k)
    /\ (forall k n, nth_error POS_NAMES k = Some n -> ieq s n = true ->
                    parse_pos s = Z.of_nat k).
Proof.
  intros s. unfold parse_shape, parse_color, parse_pos.
  split; [exact (find_name_range SHAPE_NAMES 0 s) |].
  split; [exact (find_name_range COLOR_NAMES 0 s) |].
  split; [exact (find_name_range POS_NAMES 0 s) |].
  split; [| split]; intros k n Hk Hs.
  - exact (find_name_distinct SHAPE_NAMES 0 s k n eq_refl Hk Hs).
  - exact (find_name_distinct COLOR_NAMES 0 s k n eq_refl Hk Hs).
  - exact (find_name_distinct POS_NAMES 0 s k n eq_refl Hk Hs).
Qed.

Lemma parse_names_witness :
  parse_pos "bottom-Right" = 8.
Proof.
  exact (proj2 (proj2 (proj2 (proj2 (proj2 (parse_names "bottom-Right")))))
           8%nat "BOTTOM-RIGHT"%string eq_refl eq_refl).
Defined.

(** ** [trim] *)

Lemma skip_lead_head :
  forall s, match skip_lead s with
            | EmptyString => True
            | String c _ => is_lead_ws c = false
            end.
Proof.
  induction s as [| c s IH]; cbn [skip_lead]; [exact I |].
  destruct (is_lead_ws c) eqn:Hc; [exact IH | exact Hc].
Qed.

Lemma skip_lead_fixed :
  forall s, match s with
            | EmptyString => True
            | String c _ => is_lead_ws c = false
            end -> skip_lead s = s.
Proof. intros [| c s] H; cbn [skip_lead]; [reflexivity | rewrite H; reflexivity]. Qed.

Lemma strip_trail_head :
  forall c s, strip_trail (String c s) = EmptyString
              \/ exists r, strip_trail (String c s) = String c r.
Proof.
  intros c s. cbn [strip_trail].
  destruct (strip_trail s); [destruct (is_trail_ws c) |]; eauto.
Qed.

Lemma strip_trail_last :
  forall s, match last_char (strip_trail s) with
            | None => strip_trail s = EmptyString
            | Some c => is_trail_ws c = false
            end.
Proof.
  induction s as [| c s IH]; cbn [strip_trail]; [reflexivity |].
  destruct (strip_trail s) as [| c' r] eqn:Hr.
  - destruct (is_trail_ws c) eqn:Hc; cbn; [reflexivity | exact Hc].
  - change (last_char (String c (String c' r))) with (last_char (String c' r)).
    destruct (last_char (String c' r)); [exact IH | discriminate IH].
Qed.

Lemma strip_trail_idem :
  forall s, strip_trail (strip_trail s) = strip_trail s.
Proof.
  induction s as [| c s IH]; cbn [strip_trail]; [reflexivity |].
  destruct (strip_trail s) as [| c' r] eqn:Hr.
  - destruct (is_trail_ws c) eqn:Hc; cbn [strip_trail]; [reflexivity |].
    rewrite Hc. reflexivity.
  - cbn [strip_trail] in IH |- *.
    destruct (strip_trail r) as [| c'' r'] eqn:Hr'.
    + destruct (is_trail_ws c') eqn:Hc'; [discriminate IH |].
      injection IH as <-. reflexivity.
    + rewrite IH. reflexivity.
Qed.

(** X3: [trim] is idempotent, and what it returns is empty or starts with a
    character other than space, tab and carriage return and ends with a
    character other than those and line feed.  (A line feed at the front is
    kept: only the three others are skipped there.) *)
Theorem trim_trimmed :
  forall s,
    trim (trim s) = trim s
    /\ (trim s = EmptyString
        \/ exists c l, first_char (trim s) = Some c /\ is_lead_ws c = false
                       /\ last_char (trim s) = Some l /\ is_trail_ws l = false).
Proof.
  intros s. unfold trim.
  pose proof (skip_lead_head s) as Hh.
  pose proof (strip_trail_last (skip_lead s)) as Hl.
  destruct (skip_lead s) as [| c r] eqn:Hs.
  - cbn. split; [reflexivity | left; reflexivity].
  - destruct (strip_trail_head c r) as [He | [r' He]].
    + rewrite He. cbn. split; [reflexivity | left; reflexivity].
    + rewrite He in Hl |- *. split.
      * rewrite (skip_lead_fixed (String c r') Hh), <- He.
        apply strip_trail_idem.
      * right. destruct (last_char (String c r')) as [l |] eqn:Hlast;
          [| discriminate Hl].
        exists c, l. repeat split; assumption.
Qed.

(** ** [strtok] with one delimiter *)

Lemma skip_delim_split :
  forall d s, exists pre,
    all_delim d pre = true /\ s = (pre ++ skip_delim d s)%string
    /\ match skip_delim d s with
       | EmptyString => True
       | String c _ => Ascii.eqb c d = false
       end.
Proof.
  intros d. induction s as [| c s IH]; cbn [skip_delim].
  - exists EmptyString. repeat split.
  - destruct (Ascii.eqb c d) eqn:Hc.
    + destruct IH as (pre & Hp & Hs & Hh).
      exists (String c pre). cbn [all_delim append]. rewrite Hc, Hp.
      repeat split; [congruence | exact Hh].
    + exists EmptyString. repeat split. exact Hc.
Qed.

Lemma split_token_spec :
  forall d s t r,
    split_token d s = (t, r) ->
    has_char d t = false
    /\ (s = (t ++ String d r)%string \/ (r = EmptyString /\ s = t)).
Proof.
  intros d. induction s as [| c s IH]; intros t r H; cbn [split_token] in H.
  - injection H as <- <-. split; [reflexivity | right; split; reflexivity].
  - destruct (Ascii.eqb c d) eqn:Hc.
    + injection H as <- <-. apply Ascii.eqb_eq in Hc. subst c.
      split; [reflexivity | left; reflexivity].
    + destruct (split_token d s) as [t' r'] eqn:Hs. injection H as <- <-.
      destruct (IH t' r' eq_refl) as [Hn Hshape].
      cbn [has_char append]. rewrite Hc, Hn. split; [reflexivity |].
      destruct Hshape as [-> | [-> ->]]; [left | right; split]; reflexivity.
Qed.

Lemma all_delim_skip :
  forall d s, all_delim d s = true <-> skip_delim d s = EmptyString.
Proof.
  intros d. induction s as [| c s IH]; cbn [all_delim skip_delim].
  - split; reflexivity.
  - destruct (Ascii.eqb c d); cbn [andb]; [exact IH | split; discriminate].
Qed.

(** X4: [strtok] returns [NULL] exactly on a rest made of delimiters only;
    otherwise it skips the delimiters at the front (so empty fields never
    come out), returns a token that is not empty and holds no delimiter, and
    leaves as the rest what follows the delimiter that ended the token. *)
Theorem strtok_token :
  forall d s,
    (strtok d s = None <-> all_delim d s = true)
    /\ (forall t r, strtok d s = Some (t, r) ->
          t <> EmptyString /\ has_char d t = false
          /\ exists pre, all_delim d pre = true
               /\ (s = (pre ++ t ++ String d r)%string
                   \/ (r = EmptyString /\ s = (pre ++ t)%string))).
Proof.
  intros d s. unfold strtok. split.
  - rewrite all_delim_skip. destruct (skip_delim d s); split; try reflexivity;
      discriminate.
  - intros t r H.
    destruct (skip_delim_split d s) as (pre & Hp & Hs & Hh).
    destruct (skip_delim d s) as [| c s'] eqn:Hk; [discriminate H |].
    assert (H' : split_token d (String c s') = (t, r)) by congruence.
    clear H. rename H' into H.
    destruct (split_token_spec d _ t r H) as [Hn Hshape].
    split; [| split; [exact Hn |]].
    + intros ->. cbn [split_token] in H. rewrite Hh in H.
      destruct (split_token d s'); discriminate H.
    + exists pre. split; [exact Hp |].
      destruct Hshape as [He | [-> He]]; rewrite He in Hs; [left | right; split];
        auto.
Qed.

Lemma strtok_skips_empty_fields :
  strtok COMMA ",,RED,,CENTER" = Some ("RED", ",CENTER")%string.
Proof. reflexivity. Qed.

(** ** [atoi] *)

Lemma skip_space_app :
  forall ws s, all_space ws = true -> skip_space (ws ++ s) = skip_space s.
Proof.
  induction ws as [| c ws IH]; intros s H; cbn [append]; [reflexivity |].
  cbn [all_space] in H. apply andb_true_iff in H. destruct H as [Hc Hw].
  cbn [skip_space]. rewrite Hc. apply IH. exact Hw.
Qed.

Lemma digits_val_stop :
  forall rest acc, no_digit_ahead rest = true -> digits_val rest acc = acc.
Proof.
  intros [| c rest] acc H; cbn [digits_val]; [reflexivity |].
  cbn in H. apply negb_true_iff in H. rewrite H. reflexivity.
Qed.

Ltac digit_step IH H :=
  match goal with
  | |- digits_val ?s ?a = Zpos (Pos.of_uint_acc ?d ?p) =>
      transitivity (digits_val s (Zpos p));
      [ f_equal;
        match goal with
        | |- context [Z.of_nat ?n] =>
            let v := eval vm_compute in (Z.of_nat n) in
            change (Z.of_nat n) with v
        end; lia
      | apply IH; exact H ]
  end.

(** The digits of a numeral are folded as [Pos.of_uint_acc] folds them. *)
Lemma digits_val_uint_acc :
  forall d acc rest,
    no_digit_ahead rest = true ->
    digits_val (DecimalString.NilEmpty.string_of_uint d ++ rest) (Zpos acc)
    = Zpos (Pos.of_uint_acc d acc).
Proof.
  induction d; intros acc rest H;
    cbn [DecimalString.NilEmpty.string_of_uint append Pos.of_uint_acc];
    [apply digits_val_stop; exact H | ..];
    cbn [digits_val]; change (is_digit _) with true; cbv iota;
    digit_step IHd H.
Qed.

Lemma digits_val_uint :
  forall d rest,
    no_digit_ahead rest = true ->
    digits_val (DecimalString.NilEmpty.string_of_uint d ++ rest) 0
    = Z.of_uint d.
Proof.
  unfold Z.of_uint.
  induction d; intros rest H;
    cbn [DecimalString.NilEmpty.string_of_uint append Pos.of_uint];
    [apply digits_val_stop; exact H | ..];
    cbn [digits_val]; change (is_digit _) with true; cbv iota.
  - exact (IHd rest H).
  - exact (digits_val_uint_acc d 1 rest H).
  - exact (digits_val_uint_acc d 2 rest H).
  - exact (digits_val_uint_acc d 3 rest H).
  - exact (digits_val_uint_acc d 4 rest H).
  - exact (digits_val_uint_acc d 5 rest H).
  - exact (digits_val_uint_acc d 6 rest H).
  - exact (digits_val_uint_acc d 7 rest H).
  - exact (digits_val_uint_acc d 8 rest H).
  - exact (digits_val_uint_acc d 9 rest H).
Qed.

(** A numeral is not empty and starts with a digit. *)
Lemma uint_string_head :
  forall d, d <> Decimal.Nil ->
    exists c s, DecimalString.NilEmpty.string_of_uint d = String c s
                /\ is_digit c = true.
Proof.
  intros d Hd. destruct d; [contradiction | ..];
    cbn [DecimalString.NilEmpty.string_of_uint]; eexists; eexists;
    (split; [reflexivity | reflexivity]).
Qed.

Lemma decimal_value_unsigned :
  forall d rest,
    d <> Decimal.Nil -> no_digit_ahead rest = true ->
    decimal_value (DecimalString.NilEmpty.string_of_uint d ++ rest)
    = Z.of_uint d.
Proof.
  intros d rest Hd Hr.
  pose proof (digits_val_uint d rest Hr) as Hv.
  destruct (uint_string_head d Hd) as (c & s & Hs & Hc).
  rewrite Hs in Hv |- *. cbn [append] in Hv |- *.
  unfold decimal_value. cbn [skip_space].
  assert (Hsp : isspace c = false).
  { revert Hc. clear. unfold is_digit, isspace.
    destruct c as [[] [] [] [] [] [] [] []]; cbn; intros H;
      try reflexivity; discriminate H. }
  rewrite Hsp.
  assert (Hm : Ascii.eqb c (chr 45) = false /\ Ascii.eqb c (chr 43) = false).
  { revert Hc. clear. unfold is_digit.
    destruct c as [[] [] [] [] [] [] [] []]; cbn; intros H;
      try (split; reflexivity); discriminate H. }
  destruct Hm as [-> ->]. exact Hv.
Qed.

(** The number read from the decimal numeral of [n] is [n], after any white
    space and whatever follows the numeral, as long as that does not start
    with a digit. *)
Lemma decimal_value_numeral :
  forall (n : Z) (ws rest : string),
    all_space ws = true -> no_digit_ahead rest = true ->
    decimal_value (ws ++ numeral n ++ rest) = n.
Proof.
  intros n ws rest Hw Hr.
  rewrite <- (DecimalZ.of_to n) at 2.
  unfold decimal_value at 1. rewrite (skip_space_app ws _ Hw).
  fold (decimal_value (numeral n ++ rest)).
  unfold numeral. destruct n as [| p | p]; cbn [Z.to_int Z.of_int].
  - apply (decimal_value_unsigned Decimal.zero rest); [discriminate | exact Hr].
  - apply decimal_value_unsigned;
      [apply DecimalPos.Unsigned.to_uint_nonnil | exact Hr].
  - cbn [DecimalString.NilEmpty.string_of_int append].
    pose proof (digits_val_uint (Pos.to_uint p) rest Hr) as Hv.
    unfold decimal_value. cbn [skip_space].
    change (isspace "-") with false. cbv iota.
    change (Ascii.eqb "-" (chr 45)) with true. cbv iota.
    rewrite Hv. reflexivity.
Qed.

Lemma int_of_long_int :
  forall n, INT_MIN <= n <= INT_MAX -> int_of_long n = n.
Proof.
  intros n H. unfold INT_MIN, INT_MAX in H. unfold int_of_long.
  rewrite Z.mod_small by lia. lia.
Qed.

Lemma atoi_int : forall s, INT_MIN <= atoi s <= INT_MAX.
Proof.
  intros s. unfold atoi, int_of_long, INT_MIN, INT_MAX.
  pose proof (Z.mod_pos_bound (strtol s + 2 ^ 31) (2 ^ 32) ltac:(lia)). lia.
Qed.

(** X5: [atoi] reads back the decimal numeral of every integer that fits in
    an [int], after any white space and whatever follows the numeral, as
    long as that does not start with a digit. *)
Theorem atoi_numeral :
  forall (n : Z) (ws rest : string),
    INT_MIN <= n <= INT_MAX ->
    all_space ws = true -> no_digit_ahead rest = true ->
    atoi (ws ++ numeral n ++ rest) = n.
Proof.
  intros n ws rest Hn Hw Hr. unfold atoi, strtol.
  rewrite (decimal_value_numeral n ws rest Hw Hr).
  assert (Hl : Z.max LONG_MIN (Z.min LONG_MAX n) = n).
  { unfold INT_MIN, INT_MAX in Hn. unfold LONG_MIN, LONG_MAX. lia. }
  rewrite Hl. apply int_of_long_int. exact Hn.
Qed.

Lemma atoi_numeral_witness :
  (INT_MIN <= -12 <= INT_MAX)
  /\ atoi ("  " ++ numeral (-12) ++ " ]") = -12.
Proof.
  split; [unfold INT_MIN, INT_MAX; lia |].
  apply (atoi_numeral (-12) "  " " ]"); [unfold INT_MIN, INT_MAX; lia | ..];
    reflexivity.
Defined.

(** Beyond [int] the numeral is not read back: the value wraps, and beyond
    [long] it is first replaced by the bound. *)
Lemma atoi_beyond_int :
  atoi "2147483648" = INT_MIN /\ atoi "9223372036854775808" = -1
  /\ atoi "-9223372036854775809" = 0.
Proof. repeat apply conj; vm_compute; reflexivity. Qed.

(** ** Colours *)

Lemma hsv2rgb_channels :
  forall h s v,
    has_channel (hsv2rgb h s v) v
    /\ has_channel (hsv2rgb h s v) (v * (f1 - s))%f32.
Proof.
  intros h s v. unfold hsv2rgb, has_channel. cbv zeta.
  destruct (Z.rem (to_int (floorf (h * f6)%f32)) 6) as [| p | p];
    [cbn; tauto | | cbn; tauto].
  destruct p as [[p | p |] | [[p | p |] | [p | p |] |] |]; cbn; tauto.
Qed.

(** X6: every colour a shape is drawn in has a channel that is exactly 1:
    each entry of the palette has one, and so has the colour of a RANDOM
    shape, whatever the hue, the hue speed and the time (not-a-number
    included); the colour of a RANDOM shape also has a channel that is
    exactly 0: it is fully saturated at full value. *)
Theorem draw_color_saturated :
  forall (s : ShapeRuntime) (t : f64),
    has_channel (color_for s t) f1
    /\ (color s = COL_RANDOM ->
        has_channel (color_for s t) (S754_zero false)).
Proof.
  intros s t. unfold color_for.
  destruct (color s); cbn [neon_palette]; split;
    try discriminate;
    try (intros _; exact (proj2 (hsv2rgb_channels _ f1 f1)));
    try exact (proj1 (hsv2rgb_channels _ f1 f1));
    unfold has_channel; cbn [vx vy vz]; tauto.
Qed.

(** ** Margins *)

(** X7: [anchor_margin] on the nine anchors, for every margin [m]: a right
    coordinate becomes [1 - m] and a bottom one [-1 + m] whatever [m]; a
    left coordinate becomes [-1 + m] and a top one [1 - m], but the pull is
    taken back when it crosses zero (a margin above 1); a middle coordinate
    and z stay 0. *)
Theorem anchor_margin_by_anchor :
  forall (a : Anchor) (m : f32),
    anchor_margin (anchor_to_ndc a) m = v3 (margin_x a m) (margin_y a m) f0.
Proof.
  intros a m. unfold anchor_margin, margin_x, margin_y.
  destruct a; cbn [anchor_to_ndc vx vy vz column row];
    repeat first
      [ change (flt fm1 f0) with true | change (flt f1 f0) with false
      | change (flt f0 f0) with false | change (fgt f0 f0) with false
      | change (fgt f1 f0) with true | change (fgt fm1 f0) with false ];
    cbv iota zeta.
  all: reflexivity.
Qed.

(** ** The animation state over the frames *)

Lemma not_positive_below_one :
  forall T : f32, fgt T f0 = false -> fge T f1 = false.
Proof.
  intros T H. unfold fgt in H. unfold fge.
  destruct T as [[|] | [|] | | [|] m e]; vm_compute in H |- *;
    first [reflexivity | discriminate H].
Qed.

(** X8: the progress of a reorientation is never left at 1 or above: after
    every call of [update_shape], whatever the record, the time step and the
    random numbers, the test [reorientT >= 1.0f] fails on the stored value
    (it is 0 after a completion, the value that just failed the test during
    a reorientation, and a value that is not positive otherwise). *)
Theorem update_shape_progress_below_one :
  forall (lc : Libc) (dt : f32) (m : Mem),
    fge (reorientT (obj (update_shape lc dt m))) f1 = false.
Proof.
  intros lc dt m.
  assert (H : exists T, reorientT (obj (update_shape lc dt m)) = T
                        /\ fge T f1 = false).
  { unfold update_shape, reorient_step, store, with_gen.
    cbn [obj gen writes].
    destruct (_ || _)%bool eqn:Hblock.
    - destruct (feq _ f0).
      + destruct (random_euler _ _ _ _) as [q g1]. cbn [obj gen writes].
        destruct (fge _ f1) eqn:Hdone.
        * destruct (frand_range _ _ _ _) as [v g2]. cbn.
          eexists. split; reflexivity.
        * cbn in Hdone |- *. eexists. split; [reflexivity | exact Hdone].
      + cbn [obj gen writes]. destruct (fge _ f1) eqn:Hdone.
        * destruct (frand_range _ _ _ _) as [v g2]. cbn.
          eexists. split; reflexivity.
        * cbn in Hdone |- *. eexists. split; [reflexivity | exact Hdone].
    - cbn in Hblock |- *. apply orb_false_iff in Hblock.
      eexists. split; [reflexivity |].
      apply not_positive_below_one. exact (proj2 Hblock). }
  destruct H as (T & -> & H). exact H.
Qed.

(** ** The records [main] builds *)

Lemma new_runtime_fresh :
  forall lc sc pos g,
    fresh_record lc sc (fst (new_runtime lc sc pos g))
    /\ snd (new_runtime lc sc pos g) = (9 + g)%nat.
Proof.
  intros lc sc pos g. unfold fresh_record. repeat split; reflexivity.
Qed.

Lemma build_runtime_records :
  forall lc monCount items qc g rts g',
    build_runtime lc monCount items qc g = Some (rts, g') ->
    Forall2 (fresh_record lc) items rts
    /\ g' = (g + 9 * List.length items)%nat.
Proof.
  intros lc monCount items.
  induction items as [| sc rest IH]; intros qc g rts g' Hb.
  - cbn in Hb. injection Hb as <- <-. split; [constructor | cbn; lia].
  - cbn [build_runtime] in Hb.
    destruct (_ || _)%bool; [discriminate Hb |].
    destruct (new_runtime_fresh lc sc
                (place (cfg_pos sc)
                   (qc (clamp_monitor monCount (cfg_screen sc))
                       (int_of_Anchor (cfg_pos sc)))) g) as [Hf Hg].
    destruct (new_runtime lc sc _ g) as [R g1]. cbn [fst snd] in Hf, Hg.
    destruct (build_runtime lc monCount rest _ g1) as [[rs g2] |] eqn:Hr;
      [| discriminate Hb].
    injection Hb as <- <-.
    destruct (IH _ _ _ _ Hr) as [Hrs Hg2]. split.
    + constructor; assumption.
    + cbn [List.length]. lia.
Qed.

(** X9: the records [main] hands to the loop: one per configuration record,
    in the order of the file, with the shape kind and colour kind of its
    configuration record, the geometry of that shape kind, the identity
    orientation and no reorientation in progress; and [rand()] has been
    called nine times for each of them. *)
Theorem build_runtime_fresh :
  forall (lc : Libc) (monCount : Z) (items : list ShapeConfig)
         (qc : QuadTable) (g : rng) (rts : list ShapeRuntime) (g' : rng),
    build_runtime lc monCount items qc g = Some (rts, g') ->
    List.length rts = List.length items
    /\ Forall2 (fresh_record lc) items rts
    /\ g' = (g + 9 * List.length items)%nat.
Proof.
  intros lc monCount items qc g rts g' Hb.
  destruct (build_runtime_records lc monCount items qc g rts g' Hb)
    as [Hrs Hg].
  split; [symmetry; exact (Forall2_length Hrs) |].
  split; [exact Hrs | exact Hg].
Qed.

Lemma build_runtime_fresh_witness :
  exists rts g',
    main_runtime sample_libc 1 two_br_cubes 0%nat = Some (rts, g')
    /\ List.length rts = 2%nat
    /\ Forall2 (fresh_record sample_libc) two_br_cubes rts
    /\ g' = 18%nat.
Proof.
  destruct (main_runtime sample_libc 1 two_br_cubes 0%nat)
    as [[rts g'] |] eqn:Hb.
  - exists rts, g'. split; [reflexivity |].
    exact (build_runtime_fresh sample_libc 1 two_br_cubes _ _ _ _ Hb).
  - exfalso.
    destruct (build_runtime_total sample_libc 1 two_br_cubes
                (fun _ _ => 0) 0%nat one_monitor) as (rts & g' & H).
    unfold main_runtime in Hb. congruence.
Defined.

(** ** What the loop keeps *)

Lemma same_fixed_fields_refl : forall a, same_fixed_fields a a.
Proof. intros a. unfold same_fixed_fields. tauto. Qed.

Lemma same_fixed_fields_trans :
  forall a b c,
    same_fixed_fields a b -> same_fixed_fields b c -> same_fixed_fields a c.
Proof.
  unfold same_fixed_fields. intros a b c H1 H2.
  decompose [and] H1. decompose [and] H2. repeat split; congruence.
Qed.

Lemma Forall2_same_fixed_refl :
  forall l, Forall2 same_fixed_fields l l.
Proof.
  induction l; constructor; [apply same_fixed_fields_refl | assumption].
Qed.

Lemma Forall2_same_fixed_trans :
  forall l1 l2 l3,
    Forall2 same_fixed_fields l1 l2 -> Forall2 same_fixed_fields l2 l3 ->
    Forall2 same_fixed_fields l1 l3.
Proof.
  intros l1 l2 l3 H. revert l3.
  induction H as [| a b l1 l2 Hab H IH]; intros l3 H3.
  - inversion H3. constructor.
  - inversion H3 as [| b' c l2' l3' Hbc H3' E1 E2]; subst.
    constructor; [exact (same_fixed_fields_trans a b c Hab Hbc) | now apply IH].
Qed.

Lemma update_all_fixed :
  forall lc dt rts g,
    Forall2 same_fixed_fields rts (fst (update_all lc dt rts g)).
Proof.
  intros lc dt rts. induction rts as [| s rest IH]; intros g.
  - constructor.
  - cbn [update_all].
    pose proof (update_shape_frame lc dt {| obj := s; gen := g; writes := [] |})
      as Hs. cbv zeta in Hs. cbn [obj] in Hs.
    specialize (IH (gen (update_shape lc dt {| obj := s; gen := g; writes := [] |}))).
    destruct (update_all lc dt rest _) as [rest' g']. cbn [fst] in IH |- *.
    constructor; [| exact IH].
    unfold same_fixed_fields. decompose [and] Hs. repeat split; congruence.
Qed.

(** X10: the render loop never changes the number of records, and in every
    record it leaves the shape kind, the colour kind, the geometry, the
    position, the hue speed, the two spin rates and the duration of a
    reorientation as [main] set them, however many frames it runs. *)
Theorem app_loop_keeps_fixed_fields :
  forall (lc : Libc) (fuel : nat) (w : World) (count : nat)
         (rts : list ShapeRuntime) (g : rng) (st : LoopState),
    app_loop lc fuel w count rts g = Some st ->
    List.length (runtime st) = List.length rts
    /\ Forall2 same_fixed_fields rts (runtime st).
Proof.
  intros lc fuel w count rts g st H.
  assert (Hgen : forall fuel st0 st1,
             run_loop lc fuel w count st0 = Some st1 ->
             Forall2 same_fixed_fields (runtime st0) (runtime st1)).
  { clear. intros fuel. induction fuel as [| fuel IH]; intros st0 st1 H.
    - discriminate H.
    - cbn [run_loop] in H. unfold loop_body in H.
      destruct (negb _).
      + injection H as <-. apply Forall2_same_fixed_refl.
      + pose proof (update_all_fixed lc
                      (frame_dt (time_at w (frame st0)) (last st0))
                      (runtime st0) (rgen st0)) as Hu.
        destruct (update_all lc _ _ _) as [rts1 g1]. cbn [fst] in Hu.
        apply IH in H. cbn [runtime] in H.
        exact (Forall2_same_fixed_trans _ _ _ Hu H). }
  apply Hgen in H. cbn [runtime] in H. split; [| exact H].
  symmetry. exact (Forall2_length H).
Qed.

Lemma app_loop_keeps_fixed_fields_witness :
  exists st,
    app_loop sample_libc 4 two_windows 2 [sample_shape] 0%nat = Some st
    /\ List.length (runtime st) = 1%nat
    /\ Forall2 same_fixed_fields [sample_shape] (runtime st).
Proof.
  destruct (app_loop sample_libc 4 two_windows 2 [sample_shape] 0%nat)
    as [st |] eqn:H.
  - exists st. split; [reflexivity |].
    exact (app_loop_keeps_fixed_fields sample_libc 4 two_windows 2
             [sample_shape] 0%nat st H).
  - exfalso.
    destruct (run_loop_terminates sample_libc two_windows 2 3
                {| frame := O; last := start_time two_windows;
                   runtime := [sample_shape]; rgen := O |} 3%nat eq_refl)
      as (st & Hs & _).
    + apply any_open_false. exact two_windows_closed_at_3.
    + unfold app_loop in H. congruence.
Defined.

(** *** The calls of [rand()] in one update *)

(** X21: one call of [update_shape] calls [rand()] three times where it
    draws a new target and once where it completes a reorientation, and
    nowhere else: the generator advances by three times the number of
    assignments to [target] plus the number of assignments to
    [reorientTimer] beyond the first. *)
Theorem update_shape_rand_calls :
  forall (lc : Libc) (dt : f32) (s : ShapeRuntime) (g : rng),
    let m := update_shape lc dt (call s g) in
    (gen m + 1 = g + 3 * write_count F_target m
                 + write_count F_reorientTimer m)%nat.
Proof.
  intros lc dt s g. unfold update_shape, reorient_step, call, store, with_gen.
  cbn [obj gen writes app].
  destruct (_ || _)%bool.
  - destruct (feq _ f0).
    + pose proof (random_euler_gen lc (- lit 3 2)%f32 (lit 3 2) g) as Hg1.
      destruct (random_euler _ _ _ _) as [q g1]. cbn [obj gen writes app snd] in *.
      destruct (fge _ f1).
      * pose proof (frand_range_gen lc (of_int 4) (of_int 8) g1) as Hg2.
        destruct (frand_range _ _ _ _) as [v g2]. cbn in *. lia.
      * cbn. lia.
    + cbn [obj gen writes app]. destruct (fge _ f1).
      * pose proof (frand_range_gen lc (of_int 4) (of_int 8) g) as Hg2.
        destruct (frand_range _ _ _ _) as [v g2]. cbn in *. lia.
      * cbn. lia.
  - cbn. lia.
Qed.

(** ** The shapes of each window *)

Lemma for_loop_snoc :
  forall (S : Type) (body : Z -> S -> S) (n : nat) (i : Z) (s : S),
    for_loop i (Datatypes.S n) body s
    = body (i + Z.of_nat n) (for_loop i n body s).
Proof.
  intros S body n. induction n as [| n IH]; intros i s.
  - cbn. rewrite Z.add_0_r. reflexivity.
  - change (for_loop i (Datatypes.S (Datatypes.S n)) body s)
      with (for_loop (i + 1) (Datatypes.S n) body (body i s)).
    rewrite IH. cbn [for_loop]. f_equal. lia.
Qed.

Lemma in_block_spec :
  forall (A : Type) (i : Z) (l : list A),
    in_block i l = true <-> 0 <= i < Z.of_nat (List.length l).
Proof.
  intros A i l. unfold in_block. rewrite andb_true_iff, Z.leb_le, Z.ltb_lt.
  tauto.
Qed.

Lemma poke_nat_length :
  forall (A : Type) (l : list A) (i : nat) (x : A),
    List.length (poke_nat i x l) = List.length l.
Proof.
  intros A l. induction l as [| y l IH]; intros i x.
  - destruct i; reflexivity.
  - destruct i; cbn; [reflexivity | now rewrite IH].
Qed.

Lemma poke_length :
  forall (A : Type) (i : Z) (x : A) (l : list A),
    List.length (poke i x l) = List.length l.
Proof.
  intros A i x l. unfold poke. destruct (in_block i l); [| reflexivity].
  apply poke_nat_length.
Qed.

Lemma nth_poke_nat_same :
  forall (l : list Z) (i : nat) (x d : Z),
    (i < List.length l)%nat -> nth i (poke_nat i x l) d = x.
Proof.
  intros l. induction l as [| y l IH]; intros i x d H; cbn in H; [lia |].
  destruct i; cbn; [reflexivity | apply IH; lia].
Qed.

Lemma nth_poke_nat_other :
  forall (l : list Z) (i j : nat) (x d : Z),
    i <> j -> nth i (poke_nat j x l) d = nth i l d.
Proof.
  intros l. induction l as [| y l IH]; intros i j x d H.
  - destruct j; reflexivity.
  - destruct j, i; cbn; try reflexivity; try congruence.
    apply IH. congruence.
Qed.

Lemma peek_poke_same :
  forall (i x : Z) (l : list Z),
    in_block i l = true -> peek i (poke i x l) = x.
Proof.
  intros i x l H. unfold peek, poke. rewrite H.
  apply in_block_spec in H. apply nth_poke_nat_same. lia.
Qed.

Lemma peek_poke_other :
  forall (i j x : Z) (l : list Z),
    0 <= i -> i <> j -> peek i (poke j x l) = peek i l.
Proof.
  intros i j x l Hi Hne. unfold peek, poke.
  destruct (in_block j l) eqn:Hj; [| reflexivity].
  apply in_block_spec in Hj. apply nth_poke_nat_other. lia.
Qed.

Lemma peek_calloc : forall n i, peek i (calloc n) = 0.
Proof.
  intros n i. unfold peek, calloc, malloc. apply nth_repeat.
Qed.

Lemma calloc_length : forall n, List.length (calloc n) = Z.to_nat n.
Proof. intros n. unfold calloc, malloc. apply repeat_length. Qed.

(** *** Counting the indices of a residue class *)

Lemma how_many_S :
  forall p k,
    how_many p (S k) = how_many p k + (if p (Z.of_nat k) then 1 else 0).
Proof.
  intros p k. unfold how_many.
  rewrite seq_S, map_app, filter_app, length_app. cbn [map filter Nat.add].
  destruct (p (Z.of_nat k)); cbn [List.length]; lia.
Qed.

Lemma how_many_nonneg : forall p k, 0 <= how_many p k.
Proof. intros. unfold how_many. lia. Qed.

Lemma how_many_mono :
  forall p k k', (k <= k')%nat -> how_many p k <= how_many p k'.
Proof.
  intros p k k' H. induction H as [| k' H IH]; [lia |].
  rewrite how_many_S. destruct (p (Z.of_nat k')); lia.
Qed.

Lemma how_many_split :
  forall T k w,
    how_many (fun i => i mod T <? w + 1) k
    = how_many (fun i => i mod T <? w) k + how_many (fun i => i mod T =? w) k.
Proof.
  intros T k w. induction k as [| k IH]; [reflexivity |].
  rewrite !how_many_S, IH.
  destruct (Z.ltb_spec (Z.of_nat k mod T) (w + 1)),
           (Z.ltb_spec (Z.of_nat k mod T) w),
           (Z.eqb_spec (Z.of_nat k mod T) w); lia.
Qed.

Lemma how_many_below_mono :
  forall T k w w',
    w <= w' ->
    how_many (fun i => i mod T <? w) k <= how_many (fun i => i mod T <? w') k.
Proof.
  intros T k w w' H. induction k as [| k IH]; [reflexivity |].
  rewrite !how_many_S.
  destruct (Z.ltb_spec (Z.of_nat k mod T) w),
           (Z.ltb_spec (Z.of_nat k mod T) w'); lia.
Qed.

Lemma how_many_below_zero :
  forall T k, 0 < T -> how_many (fun i => i mod T <? 0) k = 0.
Proof.
  intros T k HT. induction k as [| k IH]; [reflexivity |].
  rewrite how_many_S, IH.
  pose proof (Z.mod_pos_bound (Z.of_nat k) T HT).
  destruct (Z.ltb_spec (Z.of_nat k mod T) 0); lia.
Qed.

Lemma how_many_below_all :
  forall T k, 0 < T -> how_many (fun i => i mod T <? T) k = Z.of_nat k.
Proof.
  intros T k HT. induction k as [| k IH]; [reflexivity |].
  rewrite how_many_S, IH.
  pose proof (Z.mod_pos_bound (Z.of_nat k) T HT).
  destruct (Z.ltb_spec (Z.of_nat k mod T) T); lia.
Qed.

Lemma residue_class_S :
  forall T k w,
    residue_class T (S k) w
    = residue_class T k w
      ++ (if Z.of_nat k mod T =? w then [Z.of_nat k] else []).
Proof.
  intros T k w. unfold residue_class.
  rewrite seq_S, map_app, filter_app. reflexivity.
Qed.

Lemma residue_class_length :
  forall T k w,
    Z.of_nat (List.length (residue_class T k w))
    = how_many (fun i => i mod T =? w) k.
Proof. reflexivity. Qed.

(** *** The three loops that fill the blocks *)

Lemma count_loop :
  forall T k,
    0 < T ->
    let a := for_loop 0 k (Mapping.count_step T)
               {| Mapping.start := calloc T; Mapping.count := calloc T;
                  Mapping.placed := []; Mapping.mapIdx := [];
                  Mapping.fault := false |} in
    Mapping.start a = calloc T
    /\ List.length (Mapping.count a) = Z.to_nat T
    /\ (forall w, 0 <= w < T ->
          peek w (Mapping.count a) = how_many (fun i => i mod T =? w) k)
    /\ Mapping.fault a = false.
Proof.
  intros T k HT. induction k as [| k IH].
  - cbn. repeat split; try apply calloc_length.
    intros w _. apply peek_calloc.
  - rewrite for_loop_snoc, Z.add_0_l. cbv zeta in IH |- *.
    destruct IH as (Hs & Hl & Hc & Hf).
    set (a := for_loop 0 k _ _) in *.
    pose proof (Z.mod_pos_bound (Z.of_nat k) T HT) as Hw.
    unfold Mapping.count_step.
    cbn [Mapping.start Mapping.count Mapping.placed Mapping.mapIdx Mapping.fault].
    rewrite Z.rem_mod_nonneg by lia.
    assert (Hin : in_block (Z.of_nat k mod T) (Mapping.count a) = true)
      by (apply in_block_spec; lia).
    repeat apply conj.
    + exact Hs.
    + rewrite poke_length. exact Hl.
    + intros w Hwr. rewrite how_many_S.
      destruct (Z.eqb_spec (Z.of_nat k mod T) w) as [E | E].
      * rewrite <- E. rewrite peek_poke_same by exact Hin.
        rewrite Hc by lia. reflexivity.
      * rewrite peek_poke_other by lia. rewrite Hc by lia. lia.
    + rewrite Hf, Hin. destruct (Z.eqb_spec T 0); [lia | reflexivity].
Qed.

Lemma start_loop :
  forall T n a j,
    0 < T ->
    List.length (Mapping.start a) = Z.to_nat T ->
    peek 0 (Mapping.start a) = 0 ->
    List.length (Mapping.count a) = Z.to_nat T ->
    (forall w, 0 <= w < T ->
       peek w (Mapping.count a) = how_many (fun i => i mod T =? w) n) ->
    Mapping.fault a = false ->
    Z.of_nat j < T ->
    let a' := for_loop 1 j Mapping.start_step a in
    Mapping.count a' = Mapping.count a
    /\ List.length (Mapping.start a') = Z.to_nat T
    /\ (forall w, 0 <= w <= Z.of_nat j ->
          peek w (Mapping.start a') = how_many (fun i => i mod T <? w) n)
    /\ Mapping.fault a' = false.
Proof.
  intros T n a j HT Hls H0 Hlc Hc Hf. induction j as [| j IH]; intros Hj.
  - cbn. repeat apply conj; try assumption; try reflexivity.
    intros w Hw. replace w with 0 by lia.
    rewrite how_many_below_zero by exact HT. exact H0.
  - rewrite for_loop_snoc. cbv zeta in IH |- *.
    destruct IH as (Hc' & Hl' & Hs' & Hf'); [lia |].
    set (a' := for_loop 1 j _ _) in *.
    unfold Mapping.start_step.
    cbn [Mapping.start Mapping.count Mapping.placed Mapping.mapIdx Mapping.fault].
    replace (1 + Z.of_nat j - 1) with (Z.of_nat j) by lia.
    assert (Hin1 : in_block (1 + Z.of_nat j) (Mapping.start a') = true)
      by (apply in_block_spec; lia).
    assert (Hin2 : in_block (Z.of_nat j) (Mapping.start a') = true)
      by (apply in_block_spec; lia).
    assert (Hin3 : in_block (Z.of_nat j) (Mapping.count a') = true)
      by (apply in_block_spec; rewrite Hc'; lia).
    repeat apply conj.
    + exact Hc'.
    + rewrite poke_length. exact Hl'.
    + intros w Hw.
      destruct (Z.eq_dec w (1 + Z.of_nat j)) as [-> | E].
      * rewrite peek_poke_same by exact Hin1.
        rewrite Hs' by lia. rewrite Hc', Hc by lia.
        replace (1 + Z.of_nat j) with (Z.of_nat j + 1) by lia.
        rewrite how_many_split. reflexivity.
      * rewrite peek_poke_other by lia. apply Hs'. lia.
    + rewrite Hf', Hin1, Hin2, Hin3. reflexivity.
Qed.

Lemma nth_snoc_old :
  forall (l t : list Z) (j : nat) (d : Z),
    (j < List.length l)%nat -> nth j (l ++ t) d = nth j l d.
Proof. intros. apply app_nth1. assumption. Qed.

Lemma place_loop :
  forall T n a k,
    0 < T ->
    List.length (Mapping.start a) = Z.to_nat T ->
    (forall w, 0 <= w < T ->
       peek w (Mapping.start a) = how_many (fun i => i mod T <? w) n) ->
    List.length (Mapping.placed a) = Z.to_nat T ->
    (forall w, peek w (Mapping.placed a) = 0) ->
    List.length (Mapping.mapIdx a) = n ->
    Mapping.fault a = false ->
    (k <= n)%nat ->
    let a' := for_loop 0 k (Mapping.place_step T) a in
    Mapping.start a' = Mapping.start a
    /\ Mapping.count a' = Mapping.count a
    /\ List.length (Mapping.placed a') = Z.to_nat T
    /\ (forall w, 0 <= w < T ->
          peek w (Mapping.placed a') = how_many (fun i => i mod T =? w) k)
    /\ List.length (Mapping.mapIdx a') = n
    /\ (forall w j, 0 <= w < T ->
          0 <= j < how_many (fun i => i mod T =? w) k ->
          peek (how_many (fun i => i mod T <? w) n + j) (Mapping.mapIdx a')
          = nth (Z.to_nat j) (residue_class T k w) 0)
    /\ Mapping.fault a' = false.
Proof.
  intros T n a k HT Hls Hs Hlp Hp Hlm Hf. induction k as [| k IH]; intros Hk.
  - cbn. repeat apply conj; try assumption; try reflexivity.
    + intros w _. apply Hp.
    + intros w j _ Hj. cbn in Hj. lia.
  - rewrite for_loop_snoc, Z.add_0_l. cbv zeta in IH |- *.
    destruct IH as (Hs' & Hc' & Hlp' & Hp' & Hlm' & Hm' & Hf'); [lia |].
    set (a' := for_loop 0 k _ _) in *.
    pose proof (Z.mod_pos_bound (Z.of_nat k) T HT) as Hw.
    unfold Mapping.place_step.
    cbn [Mapping.start Mapping.count Mapping.placed Mapping.mapIdx Mapping.fault].
    rewrite Z.rem_mod_nonneg by lia.
    set (w0 := Z.of_nat k mod T) in *.
    rewrite Hs', (Hs w0 Hw), (Hp' w0 Hw).
    (* the slot is free and inside the block *)
    pose proof (how_many_S (fun i => i mod T =? w0) k) as HS.
    cbv beta in HS. fold w0 in HS. rewrite Z.eqb_refl in HS.
    pose proof (how_many_mono (fun i => i mod T =? w0) (S k) n Hk) as Hmono.
    pose proof (how_many_split T n w0) as Hsplit.
    pose proof (how_many_below_mono T n (w0 + 1) T ltac:(lia)) as Hup.
    rewrite (how_many_below_all T n HT) in Hup.
    pose proof (how_many_nonneg (fun i => i mod T <? w0) n) as Hpre0.
    pose proof (how_many_nonneg (fun i => i mod T =? w0) k) as Hcnt0.
    assert (Hin1 : in_block w0 (Mapping.start a) = true)
      by (apply in_block_spec; lia).
    assert (Hin2 : in_block w0 (Mapping.placed a') = true)
      by (apply in_block_spec; lia).
    assert (Hin3 : in_block (how_many (fun i => i mod T <? w0) n
                             + how_many (fun i => i mod T =? w0) k)
                     (Mapping.mapIdx a') = true)
      by (apply in_block_spec; lia).
    repeat apply conj.
    + reflexivity.
    + exact Hc'.
    + rewrite poke_length. exact Hlp'.
    + intros w Hwr. rewrite how_many_S.
      destruct (Z.eqb_spec (Z.of_nat k mod T) w) as [E | E]; fold w0 in E.
      * rewrite <- E. rewrite peek_poke_same by exact Hin2. reflexivity.
      * rewrite peek_poke_other by lia. rewrite Hp' by lia. lia.
    + rewrite poke_length. exact Hlm'.
    + intros w j Hwr Hj. rewrite how_many_S in Hj. rewrite residue_class_S.
      fold w0 in Hj |- *.
      pose proof (residue_class_length T k w) as Hlen.
      destruct (Z.eqb_spec w0 w) as [E | E].
      * subst w.
        destruct (Z.eq_dec j (how_many (fun i => i mod T =? w0) k)) as [-> | Ej].
        -- rewrite peek_poke_same by exact Hin3.
           rewrite <- Hlen, Nat2Z.id, nth_middle. reflexivity.
        -- rewrite peek_poke_other by lia.
           rewrite nth_snoc_old by lia. apply Hm'; lia.
      * rewrite app_nil_r.
        pose proof (how_many_mono (fun i => i mod T =? w) k n ltac:(lia)) as Hmw.
        pose proof (how_many_split T n w) as Hsw.
        pose proof (how_many_nonneg (fun i => i mod T <? w) n) as Hprew.
        rewrite peek_poke_other; [apply Hm'; lia | lia |].
        destruct (Z.lt_ge_cases w w0) as [Hlt | Hge].
        -- pose proof (how_many_below_mono T n (w + 1) w0 ltac:(lia)). lia.
        -- pose proof (how_many_below_mono T n (w0 + 1) w ltac:(lia)). lia.
    + rewrite Hf', Hin1, Hin2, Hin3.
      destruct (Z.eqb_spec T 0); [lia | reflexivity].
Qed.

Lemma firstn_snoc_nth :
  forall (l : list Z) (i : nat) (d : Z),
    (i < List.length l)%nat -> firstn (S i) l = firstn i l ++ [nth i l d].
Proof.
  intros l. induction l as [| y l IH]; intros i d H; cbn in H; [lia |].
  destruct i; [reflexivity |].
  cbn [firstn nth app]. f_equal. apply IH. lia.
Qed.

Lemma draw_window_reads :
  forall n a w c,
    in_block w (Mapping.count a) = true ->
    in_block w (Mapping.start a) = true ->
    peek w (Mapping.count a) = Z.of_nat (List.length c) ->
    (forall j, (j < List.length c)%nat ->
       in_block (peek w (Mapping.start a) + Z.of_nat j) (Mapping.mapIdx a) = true
       /\ peek (peek w (Mapping.start a) + Z.of_nat j) (Mapping.mapIdx a)
          = nth j c 0
       /\ 0 <= nth j c 0 < n) ->
    Mapping.draw_window n a w = (c, false).
Proof.
  intros n a w c Hic His Hc Hj. unfold Mapping.draw_window, for_range.
  rewrite Hc, Z.sub_0_r, Nat2Z.id, Hic, His. cbn [negb orb].
  match goal with |- for_loop 0 _ ?b _ = _ => set (body := b) end.
  assert (H : forall i, (i <= List.length c)%nat ->
                for_loop 0 i body ([], false) = (firstn i c, false)).
  { intros i. induction i as [| i IH]; intros Hi.
    - reflexivity.
    - rewrite for_loop_snoc, Z.add_0_l, IH by lia. unfold body.
      destruct (Hj i ltac:(lia)) as (Hb & Hp & Hr).
      rewrite Hb, Hp, (firstn_snoc_nth c i 0) by lia.
      destruct (Z.leb_spec 0 (nth i c 0)); [| lia].
      destruct (Z.ltb_spec (nth i c 0) n); [| lia].
      reflexivity. }
  rewrite H by lia. rewrite firstn_all. reflexivity.
Qed.

Lemma residue_class_range :
  forall T k w i, In i (residue_class T k w) -> 0 <= i < Z.of_nat k.
Proof.
  intros T k w i H. unfold residue_class in H.
  apply filter_In in H. destruct H as [H _].
  apply in_map_iff in H. destruct H as (x & <- & Hx).
  apply in_seq in Hx. lia.
Qed.

Lemma residue_class_In :
  forall T k w i,
    In i (residue_class T k w) <-> 0 <= i < Z.of_nat k /\ i mod T = w.
Proof.
  intros T k w i. unfold residue_class. rewrite filter_In, in_map_iff. split.
  - intros [(x & <- & Hx) Hm]. apply in_seq in Hx. apply Z.eqb_eq in Hm.
    split; [lia | exact Hm].
  - intros [Hi Hm]. split.
    + exists (Z.to_nat i). split; [lia | apply in_seq; lia].
    + apply Z.eqb_eq. exact Hm.
Qed.

Lemma assign_round_robin :
  forall (T n junk : Z),
    0 < T -> 0 <= n ->
    Mapping.fault (Mapping.assign T n junk) = false
    /\ forall w, 0 <= w < T ->
         Mapping.draw_window n (Mapping.assign T n junk) w
         = (residue_class T (Z.to_nat n) w, false).
Proof.
  intros T n junk HT Hn. unfold Mapping.assign, for_range. cbv zeta.
  rewrite Z.sub_0_r.
  destruct (count_loop T (Z.to_nat n) HT) as (Hs1 & Hl1 & Hc1 & Hf1).
  set (a1 := for_loop 0 (Z.to_nat n) (Mapping.count_step T) _) in *.
  destruct (start_loop T (Z.to_nat n) a1 (Z.to_nat (T - 1)) HT) as
    (Hc2 & Hl2 & Hs2 & Hf2); try assumption.
  { rewrite Hs1. apply calloc_length. }
  { rewrite Hs1. apply peek_calloc. }
  { lia. }
  set (a2 := for_loop 1 (Z.to_nat (T - 1)) Mapping.start_step a1) in *.
  set (a3 := {| Mapping.start := Mapping.start a2;
                Mapping.count := Mapping.count a2;
                Mapping.placed := calloc T;
                Mapping.mapIdx := malloc n junk;
                Mapping.fault := Mapping.fault a2 |}).
  destruct (place_loop T (Z.to_nat n) a3 (Z.to_nat n) HT) as
    (Hs4 & Hc4 & Hl4 & Hp4 & Hlm4 & Hm4 & Hf4).
  { exact Hl2. }
  { intros w Hw. apply Hs2. lia. }
  { apply calloc_length. }
  { intros w. apply peek_calloc. }
  { unfold malloc. apply repeat_length. }
  { exact Hf2. }
  { lia. }
  set (a4 := for_loop 0 (Z.to_nat n) (Mapping.place_step T) a3) in *.
  split; [exact Hf4 |].
  intros w Hw.
  assert (Hcw : peek w (Mapping.count a4)
                = Z.of_nat (List.length (residue_class T (Z.to_nat n) w))).
  { rewrite Hc4. cbn [Mapping.count a3]. rewrite Hc2, Hc1 by lia.
    symmetry. apply residue_class_length. }
  assert (Hsw : peek w (Mapping.start a4)
                = how_many (fun i => i mod T <? w) (Z.to_nat n)).
  { rewrite Hs4. cbn [Mapping.start a3]. apply Hs2. lia. }
  apply draw_window_reads.
  - apply in_block_spec. rewrite Hc4. cbn [Mapping.count a3].
    rewrite Hc2, Hl1. lia.
  - apply in_block_spec. rewrite Hs4. cbn [Mapping.start a3].
    rewrite Hl2. lia.
  - exact Hcw.
  - intros j Hj. rewrite Hsw.
    pose proof (residue_class_length T (Z.to_nat n) w) as Hlen.
    pose proof (how_many_split T (Z.to_nat n) w) as Hsplit.
    pose proof (how_many_below_mono T (Z.to_nat n) (w + 1) T ltac:(lia)) as Hup.
    rewrite (how_many_below_all T (Z.to_nat n) HT) in Hup.
    pose proof (how_many_nonneg (fun i => i mod T <? w) (Z.to_nat n)) as Hpre0.
    split; [| split].
    + apply in_block_spec. rewrite Hlm4. lia.
    + rewrite Hm4 by lia. rewrite Nat2Z.id. reflexivity.
    + pose proof (residue_class_range T (Z.to_nat n) w
                    (nth j (residue_class T (Z.to_nat n) w) 0)
                    (nth_In _ _ Hj)). lia.
Qed.

(** X11: the assignment of the shapes to the windows.  With [T >= 1] windows
    and [n >= 0] records, and whatever [malloc] left in [mapIdx], the three
    loops stay inside their blocks, and window [w] then draws exactly the
    records whose index leaves the remainder [w] on division by [T], in
    increasing order; every read of [mapIdx] is of an entry written before,
    inside the block, and every index read is an index of [runtime].  So
    each record is drawn once per frame: record [i] by window [i mod T] and
    by no other. *)
Theorem windows_round_robin :
  forall (T n junk : Z),
    0 < T -> 0 <= n ->
    Mapping.fault (Mapping.assign T n junk) = false
    /\ (forall w, 0 <= w < T ->
          Mapping.draw_window n (Mapping.assign T n junk) w
          = (residue_class T (Z.to_nat n) w, false))
    /\ (forall i w, 0 <= w < T ->
          (In i (fst (Mapping.draw_window n (Mapping.assign T n junk) w))
           <-> 0 <= i < n /\ i mod T = w)).
Proof.
  intros T n junk HT Hn.
  destruct (assign_round_robin T n junk HT Hn) as [Hf Hd].
  split; [exact Hf |]. split; [exact Hd |].
  intros i w Hw. rewrite (Hd w Hw). cbn [fst].
  rewrite residue_class_In. rewrite Z2Nat.id by exact Hn. reflexivity.
Qed.

Lemma windows_round_robin_witness :
  Mapping.fault (Mapping.assign 2 5 (-7)) = false
  /\ (forall w, 0 <= w < 2 ->
        Mapping.draw_window 5 (Mapping.assign 2 5 (-7)) w
        = (residue_class 2 (Z.to_nat 5) w, false))
  /\ (forall i w, 0 <= w < 2 ->
        (In i (fst (Mapping.draw_window 5 (Mapping.assign 2 5 (-7)) w))
         <-> 0 <= i < 5 /\ i mod 2 = w)).
Proof. apply (windows_round_robin 2 5 (-7)); lia. Defined.

(** Five shapes on two windows: the second window draws shapes 1 and 3. *)
Lemma second_of_two_windows :
  Mapping.draw_window 5 (Mapping.assign 2 5 (-7)) 1 = ([1; 3], false).
Proof. vm_compute. reflexivity. Qed.

(** ** The monitors in use and their windows *)

Lemma how_many_ext :
  forall p q k,
    (forall i, 0 <= i < Z.of_nat k -> p i = q i) ->
    how_many p k = how_many q k.
Proof.
  intros p q k. induction k as [| k IH]; intros H; [reflexivity |].
  rewrite !how_many_S, IH by (intros i Hi; apply H; lia).
  rewrite (H (Z.of_nat k)) by lia. reflexivity.
Qed.

Lemma how_many_sub :
  forall p q k,
    (forall i, q i = true -> p i = true) -> how_many q k <= how_many p k.
Proof.
  intros p q k H. induction k as [| k IH]; [reflexivity |].
  rewrite !how_many_S. specialize (H (Z.of_nat k)).
  destruct (q (Z.of_nat k)), (p (Z.of_nat k));
    first [lia | discriminate (H eq_refl)].
Qed.

Lemma how_many_le :
  forall p k, how_many p k <= Z.of_nat k.
Proof.
  intros p k. induction k as [| k IH]; [reflexivity |].
  rewrite how_many_S. destruct (p (Z.of_nat k)); lia.
Qed.

Lemma how_many_none :
  forall k, how_many (fun _ => false) k = 0.
Proof.
  intros k. induction k as [| k IH]; [reflexivity |].
  rewrite how_many_S, IH. reflexivity.
Qed.

Lemma how_many_pos :
  forall p k i, 0 <= i < Z.of_nat k -> p i = true -> 1 <= how_many p k.
Proof.
  intros p k i Hi Hp.
  pose proof (how_many_mono p (S (Z.to_nat i)) k ltac:(lia)) as Hm.
  rewrite how_many_S, Z2Nat.id, Hp in Hm by lia.
  pose proof (how_many_nonneg p (Z.to_nat i)). lia.
Qed.

Lemma how_many_mark :
  forall p idx k,
    how_many (fun m => p m || (idx =? m)) k
    = how_many p k
      + (if (0 <=? idx) && (idx <? Z.of_nat k) && negb (p idx) then 1 else 0).
Proof.
  intros p idx k. induction k as [| k IH].
  - cbn. destruct (Z.leb_spec 0 idx); [| reflexivity].
    destruct (Z.ltb_spec idx 0); [lia | reflexivity].
  - rewrite !how_many_S, IH.
    destruct (Z.leb_spec 0 idx); cbn [andb];
      [| destruct (Z.eqb_spec idx (Z.of_nat k)); [lia |];
         rewrite orb_false_r; lia].
    destruct (Z.eqb_spec idx (Z.of_nat k)) as [-> | E].
    + destruct (Z.ltb_spec (Z.of_nat k) (Z.of_nat k)); [lia |].
      destruct (Z.ltb_spec (Z.of_nat k) (Z.of_nat (S k))); [| lia].
      destruct (p (Z.of_nat k)); cbn; lia.
    + rewrite orb_false_r.
      destruct (Z.ltb_spec idx (Z.of_nat k)),
               (Z.ltb_spec idx (Z.of_nat (S k))); try lia.
Qed.

Lemma need_fold :
  forall monCount items s P,
    0 < monCount ->
    List.length (Windows.need s) = Z.to_nat monCount ->
    (forall m, 0 <= m < monCount ->
       (peek m (Windows.need s) =? 0) = negb (P m)) ->
    Windows.unique s = how_many P (Z.to_nat monCount) ->
    Windows.need_fault s = false ->
    let Q := fun m =>
      P m || existsb (fun sc => clamp_monitor monCount (cfg_screen sc) =? m)
               items in
    let s' := fold_left (Windows.need_step monCount) items s in
    List.length (Windows.need s') = Z.to_nat monCount
    /\ (forall m, 0 <= m < monCount ->
          (peek m (Windows.need s') =? 0) = negb (Q m))
    /\ Windows.unique s' = how_many Q (Z.to_nat monCount)
    /\ Windows.need_fault s' = false.
Proof.
  intros monCount items. induction items as [| sc rest IH];
    intros s P HM Hl Hn Hu Hf; cbv zeta.
  - cbn [fold_left existsb]. repeat apply conj; try assumption.
    + intros m Hm. rewrite orb_false_r. apply Hn. exact Hm.
    + rewrite Hu. apply how_many_ext. intros i _.
      rewrite orb_false_r. reflexivity.
  - cbn [fold_left].
    pose proof (clamp_monitor_range monCount (cfg_screen sc) HM) as Hidx.
    set (idx := clamp_monitor monCount (cfg_screen sc)) in *.
    assert (Hin : in_block idx (Windows.need s) = true)
      by (apply in_block_spec; lia).
    pose proof (how_many_mark P idx (Z.to_nat monCount)) as Hmark.
    destruct (Z.leb_spec 0 idx); [| lia].
    destruct (Z.ltb_spec idx (Z.of_nat (Z.to_nat monCount))); [| lia].
    cbn [andb] in Hmark.
    destruct (IH (Windows.need_step monCount s sc)
                 (fun m => P m || (idx =? m)) HM) as (Hl' & Hn' & Hu' & Hf').
    + unfold Windows.need_step. fold idx.
      destruct (peek idx (Windows.need s) =? 0); cbn [Windows.need];
        [rewrite poke_length |]; exact Hl.
    + intros m Hm. unfold Windows.need_step. fold idx.
      pose proof (Hn idx Hidx) as Hi. pose proof (Hn m Hm) as Hnm.
      destruct (peek idx (Windows.need s) =? 0) eqn:E; cbn [Windows.need].
      * destruct (Z.eqb_spec idx m) as [<- | Ne].
        -- rewrite peek_poke_same by exact Hin. rewrite orb_true_r.
           reflexivity.
        -- rewrite peek_poke_other by lia. rewrite orb_false_r. exact Hnm.
      * destruct (Z.eqb_spec idx m) as [<- | Ne].
        -- rewrite E, orb_true_r. reflexivity.
        -- rewrite orb_false_r. exact Hnm.
    + unfold Windows.need_step. fold idx. pose proof (Hn idx Hidx) as Hi.
      destruct (peek idx (Windows.need s) =? 0) eqn:E; cbn [Windows.unique];
        destruct (P idx); try discriminate Hi; cbn [negb] in Hmark; lia.
    + unfold Windows.need_step. fold idx.
      destruct (peek idx (Windows.need s) =? 0); cbn [Windows.need_fault];
        rewrite Hf, Hin; reflexivity.
    + repeat apply conj.
      * exact Hl'.
      * intros m Hm. rewrite (Hn' m Hm). cbn [existsb]. fold idx.
        rewrite orb_assoc. reflexivity.
      * rewrite Hu'. apply how_many_ext. intros i _. cbn [existsb]. fold idx.
        rewrite orb_assoc. reflexivity.
      * exact Hf'.
Qed.

Lemma needed_spec :
  forall monCount items,
    0 < monCount ->
    let s := Windows.needed monCount items in
    List.length (Windows.need s) = Z.to_nat monCount
    /\ (forall m, 0 <= m < monCount ->
          (peek m (Windows.need s) =? 0) = negb (wanted monCount items m))
    /\ Windows.unique s = how_many (wanted monCount items) (Z.to_nat monCount)
    /\ Windows.need_fault s = false.
Proof.
  intros monCount items HM. cbv zeta. unfold Windows.needed, Windows.need_loop.
  destruct (need_fold monCount items
              {| Windows.need := calloc monCount; Windows.unique := 0;
                 Windows.need_fault := false |} (fun _ => false) HM)
    as (Hl & Hn & Hu & Hf).
  { apply calloc_length. }
  { intros m _. cbn [Windows.need]. rewrite peek_calloc. reflexivity. }
  { cbn [Windows.unique]. rewrite how_many_none. reflexivity. }
  { reflexivity. }
  cbn [orb] in Hn, Hu.
  set (s := fold_left _ _ _) in *.
  destruct items as [| sc rest].
  - cbn [existsb] in Hu. rewrite how_many_none in Hu. rewrite Hu.
    cbn [Z.eqb Windows.need Windows.unique Windows.need_fault].
    assert (Hin : in_block 0 (Windows.need s) = true)
      by (apply in_block_spec; lia).
    repeat apply conj.
    + rewrite poke_length. exact Hl.
    + intros m Hm. unfold wanted.
      destruct (Z.eqb_spec m 0) as [-> | Ne].
      * rewrite peek_poke_same by exact Hin. reflexivity.
      * rewrite peek_poke_other by lia. rewrite (Hn m Hm). reflexivity.
    + pose proof (how_many_mark (fun _ => false) 0 (Z.to_nat monCount)) as Hm.
      rewrite how_many_none in Hm.
      destruct (Z.ltb_spec 0 (Z.of_nat (Z.to_nat monCount))); [| lia].
      cbn in Hm. rewrite <- Hm. apply how_many_ext. intros i _.
      unfold wanted. destruct i; reflexivity.
    + rewrite Hf, Hin. reflexivity.
  - assert (Hpos : 1 <= Windows.unique s).
    { rewrite Hu.
      apply (how_many_pos _ _ (clamp_monitor monCount (cfg_screen sc))).
      - pose proof (clamp_monitor_range monCount (cfg_screen sc) HM). lia.
      - cbn [existsb]. rewrite Z.eqb_refl. reflexivity. }
    destruct (Z.eqb_spec (Windows.unique s) 0); [lia |].
    repeat apply conj; assumption.
Qed.

Lemma firstn_poke_next :
  forall (l : list Z) (i x : Z),
    in_block i l = true ->
    firstn (Z.to_nat (i + 1)) (poke i x l) = firstn (Z.to_nat i) l ++ [x].
Proof.
  intros l i x H. unfold poke. rewrite H. apply in_block_spec in H.
  replace (Z.to_nat (i + 1)) with (S (Z.to_nat i)) by lia.
  assert (Hi : (Z.to_nat i < List.length l)%nat) by lia.
  clear H. revert l Hi. generalize (Z.to_nat i) as k.
  induction k as [| k IH]; intros [| y l] Hl; cbn in Hl; try lia.
  - reflexivity.
  - cbn [poke_nat firstn app]. f_equal. apply IH. lia.
Qed.

Lemma firstn_poke_later :
  forall (l : list Z) (i x : Z) (k : nat),
    (k <= Z.to_nat i)%nat -> firstn k (poke i x l) = firstn k l.
Proof.
  intros l i x k H. unfold poke. destruct (in_block i l); [| reflexivity].
  revert l k H. generalize (Z.to_nat i) as j.
  induction j as [| j IH]; intros [| y l] k H.
  - reflexivity.
  - replace k with O by lia. reflexivity.
  - reflexivity.
  - destruct k; [reflexivity |]. cbn [poke_nat firstn]. f_equal.
    apply IH. lia.
Qed.

Lemma window_loop :
  forall creates need0 U p k,
    (forall m, 0 <= m < Z.of_nat k -> (peek m need0 =? 0) = negb (p m)) ->
    (k <= List.length need0)%nat ->
    0 <= U -> how_many p k <= U ->
    let c := for_loop 0 k (Windows.window_step creates need0)
               {| Windows.arr := calloc U; Windows.wi := 0;
                  Windows.arr_fault := false |} in
    List.length (Windows.arr c) = Z.to_nat U
    /\ Windows.wi c = how_many (fun m => p m && creates m) k
    /\ firstn (Z.to_nat (Windows.wi c)) (Windows.arr c)
       = filter (fun m => p m && creates m) (map Z.of_nat (seq 0 k))
    /\ Windows.arr_fault c = false.
Proof.
  intros creates need0 U p k. induction k as [| k IH];
    intros Hn Hk HU Hp; cbv zeta.
  - cbn. repeat apply conj; try reflexivity. apply calloc_length.
  - rewrite for_loop_snoc, Z.add_0_l.
    rewrite how_many_S in Hp.
    destruct IH as (Hl & Hw & Hfirst & Hf).
    { intros m Hm. apply Hn. lia. }
    { lia. }
    { exact HU. }
    { destruct (p (Z.of_nat k)); lia. }
    set (c := for_loop 0 k _ _) in *.
    pose proof (Hn (Z.of_nat k) ltac:(lia)) as Hnk.
    assert (Hin : in_block (Z.of_nat k) need0 = true)
      by (apply in_block_spec; lia).
    pose proof (how_many_sub p (fun m => p m && creates m) k) as Hsub.
    specialize (Hsub ltac:(intros i Hi; apply andb_true_iff in Hi; tauto)).
    pose proof (how_many_nonneg (fun m => p m && creates m) k) as H0.
    unfold Windows.window_step.
    rewrite how_many_S, seq_S, map_app, filter_app. cbn [map filter Nat.add].
    destruct (peek (Z.of_nat k) need0 =? 0).
    + destruct (p (Z.of_nat k)); [discriminate Hnk |].
      cbn [Windows.arr Windows.wi Windows.arr_fault andb].
      rewrite Z.add_0_r, app_nil_r, Hf, Hin. repeat apply conj; auto.
    + destruct (p (Z.of_nat k)); [| discriminate Hnk]. cbn [andb].
      destruct (creates (Z.of_nat k)).
      * cbn [Windows.arr Windows.wi Windows.arr_fault].
        assert (Hin2 : in_block (Windows.wi c) (Windows.arr c) = true)
          by (apply in_block_spec; lia).
        rewrite Hf, Hin, Hin2. repeat apply conj.
        -- rewrite poke_length. exact Hl.
        -- rewrite Hw. reflexivity.
        -- rewrite firstn_poke_next by exact Hin2. rewrite Hfirst.
           reflexivity.
        -- reflexivity.
      * cbn [Windows.arr Windows.wi Windows.arr_fault].
        rewrite Z.add_0_r, app_nil_r, Hf, Hin. repeat apply conj; auto.
Qed.

Lemma create_windows_spec :
  forall creates monCount items,
    0 < monCount ->
    let s := Windows.needed monCount items in
    let c := Windows.create_windows creates monCount s in
    1 <= Windows.unique s <= monCount
    /\ Windows.arr_fault c = false
    /\ 0 <= Windows.wi c <= Windows.unique s
    /\ Windows.wi c
       = how_many (fun m => wanted monCount items m && creates m)
           (Z.to_nat monCount)
    /\ firstn (Z.to_nat (Windows.wi c)) (Windows.arr c)
       = filter (fun m => wanted monCount items m && creates m)
           (map Z.of_nat (seq 0 (Z.to_nat monCount))).
Proof.
  intros creates monCount items HM. cbv zeta.
  destruct (needed_spec monCount items HM) as (Hl & Hn & Hu & Hf).
  set (s := Windows.needed monCount items) in *.
  assert (Hu1 : 1 <= Windows.unique s <= monCount).
  { rewrite Hu. split.
    - destruct items as [| sc rest].
      + apply (how_many_pos _ _ 0); [lia | reflexivity].
      + apply (how_many_pos _ _ (clamp_monitor monCount (cfg_screen sc))).
        * pose proof (clamp_monitor_range monCount (cfg_screen sc) HM). lia.
        * cbn [wanted existsb]. rewrite Z.eqb_refl. reflexivity.
    - pose proof (how_many_le (wanted monCount items) (Z.to_nat monCount)).
      lia. }
  unfold Windows.create_windows, for_range. rewrite Z.sub_0_r.
  destruct (window_loop creates (Windows.need s) (Windows.unique s)
              (wanted monCount items) (Z.to_nat monCount))
    as (Hla & Hw & Hfirst & Hfa).
  { intros m Hm. apply Hn. lia. }
  { lia. }
  { lia. }
  { lia. }
  set (c := for_loop 0 (Z.to_nat monCount) _ _) in *.
  pose proof (how_many_sub (wanted monCount items)
                (fun m => wanted monCount items m && creates m)
                (Z.to_nat monCount)
                ltac:(intros i Hi; apply andb_true_iff in Hi; tauto)) as Hsub.
  pose proof (how_many_nonneg (fun m => wanted monCount items m && creates m)
                (Z.to_nat monCount)) as H0.
  repeat apply conj; try assumption; lia.
Qed.

Lemma main_windows_cases :
  forall creates monCount items,
    0 < monCount ->
    match Windows.main_windows creates monCount items with
    | Some ws =>
        ws <> []
        /\ ws = filter (fun m => wanted monCount items m && creates m)
                  (map Z.of_nat (seq 0 (Z.to_nat monCount)))
    | None =>
        forall m, 0 <= m < monCount ->
          wanted monCount items m = true -> creates m = false
    end.
Proof.
  intros creates monCount items HM.
  destruct (create_windows_spec creates monCount items HM)
    as (_ & _ & _ & Hw & Hfirst).
  unfold Windows.main_windows.
  destruct (Z.leb_spec monCount 0); [lia |].
  set (c := Windows.create_windows creates monCount _) in *.
  destruct (Z.eqb_spec (Windows.wi c) 0) as [E | E].
  - intros m Hm Hwant. destruct (creates m) eqn:Hc; [| reflexivity].
    assert (1 <= how_many (fun m => wanted monCount items m && creates m)
                   (Z.to_nat monCount)).
    { apply (how_many_pos _ _ m); [lia |]. rewrite Hwant, Hc. reflexivity. }
    lia.
  - split; [| exact Hfirst].
    intros Hnil. rewrite Hfirst in Hnil.
    unfold how_many in Hw. rewrite Hnil in Hw. cbn in Hw. lia.
Qed.

(** X12: the windows of [main], for at least one monitor and whatever
    [glfwCreateWindow] answers.  The flags in [need] mark exactly the
    monitors that are the clamped screen of some record (monitor 0 when
    there is no record); [unique] is their number, between 1 and
    [monCount]; the loop that creates the windows stays inside the block of
    [unique] windows; and [main] goes on to the render loop with one window
    for each marked monitor on which the creation succeeded, in the order of
    the monitors, which is then at least one window, or returns 1 when the
    creation failed on every marked monitor. *)
Theorem main_windows_by_monitor :
  forall (creates : Z -> bool) (monCount : Z) (items : list ShapeConfig),
    0 < monCount ->
    let s := Windows.needed monCount items in
    let c := Windows.create_windows creates monCount s in
    Windows.need_fault s = false
    /\ Windows.arr_fault c = false
    /\ (forall m, 0 <= m < monCount ->
          (peek m (Windows.need s) =? 0) = negb (wanted monCount items m))
    /\ Windows.unique s = how_many (wanted monCount items) (Z.to_nat monCount)
    /\ 1 <= Windows.unique s <= monCount
    /\ 0 <= Windows.wi c <= Windows.unique s
    /\ match Windows.main_windows creates monCount items with
       | Some ws =>
           ws <> []
           /\ ws = filter (fun m => wanted monCount items m && creates m)
                     (map Z.of_nat (seq 0 (Z.to_nat monCount)))
       | None =>
           forall m, 0 <= m < monCount ->
             wanted monCount items m = true -> creates m = false
       end.
Proof.
  intros creates monCount items HM. cbv zeta.
  destruct (needed_spec monCount items HM) as (Hl & Hn & Hu & Hf).
  destruct (create_windows_spec creates monCount items HM)
    as (Hu1 & Hfa & Hwi & _ & _).
  pose proof (main_windows_cases creates monCount items HM) as Hcases.
  repeat apply conj; try assumption; lia.
Qed.

Lemma main_windows_by_monitor_witness :
  0 < 3
  /\ Windows.need_fault (Windows.needed 3 three_records) = false
  /\ Windows.arr_fault
       (Windows.create_windows all_but_first 3 (Windows.needed 3 three_records))
     = false.
Proof.
  pose proof (main_windows_by_monitor all_but_first 3 three_records
                ltac:(lia)) as H.
  cbv zeta in H. split; [lia |]. split; [exact (proj1 H) |].
  exact (proj1 (proj2 H)).
Defined.

(** Records for the screens 7, -2 and 7 on three monitors, the window of the
    first monitor failing: one window, on the last monitor. *)
Lemma three_records_windows :
  Windows.main_windows all_but_first 3 three_records = Some [2].
Proof. vm_compute. reflexivity. Qed.

(** X15: [load_ini] never returns an empty list, so on the list [main] gets
    from it the loop over the records leaves [unique] at 1 or more, and the
    fallback [if(unique==0)] changes nothing. *)
Theorem load_ini_feeds_main :
  forall (file : option string) (monCount : Z),
    0 < monCount ->
    load_ini file <> []
    /\ 1 <= Windows.unique (Windows.need_loop monCount (load_ini file))
    /\ Windows.needed monCount (load_ini file)
       = Windows.need_loop monCount (load_ini file).
Proof.
  intros file monCount HM.
  assert (Hne : load_ini file <> []).
  { unfold load_ini. destruct file as [f |]; [| discriminate].
    destruct (collect (fgets_lines f)); discriminate. }
  split; [exact Hne |].
  assert (Hu : 1 <= Windows.unique (Windows.need_loop monCount (load_ini file))).
  { destruct (load_ini file) as [| sc rest]; [congruence |].
    unfold Windows.need_loop.
    destruct (need_fold monCount (sc :: rest)
                {| Windows.need := calloc monCount; Windows.unique := 0;
                   Windows.need_fault := false |} (fun _ => false) HM)
      as (_ & _ & Hu & _).
    - apply calloc_length.
    - intros m _. cbn [Windows.need]. rewrite peek_calloc. reflexivity.
    - cbn [Windows.unique]. rewrite how_many_none. reflexivity.
    - reflexivity.
    - rewrite Hu.
      apply (how_many_pos _ _ (clamp_monitor monCount (cfg_screen sc))).
      + pose proof (clamp_monitor_range monCount (cfg_screen sc) HM). lia.
      + cbn [orb existsb]. rewrite Z.eqb_refl. reflexivity. }
  split; [exact Hu |].
  unfold Windows.needed.
  destruct (Z.eqb_spec (Windows.unique (Windows.need_loop monCount (load_ini file))) 0);
    [lia | reflexivity].
Qed.

Lemma load_ini_feeds_main_witness :
  load_ini None <> []
  /\ 1 <= Windows.unique (Windows.need_loop 1 (load_ini None))
  /\ Windows.needed 1 (load_ini None) = Windows.need_loop 1 (load_ini None).
Proof. exact (load_ini_feeds_main None 1 ltac:(lia)). Defined.

(** ** Well-formed lines *)

Lemma has_char_append :
  forall d s t, has_char d (s ++ t) = has_char d s || has_char d t.
Proof.
  intros d s t. induction s as [| c s IH]; cbn [append has_char]; [reflexivity |].
  rewrite IH, orb_assoc. reflexivity.
Qed.

Lemma all_plain_has_char :
  forall d s, plain_char d = false -> all_plain s = true -> has_char d s = false.
Proof.
  intros d s Hd. induction s as [| c s IH]; cbn [all_plain has_char];
    intros H; [reflexivity |].
  apply andb_true_iff in H. destruct H as [Hc Hs]. rewrite (IH Hs), orb_false_r.
  destruct (Ascii.eqb_spec c d) as [-> | Ne]; [congruence | reflexivity].
Qed.

Lemma plain_inv :
  forall s, plain s = true ->
    all_plain s = true
    /\ exists c s', s = String c s' /\ plain_char c = true.
Proof.
  intros [| c s] H; [discriminate H |]. cbn [plain] in H. split; [exact H |].
  exists c, s. split; [reflexivity |].
  cbn [all_plain] in H. apply andb_true_iff in H. tauto.
Qed.

Lemma c_str_fixed :
  forall s, has_char NUL s = false -> c_str s = s.
Proof.
  induction s as [| c s IH]; cbn [has_char c_str]; intros H; [reflexivity |].
  apply orb_false_iff in H. destruct H as [Hc Hs].
  rewrite Hc, (IH Hs). reflexivity.
Qed.

Lemma last_char_cons :
  forall c s, s <> EmptyString -> last_char (String c s) = last_char s.
Proof. intros c [| c' s] H; [congruence | reflexivity]. Qed.

Lemma last_char_append :
  forall s t, t <> EmptyString -> last_char (s ++ t) = last_char t.
Proof.
  intros s t Ht. induction s as [| c s IH]; cbn [append]; [reflexivity |].
  rewrite last_char_cons; [exact IH |].
  destruct s; cbn [append]; [exact Ht | discriminate].
Qed.

Lemma strip_trail_fixed :
  forall s l, last_char s = Some l -> is_trail_ws l = false -> strip_trail s = s.
Proof.
  induction s as [| c s IH]; intros l Hl Hw; [discriminate Hl |].
  cbn [strip_trail]. destruct s as [| c' s].
  - cbn in Hl |- *. injection Hl as ->. rewrite Hw. reflexivity.
  - rewrite (IH l); [reflexivity | exact Hl | exact Hw].
Qed.

Lemma all_plain_last :
  forall s l, all_plain s = true -> last_char s = Some l -> plain_char l = true.
Proof.
  induction s as [| c s IH]; intros l Hp Hl; [discriminate Hl |].
  cbn [all_plain] in Hp. apply andb_true_iff in Hp. destruct Hp as [Hc Hs].
  destruct s as [| c' s].
  - cbn in Hl. injection Hl as <-. exact Hc.
  - exact (IH l Hs Hl).
Qed.

Lemma plain_char_not_ws :
  forall c, plain_char c = true -> is_trail_ws c = false /\ is_lead_ws c = false.
Proof.
  intros c H. unfold plain_char in H. apply negb_true_iff in H.
  repeat (apply orb_false_iff in H; destruct H as [H ?]).
  split; [assumption |].
  unfold is_trail_ws in *. unfold is_lead_ws.
  match goal with
  | Hw : _ || Ascii.eqb c LF = false |- _ =>
      apply orb_false_iff in Hw; exact (proj1 Hw)
  end.
Qed.

Lemma last_char_some :
  forall c s, exists l, last_char (String c s) = Some l.
Proof.
  intros c s. revert c. induction s as [| c' s IH]; intros c.
  - exists c. reflexivity.
  - destruct (IH c') as [l Hl]. exists l. exact Hl.
Qed.

Lemma trim_plain : forall s, plain s = true -> trim s = s.
Proof.
  intros s H. destruct (plain_inv s H) as (Ha & c & s' & -> & Hc).
  unfold trim. cbn [skip_lead].
  rewrite (proj2 (plain_char_not_ws c Hc)).
  destruct (last_char_some c s') as [l Hl].
  apply (strip_trail_fixed _ l Hl).
  exact (proj1 (plain_char_not_ws l (all_plain_last _ l Ha Hl))).
Qed.

Lemma unquote_plain : forall s, plain s = true -> unquote s = s.
Proof.
  intros s H. destruct (plain_inv s H) as (_ & c & s' & -> & Hc).
  unfold unquote.
  destruct (Ascii.eqb_spec c DQUOTE) as [-> | Ne]; [discriminate Hc | reflexivity].
Qed.

Lemma strchr_skip :
  forall d s t,
    has_char d s = false ->
    strchr (s ++ t) d
    = match strchr t d with
      | Some k => Some (String.length s + k)%nat
      | None => None
      end.
Proof.
  intros d s t. induction s as [| c s IH]; cbn [has_char append strchr String.length];
    intros H.
  - destruct (strchr t d); reflexivity.
  - apply orb_false_iff in H. destruct H as [Hc Hs].
    rewrite Hc, (IH Hs). destruct (strchr t d); reflexivity.
Qed.

Lemma take_append :
  forall s t, take (String.length s) (s ++ t) = s.
Proof.
  induction s as [| c s IH]; intros t; cbn [String.length append take].
  - destruct t; reflexivity.
  - rewrite IH. reflexivity.
Qed.

Lemma drop_append :
  forall s t, drop (String.length s) (s ++ t) = t.
Proof.
  induction s as [| c s IH]; intros t; cbn [String.length append drop].
  - destruct t; reflexivity.
  - apply IH.
Qed.

Lemma split_token_append :
  forall d s r,
    has_char d s = false -> split_token d (s ++ String d r) = (s, r).
Proof.
  intros d s r. induction s as [| c s IH]; cbn [has_char append split_token];
    intros H.
  - rewrite Ascii.eqb_refl. reflexivity.
  - apply orb_false_iff in H. destruct H as [Hc Hs].
    rewrite Hc, (IH Hs). reflexivity.
Qed.

Lemma split_token_whole :
  forall d s, has_char d s = false -> split_token d s = (s, EmptyString).
Proof.
  intros d s. induction s as [| c s IH]; cbn [has_char split_token]; intros H.
  - reflexivity.
  - apply orb_false_iff in H. destruct H as [Hc Hs].
    rewrite Hc, (IH Hs). reflexivity.
Qed.

Lemma strtok_first :
  forall d s r,
    s <> EmptyString -> has_char d s = false ->
    strtok d (s ++ String d r) = Some (s, r).
Proof.
  intros d [| c s] r Hne H; [congruence |].
  unfold strtok. cbn [append skip_delim].
  pose proof H as H'. cbn [has_char] in H'. apply orb_false_iff in H'.
  rewrite (proj1 H').
  change (String c (s ++ String d r)) with (String c s ++ String d r)%string.
  rewrite (split_token_append d (String c s) r H). reflexivity.
Qed.

Lemma strtok_last :
  forall d s,
    s <> EmptyString -> has_char d s = false ->
    strtok d s = Some (s, EmptyString).
Proof.
  intros d [| c s] Hne H; [congruence |].
  unfold strtok. cbn [skip_delim].
  pose proof H as H'. cbn [has_char] in H'. apply orb_false_iff in H'.
  rewrite (proj1 H'), (split_token_whole d (String c s) H). reflexivity.
Qed.

Lemma length_append :
  forall s t, String.length (s ++ t) = (String.length s + String.length t)%nat.
Proof.
  induction s as [| c s IH]; intros t; cbn [append String.length];
    [reflexivity | rewrite IH; reflexivity].
Qed.

Lemma plain_char_marks :
  forall c, plain_char c = true ->
    Ascii.eqb c NUL = false /\ Ascii.eqb c EQUALS = false
    /\ Ascii.eqb c LBRACKET = false /\ Ascii.eqb c RBRACKET = false
    /\ Ascii.eqb c COMMA = false /\ Ascii.eqb c DQUOTE = false
    /\ Ascii.eqb c HASH = false.
Proof.
  intros c H. unfold plain_char in H. apply negb_true_iff in H.
  repeat (apply orb_false_iff in H; destruct H as [H ?]).
  repeat apply conj; assumption.
Qed.

Lemma raw_field_inv :
  forall x, raw_field x = true ->
    x <> EmptyString /\ has_char NUL x = false /\ has_char COMMA x = false
    /\ has_char RBRACKET x = false.
Proof.
  intros [| c x] H; [discriminate H |]. cbn [raw_field] in H.
  apply negb_true_iff in H.
  apply orb_false_iff in H. destruct H as [H H3].
  apply orb_false_iff in H. destruct H as [H1 H2].
  repeat apply conj; try assumption. discriminate.
Qed.

Lemma split_line_raw :
  forall lhs a b c c0 lhs',
    lhs = String c0 lhs' ->
    is_lead_ws c0 = false -> Ascii.eqb c0 HASH = false ->
    has_char NUL lhs = false -> has_char EQUALS lhs = false ->
    raw_field a = true -> raw_field b = true -> raw_field c = true ->
    (String.length lhs <= 63)%nat ->
    (String.length (field_list a b c) <= 255)%nat ->
    split_line (format_line lhs a b c)
    = S_fields lhs (unquote (trim a)) (unquote (trim b)) (unquote (trim c)).
Proof.
  intros lhs a b c c0 lhs' El Hws Hhash Hlnul Hleq Ha Hb Hc Hl63 Hl255.
  destruct (raw_field_inv a Ha) as (Na & Za & Ca & Ra).
  destruct (raw_field_inv b Hb) as (Nb & Zb & Cb & Rb).
  destruct (raw_field_inv c Hc) as (Nc & Zc & Cc & Rc).
  assert (Htok1 : strtok COMMA (field_list a b c)
                  = Some (a, String " " (b ++ String "," (String " " c)))).
  { exact (strtok_first COMMA a _ Na Ca). }
  assert (Htok2 : strtok COMMA (String " " (b ++ String "," (String " " c)))
                  = Some (String " " b, String " " c)).
  { apply (strtok_first COMMA (String " " b) (String " " c)); [discriminate |].
    cbn [has_char]. rewrite Cb. reflexivity. }
  assert (Htok3 : strtok COMMA (String " " c)
                  = Some (String " " c, EmptyString)).
  { apply strtok_last; [discriminate |].
    cbn [has_char]. rewrite Cc. reflexivity. }
  assert (HInul : has_char NUL (field_list a b c) = false).
  { unfold field_list. rewrite !has_char_append. cbn [append has_char].
    rewrite Za, Zb, Zc. reflexivity. }
  assert (HIrb : has_char RBRACKET (field_list a b c) = false).
  { unfold field_list. rewrite !has_char_append. cbn [append has_char].
    rewrite Ra, Rb, Rc. reflexivity. }
  set (I := field_list a b c) in *.
  set (tail := String "=" (String "[" (I ++ "]"))).
  assert (EL : format_line lhs a b c = (lhs ++ tail)%string) by reflexivity.
  clearbody I.
  assert (Hnul : has_char NUL (lhs ++ tail) = false).
  { rewrite has_char_append, Hlnul.
    unfold tail. cbn [has_char]. rewrite has_char_append, HInul. reflexivity. }
  assert (Hlast : last_char (lhs ++ tail) = Some "]"%char).
  { rewrite last_char_append by discriminate. unfold tail.
    rewrite !last_char_cons, last_char_append; try discriminate;
      try reflexivity.
    destruct I; discriminate. }
  assert (Hp : trim (c_str (lhs ++ tail)) = (lhs ++ tail)%string).
  { rewrite (c_str_fixed _ Hnul). unfold trim.
    rewrite skip_lead_fixed.
    - apply (strip_trail_fixed _ _ Hlast). reflexivity.
    - rewrite El. cbn [append]. exact Hws. }
  assert (Heq : strchr (lhs ++ tail) EQUALS = Some (String.length lhs)).
  { rewrite strchr_skip by exact Hleq.
    unfold tail. cbn [strchr].
    change (Ascii.eqb "=" EQUALS) with true. cbv iota.
    rewrite Nat.add_0_r. reflexivity. }
  assert (Hlb : strchr tail LBRACKET = Some 1%nat) by reflexivity.
  assert (Hrb : strchr tail RBRACKET = Some (S (S (String.length I)))).
  { unfold tail. cbn [strchr].
    change (Ascii.eqb "=" RBRACKET) with false.
    change (Ascii.eqb "[" RBRACKET) with false. cbv iota.
    rewrite (strchr_skip RBRACKET I _ HIrb). cbn [strchr].
    change (Ascii.eqb "]" RBRACKET) with true. cbv iota.
    rewrite Nat.add_0_r. reflexivity. }
  unfold split_line. rewrite EL, Hp.
  rewrite El at 1. cbn [append]. rewrite Hhash.
  rewrite Heq, drop_append, Hlb, Hrb.
  change (S (S (String.length I)) <? 1)%nat with false. cbv iota.
  replace (Nat.min (S (S (String.length I)) - 1 - 1) 255)
    with (String.length I) by lia.
  change (drop (1 + 1) tail) with (I ++ "]")%string.
  rewrite take_append, Htok1, Htok2, Htok3.
  rewrite Nat.min_l by exact Hl63. rewrite take_append.
  reflexivity.
Qed.

Lemma plain_raw_field : forall x, plain x = true -> raw_field x = true.
Proof.
  intros x H. destruct (plain_inv x H) as (P & c & x' & -> & _).
  cbn [raw_field]. fold (has_char NUL (String c x')).
  rewrite (all_plain_has_char NUL _ eq_refl P),
    (all_plain_has_char COMMA _ eq_refl P),
    (all_plain_has_char RBRACKET _ eq_refl P). reflexivity.
Qed.

Lemma split_line_fields :
  forall lhs a b c c0 lhs',
    lhs = String c0 lhs' ->
    is_lead_ws c0 = false -> Ascii.eqb c0 HASH = false ->
    has_char NUL lhs = false -> has_char EQUALS lhs = false ->
    plain a = true -> plain b = true -> plain c = true ->
    (String.length lhs <= 63)%nat ->
    (String.length (field_list a b c) <= 255)%nat ->
    split_line (format_line lhs a b c) = S_fields lhs a b c.
Proof.
  intros lhs a b c c0 lhs' El Hws Hhash Hlnul Hleq Ha Hb Hc Hl63 Hl255.
  rewrite (split_line_raw lhs a b c c0 lhs' El Hws Hhash Hlnul Hleq
             (plain_raw_field a Ha) (plain_raw_field b Hb)
             (plain_raw_field c Hc) Hl63 Hl255).
  rewrite (trim_plain a Ha), (trim_plain b Hb), (trim_plain c Hc).
  rewrite (unquote_plain a Ha), (unquote_plain b Hb), (unquote_plain c Hc).
  reflexivity.
Qed.

Lemma split_line_format :
  forall lhs a b c,
    plain lhs = true -> plain a = true -> plain b = true -> plain c = true ->
    (String.length lhs <= 63)%nat ->
    (String.length (field_list a b c) <= 255)%nat ->
    split_line (format_line lhs a b c) = S_fields lhs a b c.
Proof.
  intros lhs a b c Hlhs Ha Hb Hc Hl63 Hl255.
  destruct (plain_inv lhs Hlhs) as (Pl & c0 & lhs' & El & Hc0).
  apply (split_line_fields lhs a b c c0 lhs' El); try assumption.
  - exact (proj2 (plain_char_not_ws c0 Hc0)).
  - apply (plain_char_marks c0 Hc0).
  - apply all_plain_has_char; [reflexivity | exact Pl].
  - apply all_plain_has_char; [reflexivity | exact Pl].
Qed.

(** X13: a line in the expected format gives its record.  When the
    left-hand side and the first two fields are plain words that match, in
    any letter case, entries of the three name tables, and the third field
    is any plain word, the line [SHAPE=[COLOR, POSITION, SCREEN]] is parsed
    into the record of the three enumerators with those indices, with the
    screen [atoi] makes of the third field, an [int]. *)
Theorem parse_line_well_formed :
  forall (lhs a b c : string) (i j k : nat) (ns nc np : string),
    plain lhs = true -> plain a = true -> plain b = true -> plain c = true ->
    (String.length lhs <= 63)%nat ->
    (String.length (field_list a b c) <= 255)%nat ->
    nth_error SHAPE_NAMES i = Some ns -> ieq lhs ns = true ->
    nth_error COLOR_NAMES j = Some nc -> ieq a nc = true ->
    nth_error POS_NAMES k = Some np -> ieq b np = true ->
    parse_line (format_line lhs a b c)
    = L_record {| cfg_shape := ShapeKind_of_int (Z.of_nat i);
                  cfg_color := ColorKind_of_int (Z.of_nat j);
                  cfg_pos := Anchor_of_int (Z.of_nat k);
                  cfg_screen := atoi c |}
    /\ INT_MIN <= atoi c <= INT_MAX.
Proof.
  intros lhs a b c i j k ns nc np Hlhs Ha Hb Hc Hl63 Hl255
         Hi Hsi Hj Hsj Hk Hsk.
  split; [| apply atoi_int].
  unfold parse_line.
  rewrite (split_line_format lhs a b c Hlhs Ha Hb Hc Hl63 Hl255).
  unfold parse_shape, parse_color, parse_pos.
  rewrite (find_name_distinct SHAPE_NAMES 0 lhs i ns eq_refl Hi Hsi).
  rewrite (find_name_distinct COLOR_NAMES 0 a j nc eq_refl Hj Hsj).
  rewrite (find_name_distinct POS_NAMES 0 b k np eq_refl Hk Hsk).
  cbv zeta. rewrite !Z.add_0_l.
  destruct (Z.ltb_spec (Z.of_nat i) 0); [lia |].
  destruct (Z.ltb_spec (Z.of_nat j) 0); [lia |].
  destruct (Z.ltb_spec (Z.of_nat k) 0); [lia |].
  reflexivity.
Qed.

Lemma parse_line_well_formed_witness :
  parse_line (format_line "torus" "Pink" "top-left" "2")
  = L_record {| cfg_shape := SH_TORUS; cfg_color := COL_PINK;
                cfg_pos := POS_TL; cfg_screen := 2 |}.
Proof.
  exact (proj1 (parse_line_well_formed "torus" "Pink" "top-left" "2" 3 5 0
                  "TORUS" "PINK" "TOP-LEFT"
                  eq_refl eq_refl eq_refl eq_refl
                  ltac:(cbn; lia) ltac:(cbn; lia)
                  eq_refl eq_refl eq_refl eq_refl eq_refl eq_refl)).
Defined.

(** A screen field beyond [int] is plain as well: the record holds what
    [atoi] makes of it. *)
Lemma screen_beyond_int :
  parse_line (format_line "CUBE" "RED" "CENTER" "2147483648")
  = L_record {| cfg_shape := SH_CUBE; cfg_color := COL_RED;
                cfg_pos := POS_C; cfg_screen := INT_MIN |}.
Proof. vm_compute. reflexivity. Qed.

Lemma ieq_last_char :
  forall s n,
    ieq s n = true ->
    option_map upper (last_char s) = option_map upper (last_char n).
Proof.
  induction s as [| cs s IH]; intros [| cn n] H; cbn [ieq] in H;
    try discriminate H; [reflexivity |].
  destruct (Ascii.eqb_spec (upper cs) (upper cn)) as [E | _];
    [| discriminate H].
  destruct s as [| cs' s], n as [| cn' n].
  - cbn. rewrite E. reflexivity.
  - discriminate H.
  - cbn [ieq] in H. discriminate H.
  - exact (IH _ H).
Qed.

Lemma blank_end_no_shape :
  forall lhs, parse_shape (lhs ++ " ") = -1.
Proof.
  intros lhs. unfold parse_shape.
  destruct (find_name_first SHAPE_NAMES 0 (lhs ++ " ") ltac:(lia))
    as [[H _] | (k & n & _ & Hn & Hs & _)]; [exact H |].
  exfalso. apply ieq_last_char in Hs.
  rewrite last_char_append in Hs by discriminate.
  apply nth_error_In in Hn.
  cbn in Hn. decompose [or] Hn; subst; try discriminate Hs; contradiction.
Qed.

(** X14: the left-hand side is taken as it stands, without the trimming the
    three fields get: a blank between the shape name and the equals sign
    makes the line invalid, whatever the name and the fields. *)
Theorem blank_before_equals_refused :
  forall (lhs a b c : string),
    plain lhs = true -> plain a = true -> plain b = true -> plain c = true ->
    (String.length lhs <= 62)%nat ->
    (String.length (field_list a b c) <= 255)%nat ->
    parse_line (format_line (lhs ++ " ") a b c) = L_invalid_tokens.
Proof.
  intros lhs a b c Hlhs Ha Hb Hc Hl62 Hl255.
  destruct (plain_inv lhs Hlhs) as (Pl & c0 & lhs' & El & Hc0).
  unfold parse_line.
  rewrite (split_line_fields (lhs ++ " ") a b c c0 (lhs' ++ " ")); try assumption.
  - rewrite blank_end_no_shape. reflexivity.
  - rewrite El. reflexivity.
  - exact (proj2 (plain_char_not_ws c0 Hc0)).
  - apply (plain_char_marks c0 Hc0).
  - rewrite has_char_append, (all_plain_has_char NUL lhs eq_refl Pl).
    reflexivity.
  - rewrite has_char_append, (all_plain_has_char EQUALS lhs eq_refl Pl).
    reflexivity.
  - rewrite length_append. cbn [String.length]. lia.
Qed.

Lemma blank_before_equals_refused_witness :
  parse_line (format_line ("CUBE" ++ " ") "RED" "CENTER" "0") = L_invalid_tokens.
Proof.
  exact (blank_before_equals_refused "CUBE" "RED" "CENTER" "0"
           eq_refl eq_refl eq_refl eq_refl ltac:(cbn; lia) ltac:(cbn; lia)).
Defined.

Lemma drop_last_snoc :
  forall x d, drop_last (x ++ String d EmptyString) = x.
Proof.
  induction x as [| c x IH]; intros d; [reflexivity |].
  cbn [append drop_last]. rewrite IH.
  destruct x; reflexivity.
Qed.

Lemma unquote_quote : forall x, unquote (trim (quote x)) = x.
Proof.
  intros x. unfold quote.
  assert (Hl : last_char (String DQUOTE (x ++ String DQUOTE EmptyString))
               = Some DQUOTE).
  { rewrite last_char_cons by (destruct x; discriminate).
    rewrite last_char_append by discriminate. reflexivity. }
  assert (Ht : trim (String DQUOTE (x ++ String DQUOTE EmptyString))
               = String DQUOTE (x ++ String DQUOTE EmptyString)).
  { unfold trim. cbn [skip_lead].
    change (is_lead_ws DQUOTE) with false. cbv iota.
    apply (strip_trail_fixed _ _ Hl). reflexivity. }
  rewrite Ht. unfold unquote. rewrite Ascii.eqb_refl, Hl, Ascii.eqb_refl.
  apply drop_last_snoc.
Qed.

Lemma raw_field_quote :
  forall x, plain x = true -> raw_field (quote x) = true.
Proof.
  intros x H. destruct (plain_inv x H) as (P & _).
  unfold quote, raw_field. cbn [has_char].
  rewrite !has_char_append. cbn [has_char].
  rewrite (all_plain_has_char NUL _ eq_refl P),
    (all_plain_has_char COMMA _ eq_refl P),
    (all_plain_has_char RBRACKET _ eq_refl P). reflexivity.
Qed.

Lemma maybe_quote_field :
  forall q x, plain x = true ->
    raw_field (maybe_quote q x) = true
    /\ unquote (trim (maybe_quote q x)) = x.
Proof.
  intros [|] x H; cbn [maybe_quote].
  - split; [exact (raw_field_quote x H) | exact (unquote_quote x)].
  - split; [exact (plain_raw_field x H) |].
    rewrite (trim_plain x H). exact (unquote_plain x H).
Qed.

(** X16: the double quotes around a field are optional: with any of the
    three fields put in double quotes, a line is cut into the same
    left-hand side and fields, and so parsed to the same outcome, as the
    line without the quotes. *)
Theorem quotes_are_optional :
  forall (lhs a b c : string) (qa qb qc : bool),
    plain lhs = true -> plain a = true -> plain b = true -> plain c = true ->
    (String.length lhs <= 63)%nat ->
    (String.length (field_list (quote a) (quote b) (quote c)) <= 255)%nat ->
    split_line (format_line lhs (maybe_quote qa a) (maybe_quote qb b)
                  (maybe_quote qc c))
    = S_fields lhs a b c
    /\ parse_line (format_line lhs (maybe_quote qa a) (maybe_quote qb b)
                     (maybe_quote qc c))
       = parse_line (format_line lhs a b c).
Proof.
  intros lhs a b c qa qb qc Hlhs Ha Hb Hc Hl63 Hl255.
  destruct (plain_inv lhs Hlhs) as (Pl & c0 & lhs' & El & Hc0).
  destruct (maybe_quote_field qa a Ha) as [Ra Ua].
  destruct (maybe_quote_field qb b Hb) as [Rb Ub].
  destruct (maybe_quote_field qc c Hc) as [Rc Uc].
  assert (Hlen : (String.length (field_list (maybe_quote qa a) (maybe_quote qb b)
                                   (maybe_quote qc c)) <= 255)%nat).
  { clear - Hl255.
    destruct qa, qb, qc; cbn [maybe_quote]; unfold field_list, quote in *;
      repeat first [rewrite length_append in Hl255
                   | progress cbn [String.length append] in Hl255];
      repeat first [rewrite length_append
                   | progress cbn [String.length append]];
      lia. }
  assert (Hq : split_line (format_line lhs (maybe_quote qa a) (maybe_quote qb b)
                             (maybe_quote qc c))
               = S_fields lhs a b c).
  { rewrite (split_line_raw lhs _ _ _ c0 lhs' El); try assumption.
    - rewrite Ua, Ub, Uc. reflexivity.
    - exact (proj2 (plain_char_not_ws c0 Hc0)).
    - apply (plain_char_marks c0 Hc0).
    - apply all_plain_has_char; [reflexivity | exact Pl].
    - apply all_plain_has_char; [reflexivity | exact Pl]. }
  assert (Hp : split_line (format_line lhs a b c) = S_fields lhs a b c).
  { apply split_line_format; try assumption.
    revert Hl255. unfold field_list, quote.
    repeat first [rewrite length_append
                 | progress cbn [String.length append]].
    intros Hl255.
    repeat first [rewrite length_append in Hl255
                 | progress cbn [String.length append] in Hl255].
    lia. }
  split; [exact Hq |].
  unfold parse_line. rewrite Hq, Hp. reflexivity.
Qed.

Lemma quotes_are_optional_witness :
  parse_line (format_line "CUBE" (maybe_quote true "RED")
                (maybe_quote false "CENTER") (maybe_quote true "1"))
  = parse_line (format_line "CUBE" "RED" "CENTER" "1").
Proof.
  exact (proj2 (quotes_are_optional "CUBE" "RED" "CENTER" "1" true false true
                  eq_refl eq_refl eq_refl eq_refl
                  ltac:(cbn; lia) ltac:(cbn; lia))).
Defined.

(** ** Malformed lines (C8) *)

Section MalformedLines.
Local Open Scope string_scope.


Lemma has_char_c_str :
  forall d s, has_char d s = false -> has_char d (c_str s) = false.
Proof.
  intros d. induction s as [| c s IH]; intros H; cbn [c_str]; [reflexivity |].
  cbn [has_char] in H. apply orb_false_iff in H. destruct H as [Hc Hs].
  destruct (Ascii.eqb c NUL); [reflexivity |].
  cbn [has_char]. rewrite Hc, (IH Hs). reflexivity.
Qed.

Lemma has_char_skip_lead :
  forall d s, has_char d s = false -> has_char d (skip_lead s) = false.
Proof.
  intros d. induction s as [| c s IH]; intros H; cbn [skip_lead]; [reflexivity |].
  destruct (is_lead_ws c); [| exact H].
  cbn [has_char] in H. apply orb_false_iff in H. apply IH. tauto.
Qed.

Lemma has_char_strip_trail :
  forall d s, has_char d s = false -> has_char d (strip_trail s) = false.
Proof.
  intros d. induction s as [| c s IH]; intros H; cbn [strip_trail]; [reflexivity |].
  cbn [has_char] in H. apply orb_false_iff in H. destruct H as [Hc Hs].
  specialize (IH Hs).
  destruct (strip_trail s) as [| c' r].
  - destruct (is_trail_ws c); [reflexivity |]. cbn [has_char]. rewrite Hc. reflexivity.
  - cbn [has_char] in IH |- *. rewrite Hc, IH. reflexivity.
Qed.

Lemma has_char_body :
  forall d l, has_char d l = false -> has_char d (trim (c_str l)) = false.
Proof.
  intros d l H. unfold trim.
  apply has_char_strip_trail, has_char_skip_lead, has_char_c_str. exact H.
Qed.

Lemma has_char_drop :
  forall d n s, has_char d s = false -> has_char d (drop n s) = false.
Proof.
  intros d. induction n as [| n IH]; intros [| c s] H; cbn [drop]; try exact H.
  cbn [has_char] in H. apply orb_false_iff in H. apply IH. tauto.
Qed.

Lemma strchr_none :
  forall c s, has_char c s = false -> strchr s c = None.
Proof.
  intros c. induction s as [| d s IH]; intros H; cbn [strchr]; [reflexivity |].
  cbn [has_char] in H. apply orb_false_iff in H. destruct H as [Hd Hs].
  rewrite Hd, (IH Hs). reflexivity.
Qed.

(** A line without [=] is ignored or refused as a bad line. *)
Lemma split_line_no_equals :
  forall l, has_char EQUALS l = false ->
    split_line l = S_ignored \/ split_line l = S_bad_line.
Proof.
  intros l H. unfold split_line.
  pose proof (has_char_body EQUALS l H) as Hp.
  destruct (trim (c_str l)) as [| c0 p] eqn:E; [left; reflexivity |].
  destruct (Ascii.eqb c0 HASH); [left; reflexivity |].
  rewrite (strchr_none _ _ Hp). right. reflexivity.
Qed.

Lemma split_line_no_bracket :
  forall l, has_char LBRACKET l = false \/ has_char RBRACKET l = false ->
    split_line l = S_ignored \/ split_line l = S_bad_line
    \/ split_line l = S_missing_brackets.
Proof.
  intros l H. unfold split_line.
  destruct (trim (c_str l)) as [| c0 p] eqn:E; [left; reflexivity |].
  destruct (Ascii.eqb c0 HASH); [left; reflexivity |].
  destruct (strchr (String c0 p) EQUALS) as [ln |]; [| right; left; reflexivity].
  right. right.
  destruct H as [H | H]; pose proof (has_char_body _ l H) as Hp; rewrite E in Hp;
    rewrite (strchr_none _ _ (has_char_drop _ ln _ Hp)).
  - reflexivity.
  - destruct (strchr _ LBRACKET); reflexivity.
Qed.

Lemma all_space_no_equals :
  forall l, all_space l = true -> has_char EQUALS l = false.
Proof.
  induction l as [| c l IH]; intros H; [reflexivity |].
  cbn [all_space] in H. apply andb_true_iff in H. destruct H as [Hc Hl].
  cbn [has_char]. rewrite (IH Hl), orb_false_r.
  revert Hc. unfold isspace.
  destruct (Ascii.eqb_spec c EQUALS) as [-> | _]; [intros Hc; discriminate Hc | reflexivity].
Qed.

Lemma blanks_lead :
  forall ws c r, blanks ws = true -> is_lead_ws c = false ->
    c_str (ws ++ String c r) = (ws ++ c_str (String c r))%string
    /\ skip_lead (ws ++ String c r) = String c r.
Proof.
  induction ws as [| w ws IH]; intros c r H Hc; cbn [append].
  - split; [reflexivity |]. cbn [skip_lead]. rewrite Hc. reflexivity.
  - cbn [blanks] in H. apply andb_true_iff in H. destruct H as [Hw Hws].
    destruct (IH c r Hws Hc) as [IH1 IH2].
    assert (Hn : Ascii.eqb w NUL = false /\ is_lead_ws w = true).
    { unfold is_lead_ws.
      apply orb_true_iff in Hw. destruct Hw as [Hw | Hw];
        apply Ascii.eqb_eq in Hw; subst w; split; reflexivity. }
    destruct Hn as [Hn Hl]. cbn [c_str skip_lead]. rewrite Hn, Hl, IH1.
    split; [reflexivity | exact IH2].
Qed.

Lemma split_line_comment :
  forall l, comment l -> split_line l = S_ignored.
Proof.
  intros l (ws & r & -> & Hws). unfold split_line, trim.
  assert (Hh : is_lead_ws HASH = false) by reflexivity.
  assert (Hc : exists r', c_str (ws ++ String HASH r) = (ws ++ String HASH r')%string).
  { destruct (blanks_lead ws HASH r Hws Hh) as [H1 _]. rewrite H1.
    cbn [c_str]. change (Ascii.eqb HASH NUL) with false. cbv iota. eauto. }
  destruct Hc as [r' Hc]. rewrite Hc.
  destruct (blanks_lead ws HASH r' Hws Hh) as [_ H2]. rewrite H2.
  destruct (strip_trail_head HASH r') as [He | [r'' He]]; rewrite He.
  - reflexivity.
  - rewrite Ascii.eqb_refl. reflexivity.
Qed.

Lemma c_str_split : forall l, exists r, l = (c_str l ++ r)%string.
Proof.
  induction l as [| c l [r IH]]; cbn [c_str].
  - exists EmptyString. reflexivity.
  - destruct (Ascii.eqb c NUL).
    + exists (String c l). reflexivity.
    + exists r. cbn [append]. rewrite <- IH. reflexivity.
Qed.

Lemma skip_lead_split :
  forall s, exists pre, s = (pre ++ skip_lead s)%string /\ all_lead pre = true.
Proof.
  induction s as [| c s (pre & IH & Hp)]; cbn [skip_lead].
  - exists EmptyString. split; reflexivity.
  - destruct (is_lead_ws c) eqn:Hc.
    + exists (String c pre). cbn [append all_lead]. rewrite Hc, Hp, <- IH.
      split; reflexivity.
    + exists EmptyString. split; reflexivity.
Qed.

Lemma strip_trail_split :
  forall s, exists post, s = (strip_trail s ++ post)%string.
Proof.
  induction s as [| c s (post & IH)]; cbn [strip_trail].
  - exists EmptyString. reflexivity.
  - destruct (strip_trail s) as [| c' r] eqn:E.
    + destruct (is_trail_ws c).
      * exists (String c s). reflexivity.
      * exists post. cbn [append] in IH |- *. rewrite <- IH. reflexivity.
    + exists post. cbn [append] in IH |- *. rewrite <- IH. reflexivity.
Qed.

(** The line is its body, [trim] of the C string, between white space in
    front and what was cut at the end. *)
Lemma body_split :
  forall l, exists pre post,
    l = (pre ++ trim (c_str l) ++ post)%string /\ all_lead pre = true.
Proof.
  intros l. unfold trim.
  destruct (c_str_split l) as [r Hr].
  destruct (skip_lead_split (c_str l)) as (pre & Hs & Hp).
  destruct (strip_trail_split (skip_lead (c_str l))) as [post Ht].
  exists pre, (post ++ r)%string. split; [| exact Hp].
  apply eq_trans
    with ((pre ++ (strip_trail (skip_lead (c_str l)) ++ post)) ++ r)%string.
  - rewrite <- Ht, <- Hs. exact Hr.
  - rewrite !append_assoc. reflexivity.
Qed.

Lemma strchr_split :
  forall c s n, strchr s c = Some n ->
    s = (take n s ++ String c (drop (S n) s))%string
    /\ has_char c (take n s) = false
    /\ String.length (take n s) = n
    /\ drop n s = String c (drop (S n) s).
Proof.
  intros c. induction s as [| d s IH]; intros n H; cbn [strchr] in H;
    [discriminate H |].
  destruct (Ascii.eqb_spec d c) as [-> | Hd].
  - injection H as <-. cbn. repeat split; reflexivity.
  - destruct (strchr s c) as [k |]; [| discriminate H]. injection H as <-.
    destruct (IH k eq_refl) as (H1 & H2 & H3 & H4).
    apply Ascii.eqb_neq in Hd.
    repeat apply conj.
    + change (String d s = String d (take k s ++ String c (drop (S k) s))).
      rewrite <- H1. reflexivity.
    + change ((Ascii.eqb d c || has_char c (take k s)) = false).
      rewrite Hd, H2. reflexivity.
    + change (S (String.length (take k s)) = S k). rewrite H3. reflexivity.
    + change (drop k s = String c (drop (S k) s)). exact H4.
Qed.

(** The first occurrence of a character cuts a string in one way only. *)
Lemma first_unique :
  forall c x x' y y',
    (x ++ String c y = x' ++ String c y')%string ->
    has_char c x = false -> has_char c x' = false ->
    x = x' /\ y = y'.
Proof.
  intros c. induction x as [| a x IH]; intros [| a' x'] y y' E Hx Hx';
    cbn [append] in E.
  - injection E as ->. split; reflexivity.
  - injection E as <- _. cbn [has_char] in Hx'. rewrite Ascii.eqb_refl in Hx'.
    discriminate Hx'.
  - injection E as -> _. cbn [has_char] in Hx. rewrite Ascii.eqb_refl in Hx.
    discriminate Hx.
  - injection E as <- E. cbn [has_char] in Hx, Hx'.
    apply orb_false_iff in Hx, Hx'.
    destruct (IH x' y y' E (proj2 Hx) (proj2 Hx')) as [-> ->].
    split; reflexivity.
Qed.

Lemma all_lead_no_char :
  forall d s, is_lead_ws d = false -> all_lead s = true -> has_char d s = false.
Proof.
  intros d. induction s as [| c s IH]; intros Hd H; [reflexivity |].
  cbn [all_lead] in H. apply andb_true_iff in H. destruct H as [Hc Hs].
  cbn [has_char]. rewrite (IH Hd Hs), orb_false_r.
  destruct (Ascii.eqb_spec c d) as [-> | _]; [congruence | reflexivity].
Qed.

Lemma has_char_take_drop :
  forall d n s, has_char d s = has_char d (take n s) || has_char d (drop n s).
Proof.
  intros d. induction n as [| n IH]; intros [| c s]; cbn [take drop has_char];
    try reflexivity.
  rewrite (IH s), orb_assoc. reflexivity.
Qed.

Lemma take_take :
  forall m n s, (m <= n)%nat -> take m (take n s) = take m s.
Proof.
  induction m as [| m IH]; intros [| n] [| c s] Hle; cbn [take];
    try reflexivity; try lia.
  rewrite IH by lia. reflexivity.
Qed.

(** What [split_line] has found when it returns the fields. *)
Lemma split_line_fields_inv :
  forall l L a b c,
    split_line l = S_fields L a b c ->
    exists p ln lb rb ta tb tc,
      p = trim (c_str l)
      /\ strchr p EQUALS = Some ln
      /\ strchr (drop ln p) LBRACKET = Some lb
      /\ strchr (drop ln p) RBRACKET = Some rb
      /\ (lb <= rb)%nat
      /\ first3 (take (Nat.min (rb - lb - 1) 255) (drop (lb + 1) (drop ln p)))
         = Some (ta, tb, tc)
      /\ L = take (Nat.min ln 63) p
      /\ a = token ta /\ b = token tb /\ c = token tc.
Proof.
  intros l L a b c H. unfold split_line in H.
  destruct (trim (c_str l)) as [| c0 p0] eqn:Ep; [discriminate H |].
  destruct (Ascii.eqb c0 HASH); [discriminate H |].
  destruct (strchr (String c0 p0) EQUALS) as [ln |] eqn:Eln; [| discriminate H].
  destruct (strchr (drop ln (String c0 p0)) LBRACKET) as [lb |] eqn:Elb;
    [| discriminate H].
  destruct (strchr (drop ln (String c0 p0)) RBRACKET) as [rb |] eqn:Erb;
    [| discriminate H].
  destruct (Nat.ltb_spec rb lb) as [Hlt | Hge]; [discriminate H |].
  unfold first3.
  destruct (strtok COMMA _) as [[ta r1] |] eqn:E1; [| discriminate H].
  destruct (strtok COMMA r1) as [[tb r2] |] eqn:E2; [| discriminate H].
  destruct (strtok COMMA r2) as [[tc r3] |] eqn:E3; [| discriminate H].
  injection H as <- <- <- <-.
  exists (String c0 p0), ln, lb, rb, ta, tb, tc.
  rewrite Eln, Elb, Erb. unfold first3. rewrite E1, E2, E3.
  repeat split; try reflexivity. exact Hge.
Qed.

(** For a line of the form [lhs=mid[inside]tail] the parser cuts the three
    tokens out of the first 255 characters of [inside], and its left-hand
    side is [lhs] without the white space in front, cut at 63. *)
Lemma split_line_record_line :
  forall lhs mid inside tail L a b c,
    has_char EQUALS lhs = false -> has_char LBRACKET mid = false ->
    has_char RBRACKET inside = false ->
    split_line (record_line lhs mid inside tail) = S_fields L a b c ->
    exists pre X ta tb tc,
      lhs = (pre ++ X)%string /\ all_lead pre = true
      /\ skip_lead X = X
      /\ L = take (Nat.min (String.length X) 63) X
      /\ first3 (take (Nat.min (String.length inside) 255) inside)
         = Some (ta, tb, tc)
      /\ a = token ta /\ b = token tb /\ c = token tc.
Proof.
  intros lhs mid inside tail L a b c Hlhs Hmid Hin H.
  destruct (split_line_fields_inv _ _ _ _ _ H)
    as (p & ln & lb & rb & ta & tb & tc & Ep & Eln & Elb & Erb & Hle & E3
        & -> & -> & -> & ->).
  destruct (body_split (record_line lhs mid inside tail)) as (pre & post & El & Hpre).
  rewrite <- Ep in El.
  destruct (strchr_split _ _ _ Eln) as (P1 & P2 & P3 & P4).
  set (X := take ln p) in *.
  (* the first = *)
  assert (U1 : lhs = (pre ++ X)%string
               /\ (mid ++ String LBRACKET (inside ++ String RBRACKET tail))%string
                  = (drop (S ln) p ++ post)%string).
  { apply (first_unique EQUALS).
    - unfold record_line in El. rewrite El, P1 at 1.
      rewrite !append_assoc. cbn [append]. reflexivity.
    - exact Hlhs.
    - rewrite has_char_append, P2,
        (all_lead_no_char EQUALS pre eq_refl Hpre). reflexivity. }
  destruct U1 as [U1 U1'].
  (* the first [ after it *)
  rewrite P4 in Elb, Erb, E3.
  cbn [strchr] in Elb, Erb.
  change (Ascii.eqb EQUALS LBRACKET) with false in Elb.
  change (Ascii.eqb EQUALS RBRACKET) with false in Erb. cbv iota in Elb, Erb.
  destruct (strchr (drop (S ln) p) LBRACKET) as [lb' |] eqn:Elb';
    [| discriminate Elb].
  injection Elb as <-.
  destruct (strchr (drop (S ln) p) RBRACKET) as [rb' |] eqn:Erb';
    [| discriminate Erb].
  injection Erb as <-.
  set (e1 := drop (S ln) p) in *.
  destruct (strchr_split _ _ _ Elb') as (Q1 & Q2 & Q3 & Q4).
  assert (U2 : mid = take lb' e1
               /\ (inside ++ String RBRACKET tail)%string
                  = (drop (S lb') e1 ++ post)%string).
  { apply (first_unique LBRACKET).
    - rewrite U1', Q1 at 1. rewrite !append_assoc. cbn [append]. reflexivity.
    - exact Hmid.
    - exact Q2. }
  destruct U2 as [U2 U2'].
  (* the first ] *)
  destruct (strchr_split _ _ _ Erb') as (R1 & R2 & R3 & R4).
  assert (Hrb : (lb' < rb')%nat).
  { destruct (Nat.eq_dec lb' rb') as [-> | Hne]; [| lia].
    rewrite Q4 in R4. discriminate R4. }
  set (e2 := drop (S lb') e1) in *.
  assert (Ee2 : strchr e2 RBRACKET = Some (rb' - S lb')%nat).
  { rewrite Q1 in Erb'.
    assert (Hno : has_char RBRACKET (take lb' e1) = false).
    { pose proof (has_char_take_drop RBRACKET lb' (take rb' e1)) as Ht.
      rewrite R2 in Ht. symmetry in Ht. apply orb_false_iff in Ht.
      destruct Ht as [Ht _].
      rewrite take_take in Ht by lia. exact Ht. }
    rewrite (strchr_skip RBRACKET _ _ Hno) in Erb'. cbn [strchr] in Erb'.
    change (Ascii.eqb LBRACKET RBRACKET) with false in Erb'. cbv iota in Erb'.
    fold e2 in Erb'.
    destruct (strchr e2 RBRACKET) as [k |]; [| discriminate Erb'].
    injection Erb' as Ek. rewrite Q3 in Ek. f_equal. lia. }
  destruct (strchr_split _ _ _ Ee2) as (T1 & T2 & T3 & T4).
  assert (U3 : inside = take (rb' - S lb') e2).
  { apply (first_unique RBRACKET _ _ tail (drop (S (rb' - S lb')) e2 ++ post)).
    - rewrite U2', T1 at 1. rewrite !append_assoc. cbn [append]. reflexivity.
    - exact Hin.
    - exact T2. }
  exists pre, X, ta, tb, tc.
  assert (HX : skip_lead X = X).
  { pose proof (skip_lead_head (c_str (record_line lhs mid inside tail))) as Hh.
    unfold X. rewrite Ep. unfold trim.
    destruct (skip_lead _) as [| c0 s0]; [destruct ln; reflexivity |].
    destruct (strip_trail_head c0 s0) as [He | [r He]]; rewrite He.
    - destruct ln; reflexivity.
    - destruct ln; [reflexivity |]. cbn [take skip_lead]. rewrite Hh.
      reflexivity. }
  repeat split; try assumption.
  - rewrite P3. unfold X. symmetry. apply take_take. lia.
  - rewrite <- E3. f_equal.
    change (drop (S lb' + 1) (String EQUALS e1)) with (drop (lb' + 1) e1).
    replace (lb' + 1)%nat with (S lb') by lia. fold e2.
    rewrite U3, T3.
    replace (S rb' - S lb' - 1)%nat with (rb' - S lb')%nat by lia.
    apply take_take. lia.
Qed.

Lemma comma_pieces_not_nil : forall s, comma_pieces s <> [].
Proof.
  intros [| c s]; cbn [comma_pieces]; [discriminate |].
  destruct (Ascii.eqb c COMMA); [discriminate |].
  destruct (comma_pieces s); discriminate.
Qed.

Lemma fields_empty : fields EmptyString = [].
Proof. reflexivity. Qed.

Lemma fields_comma :
  forall s, fields (String COMMA s) = fields s.
Proof.
  intros s. unfold fields. cbn [comma_pieces].
  rewrite Ascii.eqb_refl. reflexivity.
Qed.

Lemma fields_skip_delim :
  forall s, fields (skip_delim COMMA s) = fields s.
Proof.
  induction s as [| c s IH]; cbn [skip_delim]; [reflexivity |].
  destruct (Ascii.eqb_spec c COMMA) as [-> | _]; [| reflexivity].
  rewrite fields_comma. exact IH.
Qed.

Lemma comma_pieces_split_token :
  forall s t r,
    split_token COMMA s = (t, r) ->
    comma_pieces s = t :: comma_pieces r
    \/ (comma_pieces s = [t] /\ r = EmptyString).
Proof.
  induction s as [| c s IH]; intros t r H; cbn [split_token] in H.
  - injection H as <- <-. right. split; reflexivity.
  - cbn [comma_pieces]. destruct (Ascii.eqb c COMMA).
    + injection H as <- <-. left. reflexivity.
    + destruct (split_token COMMA s) as [t' r'] eqn:E. injection H as <- <-.
      destruct (IH t' r' eq_refl) as [-> | [-> ->]]; [left | right; split];
        reflexivity.
Qed.

(** [strtok] walks through the fields. *)
Lemma strtok_fields :
  forall s,
    match strtok COMMA s with
    | None => fields s = []
    | Some (t, r) => fields s = t :: fields r
    end.
Proof.
  intros s. unfold strtok. rewrite <- (fields_skip_delim s).
  destruct (skip_delim_split COMMA s) as (_ & _ & _ & Hh).
  destruct (skip_delim COMMA s) as [| c s'] eqn:E; [reflexivity |].
  destruct (split_token COMMA (String c s')) as [t r] eqn:Et.
  assert (Hne : nonempty t = true).
  { cbn [split_token] in Et. rewrite Hh in Et.
    destruct (split_token COMMA s'). injection Et as <- _. reflexivity. }
  unfold fields.
  destruct (comma_pieces_split_token _ _ _ Et) as [-> | [-> ->]];
    cbn [filter]; rewrite Hne; reflexivity.
Qed.

Lemma first3_fields :
  forall s ta tb tc,
    first3 s = Some (ta, tb, tc) ->
    exists rest, fields s = ta :: tb :: tc :: rest.
Proof.
  intros s ta tb tc H. unfold first3 in H.
  pose proof (strtok_fields s) as H1.
  destruct (strtok COMMA s) as [[a r1] |]; [| discriminate H].
  pose proof (strtok_fields r1) as H2.
  destruct (strtok COMMA r1) as [[b r2] |]; [| discriminate H].
  pose proof (strtok_fields r2) as H3.
  destruct (strtok COMMA r2) as [[c r3] |]; [| discriminate H].
  injection H as <- <- <-. exists (fields r3). rewrite H1, H2, H3. reflexivity.
Qed.

(** The pieces of a prefix are pieces of the whole, but for the last, which
    may be cut. *)
Lemma comma_pieces_take :
  forall s k, exists xs y y' zs,
    comma_pieces (take k s) = (xs ++ [y])%list
    /\ comma_pieces s = (xs ++ [(y ++ y')%string] ++ zs)%list.
Proof.
  induction s as [| c s IH]; intros k.
  - exists [], EmptyString, EmptyString, []. destruct k; split; reflexivity.
  - destruct k as [| k].
    + cbn [take]. pose proof (comma_pieces_not_nil (String c s)) as Hn.
      destruct (comma_pieces (String c s)) as [| p0 ps]; [contradiction |].
      exists [], EmptyString, p0, ps. split; reflexivity.
    + destruct (IH k) as (xs & y & y' & zs & H1 & H2).
      cbn [take comma_pieces]. rewrite H1, H2.
      destruct (Ascii.eqb c COMMA).
      * exists (EmptyString :: xs), y, y', zs. split; reflexivity.
      * destruct xs as [| x xs].
        -- exists [], (String c y), y', zs. split; reflexivity.
        -- exists (String c x :: xs), y, y', zs. split; reflexivity.
Qed.

Lemma nonempty_append :
  forall y y', nonempty y = true -> nonempty (y ++ y') = true.
Proof. intros [| c y] y' H; [discriminate H | reflexivity]. Qed.

Lemma fields_take :
  forall s k, exists us vs ws,
    fields (take k s) = (us ++ vs)%list /\ fields s = (us ++ ws)%list
    /\ (List.length vs <= 1)%nat /\ (List.length vs <= List.length ws)%nat.
Proof.
  intros s k. destruct (comma_pieces_take s k) as (xs & y & y' & zs & H1 & H2).
  unfold fields. rewrite H1, H2, !filter_app.
  exists (filter nonempty xs), (filter nonempty [y]),
    (filter nonempty [(y ++ y')%string] ++ filter nonempty zs)%list.
  repeat split.
  - cbn [filter]. destruct (nonempty y); cbn; lia.
  - cbn [filter]. destruct (nonempty y) eqn:Hy.
    + rewrite (nonempty_append y y' Hy). cbn. lia.
    + cbn. lia.
Qed.

Lemma fields_take_length :
  forall s k, (List.length (fields (take k s)) <= List.length (fields s))%nat.
Proof.
  intros s k. destruct (fields_take s k) as (us & vs & ws & -> & -> & _ & H).
  rewrite !length_app. lia.
Qed.

Lemma fields_take_first_two :
  forall s k ta tb tc r a b rest,
    fields (take k s) = ta :: tb :: tc :: r ->
    fields s = a :: b :: rest ->
    ta = a /\ tb = b.
Proof.
  intros s k ta tb tc r a b rest H1 H2.
  destruct (fields_take s k) as (us & vs & ws & E1 & E2 & Hv & _).
  rewrite E1 in H1. rewrite E2 in H2.
  destruct us as [| u1 [| u2 us]].
  - cbn in H1. subst vs. cbn in Hv. lia.
  - cbn in H1. injection H1 as _ H1. subst vs. cbn in Hv. lia.
  - cbn in H1, H2. injection H1 as <- <- _. injection H2 as <- <- _.
    split; reflexivity.
Qed.

(** *** Known names *)

Lemma known_find_name :
  forall names i s, 0 <= i ->
    (0 <= find_name names i s) -> known names s = true.
Proof.
  induction names as [| n names IH]; intros i s Hi H; cbn [find_name] in H.
  - lia.
  - unfold known. cbn [existsb]. destruct (ieq s n); [reflexivity |].
    apply (IH (i + 1) s); [lia | exact H].
Qed.

Lemma upper_plain : forall c, plain_char (upper c) = plain_char c.
Proof.
  intros c. destruct c as [[] [] [] [] [] [] [] []]; reflexivity.
Qed.

Lemma ieq_all_plain :
  forall x n, ieq x n = true -> all_plain n = true -> all_plain x = true.
Proof.
  induction x as [| cx x IH]; intros [| cn n] H Hn; cbn [ieq] in H;
    try discriminate H; [reflexivity |].
  destruct (Ascii.eqb_spec (upper cx) (upper cn)) as [E | _]; [| discriminate H].
  cbn [all_plain] in Hn |- *. apply andb_true_iff in Hn. destruct Hn as [Hc Hn].
  rewrite <- (upper_plain cx), E, upper_plain, Hc. cbn [andb].
  exact (IH n H Hn).
Qed.

Lemma ieq_length :
  forall x n, ieq x n = true -> String.length x = String.length n.
Proof.
  induction x as [| cx x IH]; intros [| cn n] H; cbn [ieq] in H;
    try discriminate H; [reflexivity |].
  destruct (Ascii.eqb (upper cx) (upper cn)); [| discriminate H].
  cbn [String.length]. rewrite (IH n H). reflexivity.
Qed.

Lemma names_short_plain :
  forallb short_plain SHAPE_NAMES = true
  /\ forallb short_plain COLOR_NAMES = true
  /\ forallb short_plain POS_NAMES = true.
Proof. repeat apply conj; reflexivity. Qed.

Lemma length_take :
  forall n s, String.length (take n s) = Nat.min n (String.length s).
Proof.
  induction n as [| n IH]; intros [| c s]; cbn [take String.length Nat.min];
    try reflexivity.
  rewrite IH. reflexivity.
Qed.

Lemma take_all :
  forall n s, (String.length s <= n)%nat -> take n s = s.
Proof.
  induction n as [| n IH]; intros [| c s] H; cbn [take]; try reflexivity.
  - cbn in H. lia.
  - rewrite IH; [reflexivity | cbn in H; lia].
Qed.

Lemma skip_lead_app :
  forall pre X, all_lead pre = true -> skip_lead X = X ->
    skip_lead (pre ++ X) = X.
Proof.
  induction pre as [| c pre IH]; intros X Hp HX; cbn [append]; [exact HX |].
  cbn [all_lead] in Hp. apply andb_true_iff in Hp. destruct Hp as [Hc Hp].
  cbn [skip_lead]. rewrite Hc. apply IH; assumption.
Qed.

(** A left-hand side the parser knows is a known token. *)
Lemma known_lhs :
  forall names pre X,
    forallb short_plain names = true ->
    all_lead pre = true -> skip_lead X = X ->
    known names (take (Nat.min (String.length X) 63) X) = true ->
    known names (token (pre ++ X)) = true.
Proof.
  intros names pre X Hnames Hpre HX H.
  unfold known in H. apply existsb_exists in H. destruct H as (n & Hn & Hi).
  rewrite forallb_forall in Hnames. specialize (Hnames n Hn).
  unfold short_plain in Hnames. apply andb_true_iff in Hnames.
  destruct Hnames as [Hpl Hlen]. apply Nat.ltb_lt in Hlen.
  pose proof (ieq_length _ _ Hi) as Hl. rewrite length_take in Hl.
  assert (HXl : (String.length X <= 63)%nat) by lia.
  rewrite Nat.min_l in Hi by exact HXl.
  rewrite take_all in Hi by lia.
  assert (HpX : plain X = true).
  { destruct (plain_inv n Hpl) as (Pn & c & n' & -> & _).
    pose proof (ieq_all_plain _ _ Hi Pn) as PX.
    destruct X as [| cx X']; [discriminate Hi | exact PX]. }
  unfold token, trim. rewrite (skip_lead_app pre X Hpre HX).
  fold (trim X). rewrite <- (skip_lead_fixed X) at 1.
  2:{ destruct (plain_inv X HpX) as (_ & c & X' & -> & Hc).
      exact (proj2 (plain_char_not_ws c Hc)). }
  fold (trim X). rewrite (trim_plain X HpX), (unquote_plain X HpX).
  unfold known. apply existsb_exists. exists n. split; assumption.
Qed.

Lemma parse_line_record_inv :
  forall l c, parse_line l = L_record c ->
    exists L a b s,
      split_line l = S_fields L a b s
      /\ 0 <= parse_shape L /\ 0 <= parse_color a /\ 0 <= parse_pos b.
Proof.
  intros l c H. unfold parse_line in H.
  destruct (split_line l) as [| | | | L a b s]; try discriminate H.
  cbv zeta in H.
  destruct (Z.ltb_spec (parse_shape L) 0) as [| Hs]; [discriminate H |].
  destruct (Z.ltb_spec (parse_color a) 0) as [| Hc]; [discriminate H |].
  destruct (Z.ltb_spec (parse_pos b) 0) as [| Hp]; [discriminate H |].
  exists L, a, b, s. repeat split; assumption.
Qed.

(** A malformed line gives no record: fewer than three fields, or a token
    that is no known name. *)
Lemma malformed_no_record :
  forall l, skippable three_or_more l -> forall c, parse_line l <> L_record c.
Proof.
  intros l Hl c Hr.
  destruct (parse_line_record_inv l c Hr) as (L & a & b & s & Hs & Hsh & Hco & Hpo).
  destruct Hl as [Hb | [Hc | Hm]].
  - destruct (split_line_no_equals l (all_space_no_equals l Hb)) as [E | E];
      rewrite E in Hs; discriminate Hs.
  - rewrite (split_line_comment l Hc) in Hs. discriminate Hs.
  - destruct Hm as [l He | l Hbr | lhs mid inside tail H1 H2 H3 Hn
                   | lhs mid inside tail a0 b0 rest H1 H2 H3 Hf Hu].
    + destruct (split_line_no_equals l He) as [E | E];
        rewrite E in Hs; discriminate Hs.
    + destruct (split_line_no_bracket l Hbr) as [E | [E | E]];
        rewrite E in Hs; discriminate Hs.
    + destruct (split_line_record_line _ _ _ _ _ _ _ _ H1 H2 H3 Hs)
        as (pre & X & ta & tb & tc & _ & _ & _ & _ & E3 & _).
      destruct (first3_fields _ _ _ _ E3) as [r Er].
      pose proof (fields_take_length inside
                    (Nat.min (String.length inside) 255)) as Hle.
      rewrite Er in Hle. unfold three_or_more in Hn.
      apply Nat.leb_gt in Hn. cbn [List.length] in Hle. lia.
    + destruct (split_line_record_line _ _ _ _ _ _ _ _ H1 H2 H3 Hs)
        as (pre & X & ta & tb & tc & El & Hpre & HX & EL & E3 & Ea & Eb & _).
      destruct (first3_fields _ _ _ _ E3) as [r Er].
      destruct (fields_take_first_two _ _ _ _ _ _ _ _ _ Er Hf) as [<- <-].
      destruct names_short_plain as (Ns & _ & _).
      pose proof (known_find_name SHAPE_NAMES 0 L ltac:(lia) Hsh) as Ks.
      pose proof (known_find_name COLOR_NAMES 0 a ltac:(lia) Hco) as Kc.
      pose proof (known_find_name POS_NAMES 0 b ltac:(lia) Hpo) as Kp.
      rewrite EL in Ks. apply (known_lhs _ pre X Ns Hpre HX) in Ks.
      rewrite <- El in Ks. rewrite Ea in Kc. rewrite Eb in Kp.
      destruct Hu as [Hu | [Hu | Hu]]; congruence.
Qed.

Lemma collect_no_record :
  forall ls, Forall (skippable three_or_more) ls -> collect ls = [].
Proof.
  induction 1 as [| l ls Hl _ IH]; [reflexivity |].
  cbn [collect]. pose proof (malformed_no_record l Hl) as Hn.
  destruct (parse_line l); try exact IH.
  exfalso. exact (Hn c eq_refl).
Qed.

Lemma four_fields_malformed :
  Forall (skippable exactly_three) (text_lines ini_four_fields).
Proof.
  change (text_lines ini_four_fields) with [ini_four_fields].
  apply Forall_cons; [| apply Forall_nil].
  right. right.
  exact (wrong_fields exactly_three "SPHERE" "" "BLUE, TOP-LEFT, 1, 9" nl
           eq_refl eq_refl eq_refl eq_refl).
Qed.

Lemma four_fields_load :
  load_ini (Some ini_four_fields)
  = [{| cfg_shape := SH_SPHERE; cfg_color := COL_BLUE; cfg_pos := POS_TL;
        cfg_screen := 1 |}].
Proof. vm_compute. reflexivity. Qed.

(** C8, counterexample: a file whose only line has four fields between the
    brackets.  The line misses exactly three fields, and yet it is not
    skipped: the first three fields make a record, the fourth is ignored. *)
Lemma four_fields_not_default : ~ default_when_all_lines_malformed.
Proof.
  intros H. specialize (H ini_four_fields four_fields_malformed).
  rewrite four_fields_load in H. discriminate H.
Qed.

(** C8, amended: when the file cannot be opened, or every line of it is
    blank, a comment or malformed, [load_ini] returns the one default record
    CUBE / GREEN / CENTER / 0, for a file whose lines fit the buffer of
    [fgets], where a line is malformed for the number of its fields when it
    has fewer than three that are not empty; and a malformed line does not
    stop the loop: the records of the lines before and after it are all
    collected. *)
Theorem load_ini_default :
  load_ini None = [default_config]
  /\ (forall f, fits 511 f = true ->
        Forall (skippable three_or_more) (text_lines f) ->
        load_ini (Some f) = [default_config])
  /\ (forall before l after,
        complete_lines before ->
        fgets_lines (l ++ nl)%string = [(l ++ nl)%string] ->
        skippable three_or_more (l ++ nl)%string ->
        collect (fgets_lines (before ++ (l ++ nl) ++ after)%string)
        = (collect (fgets_lines before) ++ collect (fgets_lines after))%list)
  /\ default_config = {| cfg_shape := SH_CUBE; cfg_color := COL_GREEN;
                         cfg_pos := POS_C; cfg_screen := 0 |}.
Proof.
  split; [reflexivity |]. split; [| split; [| reflexivity]].
  - intros f Hfit H. unfold load_ini, fgets_lines.
    rewrite (fgets_from_fits f 511 EmptyString Hfit).
    fold (text_lines f). rewrite (collect_no_record _ H). reflexivity.
  - intros before l after Hb Hl Hs.
    rewrite (fgets_lines_complete_app before _ Hb), fgets_lines_app, Hl.
    rewrite !collect_app.
    rewrite (collect_no_record [(l ++ nl)%string]
               (Forall_cons _ Hs (Forall_nil _))).
    reflexivity.
Qed.

Lemma ini_all_skipped_lines :
  Forall (skippable three_or_more) (text_lines ini_all_skipped).
Proof.
  vm_compute text_lines.
  apply Forall_cons; [right; left; exists "", (" ornaments" ++ nl);
                      split; reflexivity |].
  apply Forall_cons; [left; reflexivity |].
  apply Forall_cons;
    [right; right;
     exact (wrong_fields three_or_more "BAD" "" "RED" nl
              eq_refl eq_refl eq_refl eq_refl) |].
  apply Forall_cons; [right; right; apply no_equals; reflexivity |].
  apply Forall_cons;
    [right; right; apply no_brackets; left; reflexivity |].
  apply Forall_cons;
    [right; right;
     exact (unknown_token three_or_more "BALL" "" "RED, CENTER, 0" nl
              "RED" " CENTER" [" 0"]
              eq_refl eq_refl eq_refl eq_refl (or_introl eq_refl)) |].
  apply Forall_cons; [| apply Forall_nil].
  right; right.
  exact (wrong_fields three_or_more "CUBE" "" "RED,,0" nl
           eq_refl eq_refl eq_refl eq_refl).
Qed.

Lemma load_ini_default_witness :
  load_ini (Some ini_all_skipped) = [default_config]
  /\ collect (fgets_lines ini_bad_then_good)
     = [{| cfg_shape := SH_CUBE; cfg_color := COL_RED; cfg_pos := POS_C;
           cfg_screen := 0 |}].
Proof.
  split.
  - exact (proj1 (proj2 load_ini_default) ini_all_skipped eq_refl
             ini_all_skipped_lines).
  - exact (proj1 (proj2 (proj2 load_ini_default)) EmptyString
             "BAD=[RED]" ("CUBE=[RED, CENTER, 0]" ++ nl)
             (or_introl eq_refl) eq_refl
             (or_intror (or_intror
                (wrong_fields three_or_more "BAD" "" "RED" nl
                   eq_refl eq_refl eq_refl eq_refl)))).
Defined.

(** A comment of more than 510 characters does not fit the buffer: [fgets]
    delivers its first 511 characters, which are ignored, and then the rest
    as a line of its own, here a record. *)
Lemma long_comment_is_read_in_two :
  comment ini_long_comment
  /\ fits 511 ini_long_comment = false
  /\ List.length (fgets_lines ini_long_comment) = 2%nat
  /\ load_ini (Some ini_long_comment)
     = [{| cfg_shape := SH_CUBE; cfg_color := COL_RED; cfg_pos := POS_C;
           cfg_screen := 0 |}].
Proof.
  repeat apply conj.
  - exists "", (repeat_char 510 (chr 120) ++ "CUBE=[RED, CENTER, 0]" ++ nl).
    split; reflexivity.
  - vm_compute. reflexivity.
  - vm_compute. reflexivity.
  - exact long_comment_loads_a_record.
Qed.

End MalformedLines.

(** ** Drawing a mesh *)

Lemma peek_in :
  forall (l : list Z) (i : Z), in_block i l = true -> In (peek i l) l.
Proof.
  intros l i H. apply in_block_spec in H. unfold peek. apply nth_In. lia.
Qed.

(** X17: [draw_wire] on a mesh that passes the checks of the generators
    (as every mesh of [main] does): no read leaves [lines] or [verts], two
    vertices are emitted per edge, and each of them is a vertex of the
    mesh. *)
Theorem draw_wire_in_bounds :
  forall (g : WireGeom),
    edges_ok g = true ->
    snd (draw_wire g) = false
    /\ Z.of_nat (List.length (fst (draw_wire g))) = 2 * lcount g
    /\ forall p, In p (fst (draw_wire g)) -> In p (verts g).
Proof.
  intros g H. destruct (edges_ok_spec g H) as (Hpos & Hlen & Hv & Hr).
  unfold draw_wire, for_range. rewrite Z.sub_0_r.
  match goal with |- context [for_loop 0 _ ?b _] => set (body := b) end.
  assert (Hinv : forall n, Z.of_nat n <= lcount g ->
            snd (for_loop 0 n body ([], false)) = false
            /\ Z.of_nat (List.length (fst (for_loop 0 n body ([], false))))
               = 2 * Z.of_nat n
            /\ forall p, In p (fst (for_loop 0 n body ([], false))) ->
                 In p (verts g)).
  { intros n. induction n as [| n IH]; intros Hn.
    - cbn. repeat apply conj; try reflexivity. intros p [].
    - rewrite for_loop_snoc, Z.add_0_l.
      destruct IH as (Hb & Hl & Hin); [lia |].
      destruct (for_loop 0 n body ([], false)) as [out bad].
      cbn [fst snd] in Hb, Hl, Hin. subst bad. unfold body.
      assert (Ha : in_block (Z.of_nat n * 2 + 0) (lines g) = true)
        by (apply in_block_spec; lia).
      assert (Hb : in_block (Z.of_nat n * 2 + 1) (lines g) = true)
        by (apply in_block_spec; lia).
      pose proof (Hr _ (peek_in _ _ Ha)) as Hra.
      pose proof (Hr _ (peek_in _ _ Hb)) as Hrb.
      assert (Hva : in_block (peek (Z.of_nat n * 2 + 0) (lines g)) (verts g)
                    = true) by (apply in_block_spec; lia).
      assert (Hvb : in_block (peek (Z.of_nat n * 2 + 1) (lines g)) (verts g)
                    = true) by (apply in_block_spec; lia).
      rewrite Ha, Hb, Hva, Hvb. cbn [fst snd negb orb].
      repeat apply conj.
      + reflexivity.
      + rewrite length_app. cbn [List.length]. lia.
      + intros p Hp. apply in_app_or in Hp. destruct Hp as [Hp | Hp].
        * exact (Hin p Hp).
        * apply in_block_spec in Hva, Hvb.
          destruct Hp as [<- | [<- | []]]; apply nth_In; lia. }
  destruct (Hinv (Z.to_nat (lcount g)) ltac:(lia)) as (Hb & Hl & Hin).
  repeat apply conj; [exact Hb | rewrite Hl; lia | exact Hin].
Qed.

Lemma draw_wire_in_bounds_witness :
  snd (draw_wire make_cube) = false
  /\ Z.of_nat (List.length (fst (draw_wire make_cube))) = 2 * lcount make_cube
  /\ forall p, In p (fst (draw_wire make_cube)) -> In p (verts make_cube).
Proof. exact (draw_wire_in_bounds make_cube eq_refl). Defined.

(** ** The pieces [fgets] delivers *)

Lemma fgets_from_joined :
  forall f room cur, joined (fgets_from room cur f) = (cur ++ f)%string.
Proof.
  induction f as [| c f IH]; intros room cur; cbn [fgets_from].
  - destruct cur; reflexivity.
  - assert (E : joined ((cur ++ String c EmptyString)%string
                        :: fgets_from 511 EmptyString f)
                = (cur ++ String c f)%string).
    { cbn [joined fold_right]. fold (joined (fgets_from 511 EmptyString f)).
      rewrite IH, append_assoc. reflexivity. }
    destruct (Ascii.eqb c LF); [exact E |].
    destruct room as [| [| room]]; [exact E | exact E |].
    rewrite IH, append_assoc. reflexivity.
Qed.

Lemma fgets_from_pieces :
  forall f room cur,
    (String.length cur + room <= 511)%nat -> (1 <= room)%nat ->
    has_char LF cur = false ->
    Forall fgets_piece (fgets_from room cur f).
Proof.
  induction f as [| c f IH]; intros room cur Hlen Hroom Hlf; cbn [fgets_from].
  - destruct cur as [| c0 cur0] eqn:E; [constructor |].
    rewrite <- E in *. constructor; [| constructor].
    repeat apply conj.
    + rewrite E. discriminate.
    + lia.
    + clear - Hlf. induction cur as [| a [| b r] IH]; try reflexivity.
      cbn [has_char] in Hlf. apply orb_false_iff in Hlf.
      change (drop_last (String a (String b r)))
        with (String a (drop_last (String b r))).
      cbn [has_char]. rewrite (proj1 Hlf). exact (IH (proj2 Hlf)).
  - assert (Hpiece : fgets_piece (cur ++ String c EmptyString)%string).
    { repeat apply conj.
      - destruct cur; discriminate.
      - rewrite length_append. cbn [String.length]. lia.
      - rewrite drop_last_snoc. exact Hlf. }
    assert (Hrest : Forall fgets_piece (fgets_from 511 EmptyString f))
      by (apply IH; [cbn; lia | lia | reflexivity]).
    destruct (Ascii.eqb c LF) eqn:Hc; [constructor; assumption |].
    destruct room as [| [| room]]; [lia | constructor; assumption |].
    apply IH.
    + rewrite length_append. cbn [String.length]. lia.
    + lia.
    + rewrite has_char_append, Hlf. cbn [has_char]. rewrite Hc. reflexivity.
Qed.

(** X18: what the reading loop of [load_ini] gets from [fgets] is the file
    cut into pieces: put together again the pieces are the file, byte for
    byte; each piece is not empty, has at most 511 bytes, and holds a line
    feed at its end only. *)
Theorem fgets_pieces_are_the_file :
  forall (f : string),
    joined (fgets_lines f) = f
    /\ Forall fgets_piece (fgets_lines f).
Proof.
  intros f. unfold fgets_lines. split.
  - apply fgets_from_joined.
  - apply fgets_from_pieces; [cbn; lia | lia | reflexivity].
Qed.

(** ** The generators of the sphere and the torus, for all parameters *)

Lemma for_loop_inv :
  forall (S : Type) (P : Z -> S -> Prop) (body : Z -> S -> S) (n : nat)
         (lo : Z) (s : S),
    P lo s ->
    (forall i s, lo <= i < lo + Z.of_nat n -> P i s -> P (i + 1) (body i s)) ->
    P (lo + Z.of_nat n) (for_loop lo n body s).
Proof.
  intros S P body n. induction n as [| n IH]; intros lo s H0 Hstep.
  - cbn. rewrite Z.add_0_r. exact H0.
  - cbn [for_loop].
    replace (lo + Z.of_nat (Datatypes.S n)) with ((lo + 1) + Z.of_nat n) by lia.
    apply IH.
    + apply Hstep; [lia | exact H0].
    + intros i s' Hi. apply Hstep. lia.
Qed.

Lemma for_range_inv :
  forall (S : Type) (P : Z -> S -> Prop) (body : Z -> S -> S) (lo hi : Z)
         (s : S),
    lo <= hi ->
    P lo s ->
    (forall i s, lo <= i < hi -> P i s -> P (i + 1) (body i s)) ->
    P hi (for_range lo hi body s).
Proof.
  intros S P body lo hi s Hle H0 Hstep. unfold for_range.
  replace hi with (lo + Z.of_nat (Z.to_nat (hi - lo))) at 1 by lia.
  apply for_loop_inv; [exact H0 |].
  intros i s' Hi. apply Hstep. lia.
Qed.

Ltac by_cases :=
  repeat match goal with
         | |- context [?a <? ?b] => destruct (Z.ltb_spec a b)
         | |- context [?a <=? ?b] => destruct (Z.leb_spec a b)
         end;
  cbn [andb orb negb]; first [reflexivity | lia].

Lemma gen_push_v :
  forall capV capE v e st p,
    gen_state capV capE v e st -> 0 <= v ->
    gen_state capV capE (v + 1) e (push_v p st).
Proof.
  intros capV capE v e st p (Hlv & Hle & Hv & He & Ho & Hr) H0.
  unfold gen_state, push_v. cbn [gv ge vi ei overrun].
  rewrite poke_length, Hv, He. unfold in_block. rewrite Hlv, Ho.
  repeat apply conj; try assumption; try reflexivity.
  - by_cases.
  - intros Hno p' Hp.
    assert (Hold : overrun st = false).
    { rewrite Ho. revert Hno. by_cases. }
    specialize (Hr Hold p' Hp). lia.
Qed.

Lemma gen_put_incr :
  forall capV capE v e st p,
    gen_state capV capE v e st -> 0 <= v ->
    gen_state capV capE (v + 1) e (incr_vi (put_v p st)).
Proof.
  intros capV capE v e st p H H0. exact (gen_push_v capV capE v e st p H H0).
Qed.

Lemma gen_push_e :
  forall capV capE v e st a,
    gen_state capV capE v e st -> 0 <= e -> 0 <= a < v ->
    gen_state capV capE v (e + 1) (push_e a st).
Proof.
  intros capV capE v e st a (Hlv & Hle & Hv & He & Ho & Hr) H0 Ha.
  unfold gen_state, push_e. cbn [gv ge vi ei overrun].
  rewrite poke_length, Hv, He.
  assert (Hin : in_block e (ge st) = ((0 <=? e) && (e <? capE)))
    by (unfold in_block; rewrite Hle; reflexivity).
  rewrite Hin, Ho.
  repeat apply conj; try assumption; try reflexivity.
  - by_cases.
  - intros Hno p' Hp.
    assert (Hold : overrun st = false /\ e < capE).
    { rewrite Ho. revert Hno. clear Hin. by_cases. }
    destruct Hold as [Hold Hlt]. specialize (Hr Hold).
    destruct (Z.eq_dec p' e) as [-> | Hne].
    + rewrite peek_poke_same; [lia |].
      apply in_block_spec. lia.
    + rewrite peek_poke_other by lia. apply Hr. lia.
Qed.

Lemma u32_small : forall x, 0 <= x < 2 ^ 32 -> u32 x = x.
Proof. intros x H. unfold u32. apply Z.mod_small. exact H. Qed.

Lemma gen_cast :
  forall capV capE v e v' e' st,
    gen_state capV capE v e st -> v = v' -> e = e' ->
    gen_state capV capE v' e' st.
Proof. intros. subst. assumption. Qed.

Lemma gen_lat_ring :
  forall lc capV capE v e st lat lon i,
    gen_state capV capE v e st ->
    0 <= v -> 0 <= e -> 1 <= lon -> v + lon < 2 ^ 32 ->
    gen_state capV capE (v + lon) (e + 2 * lon)
      (sphere_lat_ring lc lat lon i st).
Proof.
  intros lc capV capE v e st lat lon i H Hv0 He0 Hlon Hsmall.
  unfold sphere_lat_ring. cbv zeta.
  destruct H as (Hlv & Hle & Hv & He & Ho & Hr). rewrite Hv.
  assert (H : gen_state capV capE v e st) by (repeat apply conj; assumption).
  rewrite (u32_small v) by lia.
  match goal with
  | |- context [for_range 0 lon ?b st] => set (body := b)
  end.
  assert (Hloop : gen_state capV capE (v + lon) (e + 2 * Z.max 0 (lon - 1))
                    (for_range 0 lon body st)).
  { apply (for_range_inv GenState
             (fun j s => gen_state capV capE (v + j) (e + 2 * Z.max 0 (j - 1)) s));
      [lia | apply (gen_cast _ _ _ _ _ _ _ H); lia |].
    intros j s Hj Hs. unfold body.
    pose proof (gen_push_v capV capE _ _ s
                  (v3 (sinf lc (M_PI_f * (of_int i / of_int lat))
                       * cosf lc (f2pi * (of_int j / of_int lon)))
                      (cosf lc (M_PI_f * (of_int i / of_int lat)))
                      (sinf lc (M_PI_f * (of_int i / of_int lat))
                       * sinf lc (f2pi * (of_int j / of_int lon))))%f32
                  Hs ltac:(lia)) as Hp.
    destruct (Z.ltb_spec 0 j).
    - rewrite (u32_small (v + j)), (u32_small (v + j - 1)) by lia.
      apply (gen_cast capV capE (v + j + 1) (e + 2 * Z.max 0 (j - 1) + 1 + 1));
        [| lia | lia].
      apply gen_push_e; [| lia | lia].
      apply gen_push_e; [exact Hp | lia | lia].
    - apply (gen_cast _ _ _ _ _ _ _ Hp); lia. }
  rewrite (u32_small (v + lon - 1)) by lia.
  apply (gen_cast capV capE (v + lon) (e + 2 * Z.max 0 (lon - 1) + 1 + 1));
    [| lia | lia].
  apply gen_push_e; [| lia | lia].
  apply gen_push_e; [exact Hloop | lia | lia].
Qed.

Lemma gen_vi :
  forall capV capE v e st, gen_state capV capE v e st -> vi st = v.
Proof. intros capV capE v e st H. apply H. Qed.

Lemma gen_lon_ring :
  forall lc capV capE v e st lat lon j,
    gen_state capV capE v e st ->
    0 <= v -> 0 <= e -> 1 <= lat -> v + 2 * lat < 2 ^ 32 ->
    gen_state capV capE (v + 2 * lat) (e + 2 * (2 * lat - 1))
      (sphere_lon_ring lc lat lon j st).
Proof.
  intros lc capV capE v e st lat lon j H Hv0 He0 Hlat Hsmall.
  unfold sphere_lon_ring. cbv zeta.
  match goal with
  | |- context [for_range 0 (lat * 2) ?b st] => set (body := b)
  end.
  apply (gen_cast capV capE (v + lat * 2) (e + 2 * Z.max 0 (lat * 2 - 1)));
    [| lia | lia].
  apply (for_range_inv GenState
           (fun k s => gen_state capV capE (v + k) (e + 2 * Z.max 0 (k - 1)) s));
    [lia | apply (gen_cast _ _ _ _ _ _ _ H); lia |].
  intros k s Hk Hs. unfold body.
  match goal with
  | |- context [push_v ?p s] =>
      pose proof (gen_push_v capV capE _ _ s p Hs ltac:(lia)) as Hp;
      set (s1 := push_v p s) in *
  end.
  rewrite (gen_vi _ _ _ _ _ Hp).
  destruct (Z.ltb_spec 0 k).
  - rewrite (u32_small (v + k + 1 - 1)), (u32_small (v + k + 1 - 2)) by lia.
    apply (gen_cast capV capE (v + k + 1) (e + 2 * Z.max 0 (k - 1) + 1 + 1));
      [| lia | lia].
    apply gen_push_e; [| lia | lia].
    apply gen_push_e; [exact Hp | lia | lia].
  - apply (gen_cast _ _ _ _ _ _ _ Hp); lia.
Qed.

Lemma gen_extra_ring :
  forall lc capV capE v e st seg r,
    gen_state capV capE v e st ->
    0 <= v -> 0 <= e -> 1 <= seg -> v + seg < 2 ^ 32 ->
    gen_state capV capE (v + seg) (e + 2 * seg)
      (sphere_extra_ring lc seg r st).
Proof.
  intros lc capV capE v e st seg r H Hv0 He0 Hseg Hsmall.
  unfold sphere_extra_ring. cbv zeta.
  rewrite (gen_vi _ _ _ _ _ H), (u32_small v) by lia.
  match goal with
  | |- context [for_range 0 seg ?b st] => set (body := b)
  end.
  assert (Hloop : gen_state capV capE (v + seg) (e + 2 * Z.max 0 (seg - 1))
                    (for_range 0 seg body st)).
  { apply (for_range_inv GenState
             (fun k s => gen_state capV capE (v + k) (e + 2 * Z.max 0 (k - 1)) s));
      [lia | apply (gen_cast _ _ _ _ _ _ _ H); lia |].
    intros k s Hk Hs. unfold body. cbv zeta.
    match goal with
    | |- context [push_v ?p s] =>
        pose proof (gen_push_v capV capE _ _ s p Hs ltac:(lia)) as Hp;
        set (s1 := push_v p s) in *
    end.
    rewrite (gen_vi _ _ _ _ _ Hp).
    destruct (Z.ltb_spec 0 k).
    - rewrite (u32_small (v + k + 1 - 1)), (u32_small (v + k + 1 - 2)) by lia.
      apply (gen_cast capV capE (v + k + 1) (e + 2 * Z.max 0 (k - 1) + 1 + 1));
        [| lia | lia].
      apply gen_push_e; [| lia | lia].
      apply gen_push_e; [exact Hp | lia | lia].
    - apply (gen_cast _ _ _ _ _ _ _ Hp); lia. }
  rewrite (gen_vi _ _ _ _ _ Hloop), (u32_small (v + seg - 1)) by lia.
  apply (gen_cast capV capE (v + seg) (e + 2 * Z.max 0 (seg - 1) + 1 + 1));
    [| lia | lia].
  apply gen_push_e; [| lia | lia].
  apply gen_push_e; [exact Hloop | lia | lia].
Qed.

Lemma gen_initial :
  forall capV capE,
    0 <= capV -> 0 <= capE ->
    gen_state capV capE 0 0
      {| gv := malloc capV (v3 f0 f0 f0); ge := malloc capE 0;
         vi := 0; ei := 0; overrun := false |}.
Proof.
  intros capV capE HV HE. unfold gen_state, malloc. cbn [gv ge vi ei overrun].
  rewrite !repeat_length. repeat apply conj; first [lia | reflexivity].
Qed.

Lemma sphere_fill_gen :
  forall lc lat lon,
    1 <= lat -> 1 <= lon ->
    3 * lat * lon + 5 * lon <= INT_MAX ->
    gen_state (sphere_maxv lat lon) (sphere_maxv lat lon * 4)
      (3 * lat * lon + 5 * lon) (6 * lat * lon + 8 * lon)
      (sphere_fill lc lat lon).
Proof.
  intros lc lat lon Hlat Hlon Hfit.
  assert (Hmax : 0 <= sphere_maxv lat lon) by (unfold sphere_maxv; nia).
  unfold INT_MAX in Hfit.
  unfold sphere_fill. cbv zeta. fold (sphere_maxv lat lon).
  set (capV := sphere_maxv lat lon) in *.
  pose proof (gen_initial capV (capV * 4) Hmax ltac:(lia)) as H0.
  set (st0 := {| gv := _; ge := _; vi := 0; ei := 0; overrun := false |}) in *.
  assert (H1 : gen_state capV (capV * 4) ((lat - 1) * lon) (2 * ((lat - 1) * lon))
                 (for_range 1 lat (sphere_lat_ring lc lat lon) st0)).
  { apply (for_range_inv GenState
             (fun i s => gen_state capV (capV * 4) ((i - 1) * lon)
                           (2 * ((i - 1) * lon)) s));
      [lia | apply (gen_cast _ _ _ _ _ _ _ H0); lia |].
    intros i s Hi Hs.
    apply (gen_cast capV (capV * 4) ((i - 1) * lon + lon)
             (2 * ((i - 1) * lon) + 2 * lon)); [| lia | lia].
    apply gen_lat_ring; [exact Hs | nia | nia | lia | nia]. }
  set (st1 := for_range 1 lat _ st0) in *.
  assert (H2 : gen_state capV (capV * 4)
                 ((lat - 1) * lon + lon * (2 * lat))
                 (2 * ((lat - 1) * lon) + lon * (2 * (2 * lat - 1)))
                 (for_range 0 lon (sphere_lon_ring lc lat lon) st1)).
  { apply (for_range_inv GenState
             (fun j s => gen_state capV (capV * 4)
                           ((lat - 1) * lon + j * (2 * lat))
                           (2 * ((lat - 1) * lon) + j * (2 * (2 * lat - 1))) s));
      [lia | apply (gen_cast _ _ _ _ _ _ _ H1); lia |].
    intros j s Hj Hs.
    apply (gen_cast capV (capV * 4)
             ((lat - 1) * lon + j * (2 * lat) + 2 * lat)
             (2 * ((lat - 1) * lon) + j * (2 * (2 * lat - 1))
              + 2 * (2 * lat - 1))); [| lia | lia].
    apply gen_lon_ring; [exact Hs | nia | nia | lia | nia]. }
  set (st2 := for_range 0 lon _ st1) in *.
  apply (gen_cast capV (capV * 4)
           ((lat - 1) * lon + lon * (2 * lat) + 3 * (lon * 2))
           (2 * ((lat - 1) * lon) + lon * (2 * (2 * lat - 1))
            + 3 * (2 * (lon * 2)))); [| lia | lia].
  apply (for_range_inv GenState
           (fun r s => gen_state capV (capV * 4)
                         ((lat - 1) * lon + lon * (2 * lat) + r * (lon * 2))
                         (2 * ((lat - 1) * lon) + lon * (2 * (2 * lat - 1))
                          + r * (2 * (lon * 2))) s));
    [lia | apply (gen_cast _ _ _ _ _ _ _ H2); lia |].
  intros r s Hr Hs.
  apply (gen_cast capV (capV * 4)
           ((lat - 1) * lon + lon * (2 * lat) + r * (lon * 2) + lon * 2)
           (2 * ((lat - 1) * lon) + lon * (2 * (2 * lat - 1))
            + r * (2 * (lon * 2)) + 2 * (lon * 2))); [| lia | lia].
  apply gen_extra_ring; [exact Hs | nia | nia | lia | nia].
Qed.

Lemma in_firstn_peek :
  forall (l : list Z) (n : nat) (a : Z),
    In a (firstn n l) ->
    exists p, 0 <= p < Z.of_nat n /\ peek p l = a.
Proof.
  intros l n. revert l. induction n as [| n IH]; intros l a H.
  - destruct l; contradiction H.
  - destruct l as [| x l]; [contradiction H |].
    cbn [firstn] in H. destruct H as [<- | H].
    + exists 0. split; [lia | reflexivity].
    + destruct (IH l a H) as (p & Hp & E). exists (p + 1). split; [lia |].
      unfold peek in *. replace (Z.to_nat (p + 1)) with (S (Z.to_nat p)) by lia.
      exact E.
Qed.

Lemma gen_edges_ok :
  forall capV capE v l st,
    gen_state capV capE v (2 * l) st ->
    0 <= v <= capV -> 0 < l -> 2 * l <= capE ->
    overrun st = false /\ edges_ok (finish st) = true.
Proof.
  intros capV capE v l st (Hlv & Hle & Hv & He & Ho & Hr) Hvr Hl Her.
  assert (Hno : overrun st = false) by (rewrite Ho; by_cases).
  split; [exact Hno |].
  unfold edges_ok, finish, realloc. cbn [lcount lines verts vcount].
  rewrite Hv, He, !length_firstn.
  replace (2 * l / 2) with l by (rewrite Z.mul_comm, Z.div_mul; lia).
  apply andb_true_iff. split; [apply andb_true_iff; split;
                                 [apply andb_true_iff; split |] |].
  - apply Z.ltb_lt. exact Hl.
  - apply Z.eqb_eq. lia.
  - apply Z.eqb_eq. lia.
  - apply forallb_forall. intros a Ha.
    apply in_firstn_peek in Ha. destruct Ha as (p & Hp & <-).
    specialize (Hr Hno p ltac:(lia)). by_cases.
Qed.

(** X19: [make_sphere] for all parameters from 1 on for which [maxv] and
    the two cursors stay within [int] ([ei], the larger cursor, ends at
    [6*lat*lon + 8*lon]): it writes [3*lat*lon + 5*lon] vertices and
    [3*lat*lon + 4*lon] edges; a store leaves its block exactly when that
    number of vertices exceeds [maxv = (lat+1)*(lon+1) + (lat+lon)*64]; and
    when none does, the mesh passes the checks: every edge joins two of its
    vertices. *)
Theorem make_sphere_for_all_parameters :
  forall (lc : Libc) (lat lon : Z),
    1 <= lat -> 1 <= lon ->
    2 * (3 * lat * lon + 4 * lon) <= INT_MAX ->
    sphere_maxv lat lon <= INT_MAX ->
    let st := sphere_fill lc lat lon in
    vi st = 3 * lat * lon + 5 * lon
    /\ ei st = 2 * (3 * lat * lon + 4 * lon)
    /\ 0 <= vi st <= INT_MAX /\ 0 <= ei st <= INT_MAX
    /\ overrun st = (sphere_maxv lat lon <? 3 * lat * lon + 5 * lon)
    /\ (3 * lat * lon + 5 * lon <= sphere_maxv lat lon ->
        edges_ok (make_sphere lc lat lon) = true
        /\ vcount (make_sphere lc lat lon) = 3 * lat * lon + 5 * lon
        /\ lcount (make_sphere lc lat lon) = 3 * lat * lon + 4 * lon).
Proof.
  intros lc lat lon Hlat Hlon Hei _ st.
  assert (Hx : 0 <= lat * lon) by nia.
  assert (Hfit : 3 * lat * lon + 5 * lon <= INT_MAX) by lia.
  pose proof (sphere_fill_gen lc lat lon Hlat Hlon Hfit) as H. fold st in H.
  pose proof H as (Hlv & Hle & Hv & He & Ho & Hr).
  repeat apply conj.
  - exact Hv.
  - rewrite He. lia.
  - lia.
  - lia.
  - lia.
  - lia.
  - rewrite Ho. by_cases.
  - intros Hin.
    assert (H' : gen_state (sphere_maxv lat lon) (sphere_maxv lat lon * 4)
                   (3 * lat * lon + 5 * lon) (2 * (3 * lat * lon + 4 * lon)) st)
      by (apply (gen_cast _ _ _ _ _ _ _ H); lia).
    destruct (gen_edges_ok _ _ _ _ _ H') as [_ Hok]; try lia.
    rewrite make_sphere_finish. fold st.
    repeat apply conj; [exact Hok | exact Hv |].
    unfold finish. cbn [lcount]. rewrite He.
    replace (6 * lat * lon + 8 * lon) with ((3 * lat * lon + 4 * lon) * 2) by lia.
    apply Z.div_mul. lia.
Qed.

Lemma make_sphere_for_all_parameters_witness :
  vi (sphere_fill sample_libc 10 16) = 560
  /\ overrun (sphere_fill sample_libc 10 16) = false
  /\ edges_ok (make_sphere sample_libc 10 16) = true
  /\ lcount (make_sphere sample_libc 10 16) = 544.
Proof.
  destruct (make_sphere_for_all_parameters sample_libc 10 16)
    as (Hv & _ & _ & _ & Ho & Hok);
    try (unfold INT_MAX, sphere_maxv; lia).
  destruct Hok as (He & _ & Hl); [unfold sphere_maxv; lia |].
  repeat apply conj; [exact Hv | exact Ho | exact He | exact Hl].
Defined.

(** With 64 rings of each kind the block is too small, whatever the
    library: 12608 vertices for a block of 12417. *)
Lemma sphere_64_64_overruns :
  forall lc, overrun (sphere_fill lc 64 64) = true.
Proof.
  intros lc.
  pose proof (sphere_fill_gen lc 64 64 ltac:(lia) ltac:(lia)
                ltac:(unfold INT_MAX; lia)) as (_ & _ & _ & _ & Ho & _).
  rewrite Ho. reflexivity.
Qed.

(** *** The torus *)

Lemma row_major_inj :
  forall m i j i' j',
    0 <= j < m -> 0 <= j' < m -> i * m + j = i' * m + j' ->
    i = i' /\ j = j'.
Proof.
  intros m i j i' j' Hj Hj' E.
  destruct (Z.lt_trichotomy i i') as [H | [H | H]].
  - assert (m <= (i' - i) * m) by nia. lia.
  - subst i'. lia.
  - assert (m <= (i - i') * m) by nia. lia.
Qed.

Lemma torus_grid_gen :
  forall lc capV capE M m R r st0,
    gen_state capV capE 0 0 st0 ->
    0 <= M -> 0 <= m ->
    grid_state capV capE m (M * m)
      (torus_grid lc M m R r (st0, fun _ _ => 0)).
Proof.
  intros lc capV capE M m R r st0 H0 HM Hm. unfold torus_grid.
  apply (for_range_inv (GenState * IdxTable)
           (fun i sti => grid_state capV capE m (i * m) sti)); [lia | |].
  - split; [exact H0 |]. intros i j Hi Hj Hlt. cbn [snd]. nia.
  - intros i sti Hi Hsti. cbv zeta.
    replace ((i + 1) * m) with (i * m + m) by lia.
    apply (for_range_inv (GenState * IdxTable)
             (fun j sti => grid_state capV capE m (i * m + j) sti)); [lia | |].
    + rewrite Z.add_0_r. exact Hsti.
    + intros j [st idx] Hj [Hg Hidx]. cbn [fst snd] in Hg, Hidx.
      split; cbn [fst snd].
      * replace (i * m + (j + 1)) with (i * m + j + 1) by lia.
        apply gen_put_incr; [exact Hg | nia].
      * intros i' j' Hi' Hj' Hlt. unfold idx_store, put_v. cbn [vi].
        rewrite (gen_vi _ _ _ _ _ Hg).
        destruct (Z.eqb_spec i' i) as [-> | Ni]; cbn [andb].
        -- destruct (Z.eqb_spec j' j) as [-> | Nj]; [reflexivity |].
           apply Hidx; [lia | lia | lia].
        -- apply Hidx; [lia | lia |].
           assert (i' * m + j' <> i * m + j)
             by (intros E; apply row_major_inj in E; lia).
           lia.
Qed.

Lemma torus_edges_gen :
  forall capV capE M m idx st,
    gen_state capV capE (M * m) 0 st ->
    (forall i j, 0 <= i -> 0 <= j < m -> i * m + j < M * m ->
       idx i j = i * m + j) ->
    0 <= M -> 0 <= m -> M * m < 2 ^ 32 ->
    gen_state capV capE (M * m) (4 * (M * m)) (torus_edges M m idx st).
Proof.
  intros capV capE M m idx st H0 Hidx HM Hm Hsmall. unfold torus_edges.
  apply (for_range_inv GenState
           (fun i s => gen_state capV capE (M * m) (4 * (i * m)) s));
    [lia | apply (gen_cast _ _ _ _ _ _ _ H0); lia |].
  intros i s Hi Hs.
  replace (4 * ((i + 1) * m)) with (4 * (i * m + m)) by lia.
  apply (for_range_inv GenState
           (fun j s => gen_state capV capE (M * m) (4 * (i * m + j)) s));
    [lia | apply (gen_cast _ _ _ _ _ _ _ Hs); lia |].
  intros j s' Hj Hs'. cbv zeta.
  pose proof (Z.rem_bound_pos (i + 1) M ltac:(lia) ltac:(lia)) as Hi2.
  pose proof (Z.rem_bound_pos (j + 1) m ltac:(lia) ltac:(lia)) as Hj2.
  assert (Ha : idx i j = i * m + j) by (apply Hidx; nia).
  assert (Hb : idx (Z.rem (i + 1) M) j = Z.rem (i + 1) M * m + j)
    by (apply Hidx; nia).
  assert (Hc : idx i (Z.rem (j + 1) m) = i * m + Z.rem (j + 1) m)
    by (apply Hidx; nia).
  rewrite Ha, Hb, Hc.
  rewrite (u32_small (i * m + j)), (u32_small (Z.rem (i + 1) M * m + j)),
    (u32_small (i * m + Z.rem (j + 1) m)) by nia.
  apply (gen_cast capV capE (M * m) (4 * (i * m + j) + 1 + 1 + 1 + 1));
    [| lia | lia].
  apply gen_push_e; [| nia | nia].
  apply gen_push_e; [| nia | nia].
  apply gen_push_e; [| nia | nia].
  apply gen_push_e; [exact Hs' | nia | nia].
Qed.

(** X20: [make_torus] for all segment counts from 1 on (whose product fits
    an [int]): with the counts cut to 128 after the blocks were sized, no
    store leaves its block; the mesh has [min(majorSeg,128) *
    min(minorSeg,128)] vertices and twice as many edges, and passes the
    checks: every edge joins two of its vertices. *)
Theorem make_torus_for_all_parameters :
  forall (lc : Libc) (majorSeg minorSeg : Z) (R r : f32),
    1 <= majorSeg -> 1 <= minorSeg ->
    majorSeg * minorSeg <= INT_MAX ->
    let g := make_torus lc majorSeg minorSeg R r in
    overrun (torus_fill lc majorSeg minorSeg R r) = false
    /\ edges_ok g = true
    /\ vcount g = Z.min majorSeg 128 * Z.min minorSeg 128
    /\ lcount g = 2 * vcount g.
Proof.
  intros lc M m R r HM Hm _ g.
  assert (Hcap : 0 <= M * m) by nia.
  assert (HM' : (if 128 <? M then 128 else M) = Z.min M 128)
    by (destruct (Z.ltb_spec 128 M); lia).
  assert (Hm' : (if 128 <? m then 128 else m) = Z.min m 128)
    by (destruct (Z.ltb_spec 128 m); lia).
  assert (Hfill : gen_state (M * m) (M * m * 4)
                    (Z.min M 128 * Z.min m 128)
                    (2 * (2 * (Z.min M 128 * Z.min m 128)))
                    (torus_fill lc M m R r)).
  { unfold torus_fill. cbv zeta. rewrite HM', Hm'.
    pose proof (torus_grid_gen lc (M * m) (M * m * 4) (Z.min M 128)
                  (Z.min m 128) R r _
                  (gen_initial (M * m) (M * m * 4) Hcap ltac:(lia))
                  ltac:(lia) ltac:(lia)) as Hgrid.
    destruct (torus_grid lc _ _ R r _) as [st idx].
    destruct Hgrid as [Hg Hidx]. cbn [fst snd] in Hg, Hidx.
    apply (gen_cast (M * m) (M * m * 4) (Z.min M 128 * Z.min m 128)
             (4 * (Z.min M 128 * Z.min m 128))); [| lia | lia].
    apply torus_edges_gen; [exact Hg | exact Hidx | lia | lia | nia]. }
  destruct (gen_edges_ok _ _ _ _ _ Hfill) as [Hno Hok]; [nia | nia | nia |].
  pose proof (gen_vi _ _ _ _ _ Hfill) as Hv.
  destruct Hfill as (_ & _ & _ & He & _).
  assert (Hvc : vcount g = Z.min M 128 * Z.min m 128).
  { unfold g, make_torus, finish. cbn [vcount]. exact Hv. }
  repeat apply conj.
  - exact Hno.
  - apply make_torus_edges_ok. exact Hok.
  - exact Hvc.
  - rewrite Hvc. unfold g, make_torus, finish. cbn [lcount]. rewrite He.
    rewrite (Z.mul_comm 2 (2 * _)). apply Z.div_mul. lia.
Qed.

Lemma make_torus_for_all_parameters_witness :
  overrun (torus_fill sample_libc 32 12 f1 (lit 35 100)) = false
  /\ edges_ok (make_torus sample_libc 32 12 f1 (lit 35 100)) = true
  /\ vcount (make_torus sample_libc 32 12 f1 (lit 35 100))
     = Z.min 32 128 * Z.min 12 128
  /\ lcount (make_torus sample_libc 32 12 f1 (lit 35 100))
     = 2 * vcount (make_torus sample_libc 32 12 f1 (lit 35 100)).
Proof.
  apply (make_torus_for_all_parameters sample_libc 32 12 f1 (lit 35 100));
    unfold INT_MAX; lia.
Defined.

(** ** From the configuration file to the render loop *)

Lemma load_ini_not_empty : forall file, load_ini file <> [].
Proof.
  intros file. unfold load_ini. destruct file as [f |]; [| discriminate].
  destruct (collect (fgets_lines f)); discriminate.
Qed.



(** Without a file, on three monitors: one window on monitor 0 and the
    default cube, after nine calls of [rand()]; and when the first monitor
    gives no window, [main] returns 1. *)
Lemma default_startup :
  exists R,
    main_start sample_libc all_created 3 None 0%nat = EnterLoop [0] [R] 9%nat.
Proof. eexists. vm_compute. reflexivity. Qed.

Lemma no_window_for_the_default :
  main_start sample_libc all_but_first 3 None 0%nat = Return1.
Proof. vm_compute. reflexivity. Qed.

(** A screen field beyond [int]: [atoi] gives [INT_MIN], the record asks
    for monitor 0, and [main] returns 1 when that monitor gives no window,
    although monitor 1 would. *)
Lemma no_window_for_a_screen_beyond_int :
  load_ini (Some "CUBE=[RED, CENTER, 2147483648]"%string)
  = [ {| cfg_shape := SH_CUBE; cfg_color := COL_RED; cfg_pos := POS_C;
         cfg_screen := INT_MIN |} ]
  /\ main_start sample_libc all_but_first 2
       (Some "CUBE=[RED, CENTER, 2147483648]"%string) 0%nat = Return1.
Proof. split; vm_compute; reflexivity. Qed.

(** ** The identity quaternion *)

Lemma fmul_comm : forall x y : f32, fmul x y = fmul y x.
Proof.
  intros x y. unfold fmul, SFmul.
  destruct x as [sx | sx | | sx mx ex], y as [sy | sy | | sy my ey];
    try reflexivity;
    try (rewrite (xorb_comm sx sy); reflexivity).
  rewrite (xorb_comm sx sy), (Pos.mul_comm mx my), (Z.add_comm ex ey).
  reflexivity.
Qed.

Lemma fmul_zero_r :
  forall x, is_finite x = true -> exists s, fmul x f0 = S754_zero s.
Proof.
  intros [sx | sx | | sx m e] H; try discriminate H; eexists; reflexivity.
Qed.

Lemma same_float_add_zero :
  forall y x s, same_float y x -> same_float (fadd y (S754_zero s)) x.
Proof.
  intros y x s [-> | (s1 & s2 & -> & ->)].
  - destruct x as [sx | sx | | sx m e].
    + right. destruct sx, s; eexists; eexists; split; reflexivity.
    + left. reflexivity.
    + left. reflexivity.
    + left. reflexivity.
  - right. destruct s1, s; eexists; eexists; split; reflexivity.
Qed.

Lemma same_float_sub_zero :
  forall y x s, same_float y x -> same_float (fsub y (S754_zero s)) x.
Proof.
  intros y x s [-> | (s1 & s2 & -> & ->)].
  - destruct x as [sx | sx | | sx m e].
    + right. destruct sx, s; eexists; eexists; split; reflexivity.
    + left. reflexivity.
    + left. reflexivity.
    + left. reflexivity.
  - right. destruct s1, s; eexists; eexists; split; reflexivity.
Qed.

Lemma zero_add_same :
  forall x s, same_float (fadd (S754_zero s) x) x.
Proof.
  intros [sx | sx | | sx m e] s.
  - right. destruct sx, s; eexists; eexists; split; reflexivity.
  - left. reflexivity.
  - left. reflexivity.
  - left. reflexivity.
Qed.

Lemma zero_sub_zero :
  forall s s', exists s'', fsub (S754_zero s) (S754_zero s') = S754_zero s''.
Proof. intros [|] [|]; eexists; reflexivity. Qed.

Lemma zero_add_zero :
  forall s s', exists s'', fadd (S754_zero s) (S754_zero s') = S754_zero s''.
Proof. intros [|] [|]; eexists; reflexivity. Qed.

Lemma fmul_one_l :
  forall x, valid32 x = true -> is_finite x = true -> fmul f1 x = x.
Proof. intros x Hv Hf. rewrite fmul_comm. exact (fmul_one_r x Hv Hf). Qed.

Lemma fmul_zero_l :
  forall x, is_finite x = true -> exists s, fmul f0 x = S754_zero s.
Proof. intros x H. rewrite fmul_comm. exact (fmul_zero_r x H). Qed.

Ltac quat_parts H :=
  repeat (apply andb_true_iff in H;
          let H' := fresh H in destruct H as [H H']).

(** X23: the identity quaternion is neutral for [q_mul] in binary32
    arithmetic: for every quaternion with finite components, multiplying by
    [q_ident] on either side gives back each component exactly, up to the
    sign of a component that is zero. *)
Theorem q_mul_identity :
  forall (q : quat),
    quat_valid q = true -> quat_finite q = true ->
    same_quat (q_mul q q_ident) q /\ same_quat (q_mul q_ident q) q.
Proof.
  intros [x y z w] Hv Hf. unfold quat_valid, quat_finite in Hv, Hf.
  cbn [qx qy qz qw] in Hv, Hf. quat_parts Hv. quat_parts Hf.
  destruct (fmul_zero_r x Hf) as [sx Ex], (fmul_zero_r y Hf2) as [sy Ey],
    (fmul_zero_r z Hf1) as [sz Ez], (fmul_zero_r w Hf0) as [sw Ew].
  destruct (fmul_zero_l x Hf) as [tx Fx], (fmul_zero_l y Hf2) as [ty Fy],
    (fmul_zero_l z Hf1) as [tz Fz], (fmul_zero_l w Hf0) as [tw Fw].
  pose proof (fmul_one_r x Hv Hf) as Ox. pose proof (fmul_one_r y Hv2 Hf2) as Oy.
  pose proof (fmul_one_r z Hv1 Hf1) as Oz. pose proof (fmul_one_r w Hv0 Hf0) as Ow.
  pose proof (fmul_one_l x Hv Hf) as Px. pose proof (fmul_one_l y Hv2 Hf2) as Py.
  pose proof (fmul_one_l z Hv1 Hf1) as Pz. pose proof (fmul_one_l w Hv0 Hf0) as Pw.
  unfold q_mul, q_ident, same_quat. cbn [qx qy qz qw].
  rewrite Ex, Ey, Ez, Ew, Fx, Fy, Fz, Fw, Ox, Oy, Oz, Ow, Px, Py, Pz, Pw.
  repeat apply conj;
    repeat match goal with
           | |- context [fadd (S754_zero ?a) (S754_zero ?b)] =>
               let E := fresh "E" in
               destruct (zero_add_zero a b) as [? E]; rewrite E; clear E
           | |- context [fsub (S754_zero ?a) (S754_zero ?b)] =>
               let E := fresh "E" in
               destruct (zero_sub_zero a b) as [? E]; rewrite E; clear E
           end;
    repeat first [apply same_float_add_zero | apply same_float_sub_zero];
    first [apply zero_add_same | apply same_float_refl].
Qed.

Lemma q_mul_identity_witness :
  same_quat (q_mul q_345 q_ident) q_345 /\ same_quat (q_mul q_ident q_345) q_345.
Proof. exact (q_mul_identity q_345 eq_refl eq_refl). Defined.
